(** * AI-Rummikub: meld validation, joker valuation, move generation and the
    turn protocol, embedded from the Python sources.

    Python values are modelled as follows.
    - A tile is the tuple [(color, number, is_joker)]: the colour is a string,
      the number is absent ([None]) on a joker.  The hands of the AI players
      hold jokers as [("joker", None, True)]; the validators recognise a joker
      by the colour ["purple"], which is how the board canvas stores it.
    - A meld is a list of tiles, the board a list of melds, a hand a list of
      tiles.
    - A Python [set] is a [gset]; a [dict] whose iteration order is observed is
      an association list in insertion order.
    - A Python exception is the [Raise] case of [result].
    - Lists that a method mutates in place are returned next to the method's
      own return value, so that the caller's view of them is explicit. *)

From Stdlib Require Import ZArith List Permutation Sorted QArith Reals Lra.
From stdpp Require Import base option list sorting gmap sets strings.
Import ListNotations.

#[local] Open Scope string_scope.
#[local] Open Scope list_scope.
#[local] Open Scope Z_scope.

(** ** Exceptions *)

Inductive exn : Set :=
| IndexError
| ValueError
| TypeError
| ZeroDivisionError.

Inductive result (A : Type) : Type :=
| Ok (a : A)
| Raise (e : exn).
Arguments Ok {A} a.
Arguments Raise {A} e.

#[global] Instance result_ret : MRet result := fun _ a => Ok a.

#[global] Instance result_bind : MBind result := fun _ _ k r =>
  match r with
  | Ok a => k a
  | Raise e => Raise e
  end.

Fixpoint mapM_result {A B} (f : A -> result B) (l : list A) : result (list B) :=
  match l with
  | [] => Ok []
  | x :: l' => y ← f x; ys ← mapM_result f l'; Ok (y :: ys)
  end.

Definition raises {A} (r : result A) : Prop :=
  match r with
  | Ok _ => False
  | Raise _ => True
  end.

(** ** Tiles *)

Record tile : Set := Tile { color : string; number : option Z; is_joker : bool }.

Definition meld := list tile.
Definition board := list meld.
Definition hand := list tile.

#[global] Instance tile_eq_dec : EqDecision tile.
Proof. solve_decision. Defined.

#[global] Instance tile_countable : Countable tile.
Proof.
  refine (inj_countable' (fun t => (color t, number t, is_joker t))
                         (fun p => Tile p.1.1 p.1.2 p.2) _).
  by intros [].
Defined.

(** The joker as the tile pool deals it, and as the board canvas stores it. *)
Definition joker_tile : tile := Tile "joker" None true.
Definition purple_joker : tile := Tile "purple" None true.

Definition is_purple (t : tile) : bool := bool_decide (color t = "purple").

(** ** Sorting

    [list.sort] and [sorted] are stable.  Insertion from the right is stable
    for any total preorder given as [le]: with [key a <= key b] it is the
    ascending sort, with [key a >= key b] the sort with [reverse=True]. *)

Section Sort.
Context {A : Type} (le : A -> A -> bool).

Fixpoint insert_sorted (x : A) (l : list A) : list A :=
  match l with
  | [] => [x]
  | y :: l' => if le x y then x :: y :: l' else y :: insert_sorted x l'
  end.

Fixpoint stable_sort (l : list A) : list A :=
  match l with
  | [] => []
  | x :: l' => insert_sorted x (stable_sort l')
  end.
End Sort.

Definition sort_Z (l : list Z) : list Z := stable_sort Z.leb l.

(** [itertools.combinations(l, k)], in the order itertools yields them. *)
Fixpoint combinations {A} (k : nat) (l : list A) : list (list A) :=
  match k, l with
  | O, _ => [[]]
  | S _, [] => []
  | S k', x :: l' => map (cons x) (combinations k' l') ++ combinations k l'
  end.

(** ** RummikubAIHelper *)

Module RummikubAIHelper.

(** [{tile[0] for tile in tiles if tile[0] != "purple"}] *)
Definition colors (tiles : list tile) : gset string :=
  list_to_set (map color (List.filter (fun t => negb (is_purple t)) tiles)).

(** [[tile[1] for tile in tiles if tile[1] is not None]] *)
Definition numbers (tiles : list tile) : list Z := omap number tiles.

(** [sum(1 for tile in tiles if tile[0] == "purple")] *)
Definition jokers (tiles : list tile) : nat :=
  length (List.filter is_purple tiles).

(** The loop of [is_valid_run]: a number that differs from the expected one
    costs a joker; the expected number then advances by one all the same. *)
Fixpoint run_walk (expected_number : Z) (jokers : nat) (numbers : list Z) : bool :=
  match numbers with
  | [] => true
  | number :: rest =>
      if bool_decide (number <> expected_number) then
        match jokers with
        | S jokers' => run_walk (expected_number + 1) jokers' rest
        | O => false
        end
      else run_walk (expected_number + 1) jokers rest
  end.

Definition is_valid_run (tiles : list tile) : result bool :=
  if bool_decide (1 < size (colors tiles))%nat then Ok false
  else
    let numbers := numbers tiles in
    let jokers := jokers tiles in
    if bool_decide (length numbers + jokers < 3)%nat then Ok false
    else
      match numbers with
      | [] => Raise IndexError
      | expected_number :: _ => Ok (run_walk expected_number jokers numbers)
      end.

(** [{tile[1] for tile in tiles}]: the [None] of a joker is an element. *)
Definition number_set (tiles : list tile) : gset (option Z) :=
  list_to_set (map number tiles).

Definition is_valid_group (tiles : list tile) : result bool :=
  let numbers := number_set tiles in
  let colors := colors tiles in
  if bool_decide (length tiles < 3)%nat then Ok false
  else if bool_decide (size numbers <> 1%nat)
          || bool_decide (size colors <> (length tiles - jokers tiles)%nat)
       then Ok false
       else Ok true.

(** The scan of [determine_joker_value] over the sorted numbers:
    the first [i] with [numbers[i + 1] - numbers[i] > 1] gives
    [numbers[i] + 1]. *)
Fixpoint first_gap (numbers : list Z) : option Z :=
  match numbers with
  | n :: ((n' :: _) as rest) =>
      if bool_decide (n' - n > 1) then Some (n + 1) else first_gap rest
  | _ => None
  end.

Definition determine_joker_value (tiles : list tile) : result Z :=
  if bool_decide (length tiles = 1%nat) then Ok 0
  else
    let numbers := numbers tiles in
    if bool_decide (size (list_to_set numbers : gset Z) = 1%nat) then
      match numbers with
      | n :: _ => Ok n
      | [] => Raise IndexError
      end
    else
      let numbers := sort_Z numbers in
      match first_gap numbers with
      | Some v => Ok v
      | None =>
          match tiles with
          | [] => Raise IndexError
          | t0 :: _ =>
              if is_joker t0 then
                match numbers with
                | n :: _ => Ok (n - 1)
                | [] => Raise IndexError
                end
              else
                match last numbers with
                | Some n => Ok (n + 1)
                | None => Raise IndexError
                end
          end
      end.

(** [sum(tile[1] if not tile[2] else joker_value for tile in tiles)];
    adding the [None] of a tile that is not flagged as a joker is a
    [TypeError]. *)
Fixpoint sum_points (joker_value : Z) (tiles : list tile) : result Z :=
  match tiles with
  | [] => Ok 0
  | t :: rest =>
      v ← (if is_joker t then Ok joker_value
           else match number t with
                | Some n => Ok n
                | None => Raise TypeError
                end);
      s ← sum_points joker_value rest;
      Ok (v + s)
  end.

Definition calculate_points (tiles : list tile) : result Z :=
  joker_value ← determine_joker_value tiles;
  sum_points joker_value tiles.

(** [l[i:j]] *)
Definition slice {A} (i j : nat) (l : list A) : list A := take (j - i) (drop i l).

Definition distinct_colors (tiles : list tile) : nat :=
  size (list_to_set (map color tiles) : gset string).

Definition find_valid_groups (same_number_tiles : list tile) : list meld :=
  if bool_decide (3 <= length same_number_tiles)%nat then
    List.filter (fun combo => bool_decide (distinct_colors combo = 3%nat))
                (combinations 3 same_number_tiles)
    ++ (if bool_decide (length same_number_tiles = 4%nat)
           && bool_decide (distinct_colors same_number_tiles = 4%nat)
        then [same_number_tiles] else [])
  else [].

(** [sorted(tiles, key=lambda x: x[1])]: ordering a [None] against anything
    is a [TypeError], and every key is compared as soon as there are two. *)
Definition number_key (t : tile) : Z := default 0 (number t).

Definition sorted_by_number (tiles : list tile) : result (list tile) :=
  if bool_decide (2 <= length tiles)%nat
     && existsb (fun t => bool_decide (number t = None)) tiles
  then Raise TypeError
  else Ok (stable_sort (fun a b => bool_decide (number_key a <= number_key b)) tiles).

(** [all(run[k][1] == run[k - 1][1] + 1 for k in range(1, len(run)))];
    the tiles come out of [sorted_by_number], so they carry numbers. *)
Fixpoint consecutive (run : list tile) : bool :=
  match run with
  | a :: ((b :: _) as rest) =>
      bool_decide (number_key b = number_key a + 1) && consecutive rest
  | _ => true
  end.

Definition runs_of_color (same_color_tiles : list tile) : list meld :=
  let n := length same_color_tiles in
  i ← seq 0 (n - 2);
  j ← seq (i + 2) (n - (i + 2));
  let run := slice i (j + 1) same_color_tiles in
  if consecutive run then [run] else [].

Definition find_valid_runs (tiles : list tile) : result (list meld) :=
  runs ← mapM_result
    (fun c => same_color_tiles ←
                sorted_by_number (List.filter (fun t => bool_decide (color t = c)) tiles);
              Ok (runs_of_color same_color_tiles))
    ["green"; "blue"; "yellow"; "red"];
  Ok (concat runs).

Definition numbered_tiles (player_tiles : list tile) : list tile :=
  List.filter (fun t => bool_decide (number t <> None)) player_tiles.

(** The groups found number by number, 1 to 13. *)
Definition groups_by_number (tiles : list tile) : list meld :=
  n ← seq 1 13;
  find_valid_groups
    (List.filter (fun t => bool_decide (number t = Some (Z.of_nat n))) tiles).

Definition find_valid_sets (player_tiles : list tile) : result (list meld) :=
  let tiles := numbered_tiles player_tiles in
  let groups := groups_by_number tiles in
  runs ← find_valid_runs tiles;
  Ok (groups ++ runs).

(** The packing loop of [find_tiles_for_30_points] over the melds paired
    with their points, best first. *)
Fixpoint pack_sets (valid_sets : list (meld * Z)) (used_tiles : gset tile)
         (result_sets : list meld) (total_points : Z) : list meld * Z :=
  match valid_sets with
  | [] => (result_sets, total_points)
  | (tile_set, points) :: rest =>
      if bool_decide (total_points >= 30) then (result_sets, total_points)
      else if bool_decide (used_tiles ∩ list_to_set tile_set = ∅) then
             pack_sets rest (used_tiles ∪ list_to_set tile_set)
                       (result_sets ++ [tile_set]) (total_points + points)
           else pack_sets rest used_tiles result_sets total_points
  end.

(** [valid_sets.sort(key=calculate_points, reverse=True)] *)
Definition sort_by_points (valid_sets : list (meld * Z)) : list (meld * Z) :=
  stable_sort (fun a b => bool_decide (a.2 >= b.2)) valid_sets.

Definition with_points (valid_sets : list meld) : result (list (meld * Z)) :=
  mapM_result (fun x => p ← calculate_points x; Ok (x, p)) valid_sets.

Definition find_tiles_for_30_points (player_tiles : list tile)
  : result (option (list meld)) :=
  valid_sets ← find_valid_sets player_tiles;
  keyed ← with_points valid_sets;
  let '(result_sets, total_points) := pack_sets (sort_by_points keyed) ∅ [] 0 in
  Ok (if bool_decide (total_points >= 30) then Some result_sets else None).

End RummikubAIHelper.

(** ** RummikubPlayer *)

(** What [AI_logic] hands back to [get_move]: a falsy value ([None] or the
    empty list), a list holding one tile, or the pair
    [(new board, new hand)].  The three strategies return the first or the
    last; a list of two or more elements, which none of them returns, is not
    modelled. *)
Inductive AI_move : Type :=
| NoMove
| SingleMove (t : tile)
| PairMove (new_board : board) (new_hand : hand).

(** [AI_logic(board_tiles, player_tiles)] is the one abstract method of the
    base class.  It may reorder or shrink [player_tiles] in place, as the
    random strategy does: the first component is that list after the call. *)
Definition AI_logic_t : Type := board -> hand -> hand * result AI_move.

(** The strategies [init_players] can build. *)
Inductive player_kind : Set := random | greedy | mcts.

#[global] Instance player_kind_eq_dec : EqDecision player_kind.
Proof. solve_decision. Defined.

Record Player : Set := { kind : player_kind; has_made_initial_meld : bool }.

#[global] Instance Player_eq_dec : EqDecision Player.
Proof. solve_decision. Defined.

(** [l.remove(x)]: drops the first occurrence, [ValueError] without one. *)
Fixpoint list_remove (x : tile) (l : list tile) : option (list tile) :=
  match l with
  | [] => None
  | y :: l' => if decide (x = y) then Some l' else cons y <$> list_remove x l'
  end.

(** [for tile in tiles: l.remove(tile)]; the list as the loop leaves it, also
    when a removal raises. *)
Fixpoint remove_each (tiles : list tile) (l : list tile) : list tile * result () :=
  match tiles with
  | [] => (l, Ok ())
  | t :: rest =>
      match list_remove t l with
      | Some l' => remove_each rest l'
      | None => (l, Raise ValueError)
      end
  end.

(** A [defaultdict(list)] filled by [d[k].append(tile)], in insertion order. *)
Fixpoint group_append {K} `{EqDecision K} (k : K) (t : tile)
         (d : list (K * list tile)) : list (K * list tile) :=
  match d with
  | [] => [(k, [t])]
  | (k', l) :: d' =>
      if decide (k = k') then (k', l ++ [t]) :: d' else (k', l) :: group_append k t d'
  end.

Module RummikubPlayer.
Import RummikubAIHelper.

Definition move : Type := board * hand.

Definition grouped_by_color (player_tiles : hand) : list (string * list tile) :=
  fold_left (fun d t => group_append (color t) t d) player_tiles [].

Definition grouped_by_value (player_tiles : hand) : list (option Z * list tile) :=
  fold_left (fun d t => group_append (number t) t d) player_tiles [].

(** [sorted(tiles, key=lambda x: x[1] if x[1] is not None else 100)] *)
Definition run_key (t : tile) : Z := default 100 (number t).

(** One step of the loop of [generate_runs] on the state [(runs, run)]. *)
Definition run_step (st : list meld * meld) (t : tile) : list meld * meld :=
  let '(runs, run) := st in
  let continues :=
    match last run with
    | None => true
    | Some prev =>
        match number t, number prev with
        | Some n, Some p => bool_decide (n = p + 1)
        | _, _ => true
        end
    end in
  if continues then (runs, run ++ [t])
  else ((if bool_decide (3 <= length run)%nat then runs ++ [run] else runs), [t]).

Definition runs_of (runs : list meld) (tiles : list tile) : list meld :=
  let sorted_tiles := stable_sort (fun a b => bool_decide (run_key a <= run_key b)) tiles in
  let '(runs, run) := fold_left run_step sorted_tiles (runs, []) in
  if bool_decide (3 <= length run)%nat then runs ++ [run] else runs.

Definition generate_runs (grouped_by_color : list (string * list tile)) : list meld :=
  fold_left (fun runs kv => runs_of runs kv.2) grouped_by_color [].

(** The first tile of every colour, in order of appearance. *)
Fixpoint unique_tiles (unique_colors : gset string) (tiles : list tile) : list tile :=
  match tiles with
  | [] => []
  | t :: rest =>
      if bool_decide (color t ∉ unique_colors)
      then t :: unique_tiles (unique_colors ∪ {[color t]}) rest
      else unique_tiles unique_colors rest
  end.

Definition generate_groups (grouped_by_value : list (option Z * list tile)) : list meld :=
  kv ← grouped_by_value;
  let unique_tiles := unique_tiles ∅ kv.2 in
  if bool_decide (3 <= length unique_tiles)%nat then [unique_tiles] else [].

(** [is_valid_group(new_group) or is_valid_run(new_group)] *)
Definition group_or_run (new_group : meld) : result bool :=
  g ← is_valid_group new_group;
  if g : bool then Ok true else is_valid_run new_group.

(** The body of the innermost loop of [get_all_moves_from_board], on the
    state [(possible_moves, visited_states)].  [visited_states] is a set of
    state signatures that is only tested for membership; it is kept as the
    list of the signatures added. *)
Definition try_insert (board_tiles : board) (player_tiles : hand)
           (i : nat) (t : tile) (st : list move * list move) (new_group : meld)
  : result (list move * list move) :=
  let '(possible_moves, visited_states) := st in
  ok ← group_or_run new_group;
  if ok : bool then
    let modified_board_tiles := take i board_tiles ++ [new_group] ++ drop (S i) board_tiles in
    let modified_player_tiles := List.filter (fun t' => bool_decide (t' <> t)) player_tiles in
    let state_signature := (modified_board_tiles, modified_player_tiles) in
    if bool_decide (state_signature ∈ visited_states) then Ok st
    else Ok (possible_moves ++ [state_signature], state_signature :: visited_states)
  else Ok st.

Fixpoint foldM {A S} (f : S -> A -> result S) (l : list A) (s : S) : result S :=
  match l with
  | [] => Ok s
  | x :: l' => s' ← f s x; foldM f l' s'
  end.

Definition get_all_moves_from_board (board_tiles : board) (player_tiles : hand)
  : result (list move) :=
  st ← foldM (fun st ig =>
                foldM (fun st t =>
                         foldM (try_insert board_tiles player_tiles ig.1 t)
                               [[t] ++ ig.2; ig.2 ++ [t]] st)
                      player_tiles st)
             (imap (fun i g => (i, g)) board_tiles) ([], []);
  Ok st.1.

Definition get_all_moves (board_tiles : board) (player_tiles : hand) : result (list move) :=
  let player_runs := generate_runs (grouped_by_color player_tiles) in
  let player_groups := generate_groups (grouped_by_value player_tiles) in
  let player_moves := player_runs ++ player_groups in
  board_moves ← get_all_moves_from_board board_tiles player_tiles;
  Ok (board_moves ++
      map (fun new_group =>
             (board_tiles ++ [new_group],
              List.filter (fun t => bool_decide (t ∉ new_group)) player_tiles))
          player_moves).

(** The caller's two lists as a call leaves them, and what the call
    returns or raises. *)
Record outcome (A : Type) : Type :=
  { board_after : board; hand_after : hand; returned : result A }.
Arguments board_after {A} _.
Arguments hand_after {A} _.
Arguments returned {A} _.

Definition get_move (AI_logic : AI_logic_t) (board_tiles : board) (player_tiles : hand)
  : outcome (bool * board * hand) :=
  let '(player_tiles, r) := AI_logic board_tiles player_tiles in
  match r with
  | Raise e => {| board_after := board_tiles; hand_after := player_tiles; returned := Raise e |}
  | Ok NoMove =>
      {| board_after := board_tiles; hand_after := player_tiles;
         returned := Ok (false, board_tiles, player_tiles) |}
  | Ok (SingleMove t) =>
      let board_tiles := board_tiles ++ [[t]] in
      let removed :=
        if bool_decide (t ∉ player_tiles) then
          if bool_decide (color t = "joker") then list_remove joker_tile player_tiles
          else None
        else list_remove t player_tiles in
      match removed with
      | Some player_tiles =>
          {| board_after := board_tiles; hand_after := player_tiles;
             returned := Ok (true, board_tiles, player_tiles) |}
      | None =>
          {| board_after := board_tiles; hand_after := player_tiles;
             returned := Raise ValueError |}
      end
  | Ok (PairMove new_board_tiles new_player_tiles) =>
      {| board_after := board_tiles; hand_after := player_tiles;
         returned := Ok (true, new_board_tiles, new_player_tiles) |}
  end.

(** [play_turn]; the first component is the player with its flag as the
    call leaves it. *)
Definition play_turn (AI_logic : AI_logic_t) (self : Player)
           (board_tiles : board) (player_tiles : hand)
  : Player * outcome (option move) :=
  let unchanged r :=
    {| board_after := board_tiles; hand_after := player_tiles; returned := r |} in
  if bool_decide (player_tiles = []) then (self, unchanged (Ok None))
  else if negb (has_made_initial_meld self) then
    match find_tiles_for_30_points player_tiles with
    | Raise e => (self, unchanged (Raise e))
    | Ok (Some ((first_meld :: _) as initial_meld)) =>
        let self := {| kind := kind self; has_made_initial_meld := true |} in
        let board_tiles := board_tiles ++ initial_meld in
        let '(player_tiles, r) := remove_each first_meld player_tiles in
        (self, {| board_after := board_tiles; hand_after := player_tiles;
                  returned := _ ← r; Ok (Some (board_tiles, player_tiles)) |})
    | Ok _ => (self, unchanged (Ok None))
    end
  else
    let o := get_move AI_logic board_tiles player_tiles in
    (self,
     {| board_after := board_after o; hand_after := hand_after o;
        returned := '(success, new_board, new_hand) ← returned o;
                    Ok (if success : bool then Some (new_board, new_hand) else None) |}).

(** Whether [play_turn] gets as far as [get_move], which calls [AI_logic]:
    the hand is not empty and the initial meld is made. *)
Definition calls_AI_logic (self : Player) (player_tiles : hand) : bool :=
  negb (bool_decide (player_tiles = [])) && has_made_initial_meld self.

End RummikubPlayer.

(** ** RummikubGreedyAI *)

Module RummikubGreedyAI.
Import RummikubPlayer.

(** The sum of the numbers of a meld, the jokers skipped.  A meld is a list
    of tiles, so the branch for a list nested in a meld does not arise. *)
Definition group_sum (group : meld) : Z :=
  fold_left (fun s t => match number t with Some n => s + n | None => s end) group 0.

(** The search state of [AI_logic]. *)
Record best : Type :=
  { best_move : option move; longest_group : meld;
    max_group_length : Z; max_tile_sum : Z }.

Definition consider (m : move) (b : best) (group : meld) : best :=
  let group_length := Z.of_nat (length group) in
  let group_sum := group_sum group in
  if bool_decide (group_length > max_group_length b)
     || (bool_decide (group_length = max_group_length b)
         && bool_decide (group_sum > max_tile_sum b))
  then {| best_move := Some m; longest_group := group;
          max_group_length := group_length; max_tile_sum := group_sum |}
  else b.

Definition search (moves : list move) : best :=
  fold_left (fun b m => fold_left (consider m) m.1 b) moves
            {| best_move := None; longest_group := [];
               max_group_length := -1; max_tile_sum := -1 |}.

Definition AI_logic : AI_logic_t := fun board_tiles player_tiles =>
  (player_tiles,
   moves ← get_all_moves board_tiles player_tiles;
   if bool_decide (length moves = 0%nat) then Ok NoMove
   else
     let b := search moves in
     match best_move b with
     | Some m => Ok (PairMove [longest_group b] m.2)
     | None => Raise TypeError
     end).

End RummikubGreedyAI.

(** ** RummikubGameManager *)

Module RummikubGameManager.
Import RummikubPlayer.

Record GameManager : Type :=
  { players : list Player;
    tile_pool : list tile;
    players_tiles : list hand;
    is_done : list bool;
    board_tiles : board;
    current_player_idx : nat;
    game_over : bool;
    (** set on the game manager by [Simulator.prepare_simulator] *)
    original_player_idx : option nat }.

Definition set_players (v : list Player) (g : GameManager) : GameManager :=
  {| players := v; tile_pool := tile_pool g; players_tiles := players_tiles g;
     is_done := is_done g; board_tiles := board_tiles g;
     current_player_idx := current_player_idx g; game_over := game_over g;
     original_player_idx := original_player_idx g |}.

Definition set_tile_pool (v : list tile) (g : GameManager) : GameManager :=
  {| players := players g; tile_pool := v; players_tiles := players_tiles g;
     is_done := is_done g; board_tiles := board_tiles g;
     current_player_idx := current_player_idx g; game_over := game_over g;
     original_player_idx := original_player_idx g |}.

Definition set_players_tiles (v : list hand) (g : GameManager) : GameManager :=
  {| players := players g; tile_pool := tile_pool g; players_tiles := v;
     is_done := is_done g; board_tiles := board_tiles g;
     current_player_idx := current_player_idx g; game_over := game_over g;
     original_player_idx := original_player_idx g |}.

Definition set_is_done (v : list bool) (g : GameManager) : GameManager :=
  {| players := players g; tile_pool := tile_pool g; players_tiles := players_tiles g;
     is_done := v; board_tiles := board_tiles g;
     current_player_idx := current_player_idx g; game_over := game_over g;
     original_player_idx := original_player_idx g |}.

Definition set_board_tiles (v : board) (g : GameManager) : GameManager :=
  {| players := players g; tile_pool := tile_pool g; players_tiles := players_tiles g;
     is_done := is_done g; board_tiles := v;
     current_player_idx := current_player_idx g; game_over := game_over g;
     original_player_idx := original_player_idx g |}.

Definition set_current_player_idx (v : nat) (g : GameManager) : GameManager :=
  {| players := players g; tile_pool := tile_pool g; players_tiles := players_tiles g;
     is_done := is_done g; board_tiles := board_tiles g;
     current_player_idx := v; game_over := game_over g;
     original_player_idx := original_player_idx g |}.

Definition set_game_over (v : bool) (g : GameManager) : GameManager :=
  {| players := players g; tile_pool := tile_pool g; players_tiles := players_tiles g;
     is_done := is_done g; board_tiles := board_tiles g;
     current_player_idx := current_player_idx g; game_over := v;
     original_player_idx := original_player_idx g |}.

Definition set_original_player_idx (v : option nat) (g : GameManager) : GameManager :=
  {| players := players g; tile_pool := tile_pool g; players_tiles := players_tiles g;
     is_done := is_done g; board_tiles := board_tiles g;
     current_player_idx := current_player_idx g; game_over := game_over g;
     original_player_idx := v |}.

(** [l[i]], an [IndexError] out of range. *)
Definition index {A} (l : list A) (i : nat) : result A :=
  match l !! i with
  | Some x => Ok x
  | None => Raise IndexError
  end.

(** [l[i] = x], an [IndexError] out of range. *)
Definition assign {A} (l : list A) (i : nat) (x : A) : result (list A) :=
  if bool_decide (i < length l)%nat then Ok (<[i := x]> l) else Raise IndexError.

(** The pool before [random.shuffle]: every colour and number twice, then
    the two jokers. *)
Definition tiles_in_order : list tile :=
  (c ← ["green"; "blue"; "yellow"; "red"];
   n ← seq 1 13;
   [Tile c (Some (Z.of_nat n)) false; Tile c (Some (Z.of_nat n)) false])
  ++ [joker_tile; joker_tile].

(** [create_tile_pool]: [shuffle] stands for the outcome of
    [random.shuffle], any permutation of its argument. *)
Definition create_tile_pool (shuffle : list tile -> list tile) : list tile :=
  shuffle tiles_in_order.

Definition is_tile_pool_empty (g : GameManager) : bool :=
  bool_decide (tile_pool g = []).

(** [draw_tile]: [pop()] takes the last tile of the pool.  On an empty pool
    only a message is shown. *)
Definition draw_tile (g : GameManager) : result GameManager :=
  match last (tile_pool g) with
  | Some t =>
      let g := set_tile_pool (removelast (tile_pool g)) g in
      h ← index (players_tiles g) (current_player_idx g);
      hs ← assign (players_tiles g) (current_player_idx g) (h ++ [t]);
      Ok (set_players_tiles hs g)
  | None => Ok g
  end.

Definition next_player (g : GameManager) : GameManager :=
  set_current_player_idx ((current_player_idx g + 1) mod 2)%nat g.

Fixpoint draw_tiles (n : nat) (g : GameManager) : result GameManager :=
  match n with
  | O => Ok g
  | S n' => g ← draw_tile g; draw_tiles n' g
  end.

Definition deal_initial_tiles (g : GameManager) : result GameManager :=
  g ← draw_tiles 14 g;
  let g := next_player g in
  g ← draw_tiles 14 g;
  Ok (next_player g).

(** [init_players(inputs)] for AI players: fresh instances, the flag of
    each cleared by its constructor. *)
Definition init_players (inputs : list player_kind) (g : GameManager) : GameManager :=
  set_players (map (fun k => {| kind := k; has_made_initial_meld := false |}) inputs) g.

(** [RummikubGameManager(None, None, inputs)] *)
Definition new_game (shuffle : list tile -> list tile) (inputs : list player_kind)
  : result GameManager :=
  g ← deal_initial_tiles
        {| players := []; tile_pool := create_tile_pool shuffle;
           players_tiles := [[]; []]; is_done := [false; false];
           board_tiles := []; current_player_idx := 0; game_over := false;
           original_player_idx := None |};
  Ok (init_players inputs g).

Definition apply_move (m : move) (g : GameManager) : result GameManager :=
  let g := set_board_tiles m.1 g in
  hs ← assign (players_tiles g) (current_player_idx g) m.2;
  Ok (set_players_tiles hs g).

Definition _check_all_players_done (g : GameManager) : GameManager :=
  if forallb (fun done => done) (is_done g) then set_game_over true g else g.

(** Hand points as [check_winner] counts them: 30 for a joker. *)
Fixpoint hand_points (h : hand) : result Z :=
  match h with
  | [] => Ok 0
  | t :: rest =>
      v ← (if bool_decide (color t = "joker") then Ok 30
           else match number t with
                | Some n => Ok n
                | None => Raise TypeError
                end);
      s ← hand_points rest;
      Ok (v + s)
  end.

Definition check_winner (g : GameManager) : result (list Z) :=
  mapM_result hand_points (players_tiles g).

(** [get_winner]: [-1] for a tie, else the index of the fewest points. *)
Definition get_winner (g : GameManager) : result Z :=
  players_points ← check_winner g;
  p0 ← index players_points 0;
  p1 ← index players_points 1;
  if bool_decide (p0 = p1) then Ok (-1)
  else if bool_decide (p0 <= p1) then Ok 0 else Ok 1.

(** [MCTSPlayer.AI_logic(board_tiles, player_tiles)].  The player holds the
    game manager ([MCTSPlayer(game_manager=self)]) and its rollouts run on
    it, so the call is a function of the game manager as well and gives it
    back as it leaves it, with [None] or the move of a child of the root.
    The two lists it is given are copied by [MCTSNode] and stay as they
    are. *)
Definition MCTS_logic_t : Type :=
  GameManager -> board -> hand -> GameManager * result (option move).

Section Strategies.
(** The random strategy enters the turn loop through its [AI_logic] only:
    whatever it computes, it is a function of type [AI_logic_t].  The
    tree-search strategy enters it through its [AI_logic] and through what
    that call does to the game manager. *)
Variable random_logic : AI_logic_t.
Variable mcts_logic : MCTS_logic_t.

Definition AI_logic_of (g : GameManager) (k : player_kind) : AI_logic_t :=
  match k with
  | random => random_logic
  | greedy => RummikubGreedyAI.AI_logic
  | mcts => fun board_tiles player_tiles =>
      (player_tiles,
       m ← (mcts_logic g board_tiles player_tiles).2;
       Ok match m with
          | Some m => PairMove m.1 m.2
          | None => NoMove
          end)
  end.

Definition draw_or_done (g : GameManager) : result GameManager :=
  if negb (is_tile_pool_empty g) then draw_tile g
  else
    done ← assign (is_done g) (current_player_idx g) true;
    Ok (set_is_done done g).

(** One iteration of the loop of [ai_VS_ai].  [play_turn] works on the
    game manager's own board list and on the current player's own hand
    list, so what it does to them in place is done to the game.  When the
    player is a tree-search player whose [play_turn] calls [AI_logic], the
    two lists and the player are left as they are and the rest of the
    iteration reads the game manager as that call has left it, the index of
    the player to move included. *)
Definition turn (g : GameManager) : result GameManager :=
  let idx := current_player_idx g in
  player ← index (players g) idx;
  player_tiles ← index (players_tiles g) idx;
  let '(player', o) :=
    play_turn (AI_logic_of g (kind player)) player (board_tiles g) player_tiles in
  let g :=
    if bool_decide (kind player = mcts) && calls_AI_logic player player_tiles then
      (mcts_logic g (board_tiles g) player_tiles).1
    else
      let g := set_players (<[idx := player']> (players g)) g in
      let g := set_board_tiles (board_after o) g in
      set_players_tiles (<[idx := hand_after o]> (players_tiles g)) g in
  m ← returned o;
  g ← match m with
      | None => draw_or_done g
      | Some m =>
          h ← index (players_tiles g) (current_player_idx g);
          if bool_decide (length m.2 = length h) then draw_or_done g
          else apply_move m g
      end;
  Ok (next_player (_check_all_players_done g)).

(** [ai_VS_ai]: [None] when [fuel] iterations do not end the game. *)
Fixpoint ai_VS_ai (fuel : nat) (g : GameManager) : option (result GameManager) :=
  if game_over g then Some (Ok g)
  else
    match fuel with
    | O => None
    | S fuel' =>
        match turn g with
        | Ok g' => ai_VS_ai fuel' g'
        | Raise e => Some (Raise e)
        end
    end.
End Strategies.

(** The tiles of a game: pool, hands and board melds. *)
Definition tile_count (g : GameManager) : nat :=
  length (tile_pool g) + length (concat (players_tiles g))
  + length (concat (board_tiles g)).

End RummikubGameManager.

(** ** RummikubMCTSAI *)

Module RummikubMCTSAI.
Import RummikubPlayer RummikubGameManager.

Definition NUM_SIMULATIONS_FOR_NODE : nat := 8.
Definition MAX_ROLLOUT_DEPTH : Z := 5.

(** A [Simulator] object.  Its field [simulator] is not a copy: it is the
    game manager passed to the constructor, so that field is the game
    manager every method below takes and gives back. *)
Record Simulator : Type :=
  { sim_board_tiles : board;
    sim_player_tiles : hand;
    sim_original_player_idx : nat }.

Definition prepare_simulator (self_board_tiles : board) (self_player_tiles : hand)
           (game_manager : GameManager) : result GameManager :=
  let simulator := game_manager in
  let simulator :=
    set_original_player_idx (Some (current_player_idx game_manager)) simulator in
  let simulator := set_board_tiles self_board_tiles simulator in
  hs ← assign (players_tiles simulator) (current_player_idx simulator) self_player_tiles;
  let simulator := set_players_tiles hs simulator in
  let simulator := next_player simulator in
  let simulator := init_players [greedy; random] simulator in
  let simulator :=
    set_players (map (fun p => {| kind := kind p; has_made_initial_meld := true |})
                     (players simulator)) simulator in
  Ok simulator.

(** [Simulator(board_tiles, player_tiles, game_manager)]: the new object and
    the game manager as the constructor leaves it.  [original_player_idx]
    is read from the game manager after [prepare_simulator] has advanced
    it. *)
Definition Simulator_init (board_tiles : board) (player_tiles : hand)
           (game_manager : GameManager) : result (Simulator * GameManager) :=
  game_manager ← prepare_simulator board_tiles player_tiles game_manager;
  Ok ({| sim_board_tiles := board_tiles; sim_player_tiles := player_tiles;
         sim_original_player_idx := current_player_idx game_manager |},
      game_manager).

(** [sum(tile[1] for tile in hand if tile[1] is not None)] *)
Definition hand_value (h : hand) : Z := fold_right Z.add 0 (omap number h).

Section Strategies.
Variable random_logic : AI_logic_t.
Variable mcts_logic : MCTS_logic_t.

(** [Simulator.get_winner(game)]: the reward, and the game as
    [ai_VS_ai] leaves it. *)
Definition get_winner (fuel : nat) (self : Simulator) (game : GameManager)
  : option (result (Q * GameManager)) :=
  match ai_VS_ai random_logic mcts_logic fuel game with
  | None => None
  | Some (Raise e) => Some (Raise e)
  | Some (Ok game) =>
      Some (winner ← RummikubGameManager.get_winner game;
            if bool_decide (winner = Z.of_nat (sim_original_player_idx self)) then
              h ← (if bool_decide (0 <= winner) then
                     index (players_tiles game) (Z.to_nat winner)
                   else Raise IndexError);
              Ok (inject_Z (1 + hand_value h), game)
            else if bool_decide
                      (winner = Z.of_nat ((sim_original_player_idx self + 1) mod 2))
                 then Ok (0%Q, game)
                 else Ok ((1 # 2)%Q, game))
  end.

Fixpoint run_simulations (fuel : nat) (self : Simulator) (num_simulations : nat)
         (wins : Q) (game : GameManager) : option (result (Q * GameManager)) :=
  match num_simulations with
  | O => Some (Ok (wins, game))
  | S n =>
      match get_winner fuel self game with
      | None => None
      | Some (Raise e) => Some (Raise e)
      | Some (Ok (w, game)) => run_simulations fuel self n (wins + w)%Q game
      end
  end.

(** [MCTSNode.rollout(depth)] of a node with the given board and hand. *)
Definition rollout (fuel : nat) (node_board : board) (node_hand : hand) (depth : Z)
           (game_manager : GameManager) : option (result (Q * GameManager)) :=
  if bool_decide (depth >= MAX_ROLLOUT_DEPTH) then Some (Ok ((1 # 2)%Q, game_manager))
  else
    match Simulator_init node_board node_hand game_manager with
    | Raise e => Some (Raise e)
    | Ok (simulator, game_manager) =>
        run_simulations fuel simulator NUM_SIMULATIONS_FOR_NODE 0%Q game_manager
    end.
End Strategies.

(** A search node: the fields [best_child] reads. *)
#[local] Unset Elimination Schemes.
#[local] Set Elimination Schemes.







End RummikubMCTSAI.

(** ** RummikubAIHelper: grouping a hand and its potential melds *)

Module PotentialMelds.
Import RummikubAIHelper RummikubPlayer.

(** [tile_dict.setdefault(number, []).append(tile)] for every tile. *)
Definition group_tiles_by_number (tiles : list tile) : list (option Z * list tile) :=
  fold_left (fun tile_dict t => group_append (number t) t tile_dict) tiles [].

(** [tile_dict.setdefault(color, []).append(tile)] for every tile. *)
Definition group_tiles_by_color (tiles : list tile) : list (string * list tile) :=
  fold_left (fun tile_dict t => group_append (color t) t tile_dict) tiles [].

(** [[tile for tile in tiles if tile[0] == "joker"]] *)
Definition joker_colored (tiles : list tile) : list tile :=
  List.filter (fun t => bool_decide (color t = "joker")) tiles.

Definition get_potential_groups (tiles : list tile) : list meld :=
  kv ← group_tiles_by_number tiles;
  let group := kv.2 in
  if bool_decide (3 <= length group)%nat then [group]
  else if bool_decide (length group = 2%nat) then
         match joker_colored tiles with
         | joker :: _ => [group ++ [joker]]
         | [] => []
         end
       else [].

(** The window loop of [get_potential_runs] over the start positions left,
    with its [break]. *)
Fixpoint scan_windows (run_tiles : list tile) (starts : list nat)
         (potential_runs : list meld) : result (list meld) :=
  match starts with
  | [] => Ok potential_runs
  | i :: rest =>
      if bool_decide (length run_tiles - i < 3)%nat then Ok potential_runs
      else
        let run := slice i (i + 3) run_tiles in
        v ← is_valid_run run;
        scan_windows run_tiles rest
                     (if v : bool then potential_runs ++ [run] else potential_runs)
  end.

(** The joker loop of [get_potential_runs] over the runs collected so far:
    a run of fewer than three tiles is extended in place by the jokers and,
    when that makes a valid run, appended once more.  The result is the list
    as the loop leaves it: the runs visited, then the runs appended. *)
Fixpoint extend_short_runs (jokers : list tile) (potential_runs : list meld)
  : result (list meld * list meld) :=
  match potential_runs with
  | [] => Ok ([], [])
  | run :: rest =>
      if bool_decide (length run < 3)%nat then
        let run := run ++ jokers in
        v ← is_valid_run run;
        '(visited, appended) ← extend_short_runs jokers rest;
        Ok (run :: visited, (if v : bool then [run] else []) ++ appended)
      else
        '(visited, appended) ← extend_short_runs jokers rest;
        Ok (run :: visited, appended)
  end.

(** The body of the loop over the colours. *)
Definition runs_of_group (tiles : list tile) (potential_runs : list meld)
           (run_tiles : list tile) : result (list meld) :=
  let run_tiles :=
    stable_sort (fun a b => bool_decide (number_key a <= number_key b))
                (numbered_tiles run_tiles) in
  let jokers := joker_colored tiles in
  potential_runs ← scan_windows run_tiles (seq 0 (length run_tiles - 2)) potential_runs;
  if bool_decide (jokers <> []) then
    '(visited, appended) ← extend_short_runs jokers potential_runs;
    Ok (visited ++ appended)
  else Ok potential_runs.

Definition get_potential_runs (tiles : list tile) : result (list meld) :=
  foldM (fun potential_runs kv => runs_of_group tiles potential_runs kv.2)
        (group_tiles_by_color tiles) [].

End PotentialMelds.

(** ** RummikubMCTSAI: expanding a search node *)

Module MCTSTree.
Import RummikubPlayer PotentialMelds.

(** A search node with the moves it has not tried yet.  The parent link is
    not a field: a node sits in the [children] of its parent. *)
#[local] Unset Elimination Schemes.
Inductive TreeNode : Type :=
  MkTreeNode { tn_board_tiles : board;
               tn_player_tiles : hand;
               tn_move : option move;
               tn_children : list TreeNode;
               tn_visits : Z;
               tn_value : Q;
               untried_moves : list move }.
#[local] Set Elimination Schemes.

Definition get_legal_moves (board_tiles : board) (player_tiles : hand)
  : result (list move) :=
  get_all_moves board_tiles player_tiles.

(** [MCTSNode(board_tiles, player_tiles, game_manager, parent, move)] *)
Definition MCTSNode_init (board_tiles : board) (player_tiles : hand)
           (move : option move) : result TreeNode :=
  untried_moves ← get_legal_moves board_tiles player_tiles;
  Ok {| tn_board_tiles := board_tiles; tn_player_tiles := player_tiles;
        tn_move := move; tn_children := []; tn_visits := 0; tn_value := 0%Q;
        untried_moves := untried_moves |}.

Definition is_fully_expanded (self : TreeNode) : bool :=
  bool_decide (length (untried_moves self) = 0%nat).

Definition is_terminal (self : TreeNode) : bool :=
  bool_decide (length (tn_player_tiles self) = 0%nat)
  || bool_decide (untried_moves self = []).

Definition prune_move (new_player_tiles : hand) : result bool :=
  let potential_groups := get_potential_groups new_player_tiles in
  potential_runs ← get_potential_runs new_player_tiles;
  Ok (bool_decide (length potential_groups + length potential_runs < 2)%nat).

Definition simulate_move (m : move) : board * hand := (m.1, m.2).

(** [expand]: the node as the call leaves it, and the child it returns,
    if any.  [pop()] takes the last untried move. *)
Definition expand (self : TreeNode) : result (TreeNode * option TreeNode) :=
  match last (untried_moves self) with
  | None => Ok (self, None)
  | Some m =>
      let self :=
        {| tn_board_tiles := tn_board_tiles self; tn_player_tiles := tn_player_tiles self;
           tn_move := tn_move self; tn_children := tn_children self;
           tn_visits := tn_visits self; tn_value := tn_value self;
           untried_moves := removelast (untried_moves self) |} in
      let '(new_board_tiles, new_player_tiles) := simulate_move m in
      pruned ← prune_move new_player_tiles;
      if pruned : bool then Ok (self, None)
      else
        child_node ← MCTSNode_init new_board_tiles new_player_tiles (Some m);
        Ok ({| tn_board_tiles := tn_board_tiles self;
               tn_player_tiles := tn_player_tiles self;
               tn_move := tn_move self;
               tn_children := tn_children self ++ [child_node];
               tn_visits := tn_visits self; tn_value := tn_value self;
               untried_moves := untried_moves self |},
            Some child_node)
  end.

End MCTSTree.

(** ** RummikubRandomAI *)

Module RummikubRandomAI.
Import RummikubAIHelper RummikubPlayer.

Definition MIN_ATTEMPTS : Z := 100.
Definition MAX_ATTEMPTS : Z := 10000.
Definition MIN_TILES : nat := 3.
Definition MAX_RANDOM_TILES_LENGTH : nat := 6.

(** What the random module hands out in one attempt: the number
    [random.randint(MIN_TILES, MAX_RANDOM_TILES_LENGTH)] drew, the hand as
    [random.shuffle] leaves it, and the list [random.sample] returns. *)
Record attempt : Type :=
  { drawn_length : nat; shuffled : hand; sampled : list tile }.

(** [select_random_tiles]: the hand after the call, and the sample. *)
Definition select_random_tiles (a : attempt) (player_tiles : hand) : hand * list tile :=
  (shuffled a, sampled a).

(** [candidate_tiles.sort(key=lambda tile: tile[1] if tile[1] is not None else 0)] *)
Definition sort_candidate (candidate_tiles : list tile) : list tile :=
  stable_sort (fun a b => bool_decide (number_key a <= number_key b)) candidate_tiles.

(** [generate_random_move]: one [attempt] per iteration of its loop, so the
    list is as long as [random.randint(MIN_ATTEMPTS, MAX_ATTEMPTS)] says. *)
Fixpoint generate_random_move (attempts : list attempt) (player_tiles : hand)
  : hand * result (option (list tile)) :=
  match attempts with
  | [] => (player_tiles, Ok None)
  | a :: rest =>
      let '(player_tiles, candidate_tiles) := select_random_tiles a player_tiles in
      let hypothetical_move := sort_candidate candidate_tiles in
      match hypothetical_move with
      | [] => generate_random_move rest player_tiles
      | _ :: _ =>
          match group_or_run hypothetical_move with
          | Raise e => (player_tiles, Raise e)
          | Ok true => (player_tiles, Ok (Some hypothetical_move))
          | Ok false => generate_random_move rest player_tiles
          end
      end
  end.

Definition AI_logic (attempts : list attempt) : AI_logic_t := fun board_tiles player_tiles =>
  let '(player_tiles, r) := generate_random_move attempts player_tiles in
  match r with
  | Raise e => (player_tiles, Raise e)
  | Ok None => (player_tiles, Ok NoMove)
  | Ok (Some m) =>
      let '(player_tiles, removed) := remove_each m player_tiles in
      (player_tiles, _ ← removed; Ok (PairMove [m] player_tiles))
  end.

End RummikubRandomAI.

(** ** The specification's notions

    These follow the wording of the specification, not the code: they are
    what the code is compared with. *)

Module Spec.
Import RummikubAIHelper.

(** "At most one non-joker color". *)
Definition one_color (tiles : list tile) : bool :=
  bool_decide (size (colors tiles) <= 1)%nat.

(** The values of the non-joker tiles, sorted ascending. *)
Definition sorted_values (tiles : list tile) : list Z :=
  sort_Z (omap number (List.filter (fun t => negb (is_purple t)) tiles)).

(** The jokers that the gaps of an ascending list of values ask for;
    [None] when the list is not strictly ascending. *)
Fixpoint jokers_needed (values : list Z) : option nat :=
  match values with
  | a :: ((b :: _) as rest) =>
      if bool_decide (a < b) then
        n ← jokers_needed rest; Some (Z.to_nat (b - a - 1) + n)%nat
      else None
  | _ => Some O
  end.

(** "T has at least 3 tiles (jokers counted), all non-joker tiles share
    one color, and the non-joker values, taken in sorted ascending order
    with jokers consumed to fill missing expected values, form one
    consecutive ascending sequence with no wraparound past value 13 or below
    1": the values lie between 1 and 13, and so does the whole run, which
    therefore has at most 13 tiles. *)
Definition spec_is_valid_run (tiles : list tile) : bool :=
  bool_decide (3 <= length tiles <= 13)%nat
  && one_color tiles
  && forallb (fun v => bool_decide (1 <= v <= 13)) (sorted_values tiles)
  && match jokers_needed (sorted_values tiles) with
     | Some n => bool_decide (n <= jokers tiles)%nat
     | None => false
     end.

(** "3 <= |T| <= 4, all non-joker tiles share exactly one value, and the
    count of distinct non-joker colors plus the count of jokers equals
    |T|". *)
Definition spec_is_valid_group (tiles : list tile) : bool :=
  let non_jokers := List.filter (fun t => negb (is_purple t)) tiles in
  bool_decide (3 <= length tiles <= 4)%nat
  && bool_decide (size (list_to_set (map number non_jokers) : gset (option Z)) = 1%nat)
  && bool_decide (size (colors tiles) + jokers tiles = length tiles)%nat.

(** Values in the order given that go up by one at every step. *)
Definition ascending_by_one (values : list Z) : Prop :=
  forall i a b, values !! i = Some a -> values !! S i = Some b -> b = a + 1.

(** The first gap of more than one in a list of values lies after position
    [i], between [a] and [b]. *)
Definition earliest_gap (values : list Z) (i : nat) (a b : Z) : Prop :=
  values !! i = Some a /\ values !! S i = Some b /\ b - a > 1
  /\ forall j a' b', (j < i)%nat -> values !! j = Some a' -> values !! S j = Some b' ->
                     b' - a' <= 1.

Definition no_gap (values : list Z) : Prop :=
  forall i a b, values !! i = Some a -> values !! S i = Some b -> b - a <= 1.

Definition is_min (lo : Z) (values : list Z) : Prop :=
  lo ∈ values /\ forall x, x ∈ values -> lo <= x.

Definition is_max (hi : Z) (values : list Z) : Prop :=
  hi ∈ values /\ forall x, x ∈ values -> x <= hi.

(** The four cases of the joker valuator, on a meld [M] whose non-joker
    values, sorted, are [sorted]. *)
Inductive joker_value (M : list tile) : Z -> Prop :=
| single_tile :
    length M = 1%nat -> joker_value M 0
| group_context v :
    length M <> 1%nat -> numbers M <> [] -> Forall (eq v) (numbers M) ->
    joker_value M v
| run_gap sorted i a b :
    length M <> 1%nat -> ~ (exists v, Forall (eq v) (numbers M)) ->
    Sorted Z.le sorted -> sorted ≡ₚ numbers M ->
    earliest_gap sorted i a b ->
    joker_value M (a + 1)
| run_end sorted t0 lo hi :
    length M <> 1%nat -> ~ (exists v, Forall (eq v) (numbers M)) ->
    Sorted Z.le sorted -> sorted ≡ₚ numbers M ->
    no_gap sorted ->
    head M = Some t0 -> is_min lo (numbers M) -> is_max hi (numbers M) ->
    joker_value M (if is_joker t0 then lo - 1 else hi + 1).

(** Two melds are disjoint when they share no tile. *)
Definition disjoint_melds (a b : meld) : bool :=
  forallb (fun t => bool_decide (t ∉ b)) a.

Fixpoint pairwise_disjoint (melds : list meld) : bool :=
  match melds with
  | [] => true
  | m :: rest => forallb (disjoint_melds m) rest && pairwise_disjoint rest
  end.

(** The points of a meld, a joker resolved within the meld. *)
Definition meld_points (m : meld) : Z :=
  match calculate_points m with
  | Ok p => p
  | Raise _ => 0
  end.

Definition total_points (melds : list meld) : Z :=
  fold_right Z.add 0 (map meld_points melds).







(** [(length, sum)] pairs in lexicographic order. *)
Definition lex_le (p q : Z * Z) : Prop :=
  p.1 < q.1 \/ (p.1 = q.1 /\ p.2 <= q.2).

End Spec.

(** ** Sample tiles and states *)

Definition red (n : Z) : tile := Tile "red" (Some n) false.
Definition blue (n : Z) : tile := Tile "blue" (Some n) false.
Definition green (n : Z) : tile := Tile "green" (Some n) false.
Definition yellow (n : Z) : tile := Tile "yellow" (Some n) false.

(** A hand whose two melds, red 7-8-9 and blue 1-2-3, are worth 30 points
    together and less than 30 each. *)
Definition two_meld_hand : hand :=
  [red 7; red 8; red 9; blue 1; blue 2; blue 3; green 1; green 5; green 11;
   yellow 3; yellow 6; yellow 12; blue 10; red 12].

Definition other_hand : hand :=
  [yellow 1; yellow 2; yellow 4; yellow 5; yellow 7; yellow 8; yellow 9;
   yellow 10; yellow 11; yellow 13; green 2; green 3; green 4; green 6].

(** A shuffle that leaves [other_hand] and [two_meld_hand] at the end of the
    pool, from where the two hands are dealt. *)
Definition dealing_shuffle (tiles : list tile) : list tile :=
  let dealt := rev other_hand ++ rev two_meld_hand in
  (remove_each dealt tiles).1 ++ dealt.

(** ** Notions the properties are stated with *)

Section ProofNotions.
Import RummikubAIHelper RummikubPlayer RummikubGreedyAI RummikubGameManager RummikubMCTSAI Spec.

(** A list without jokers: no purple tile, every tile with a number. *)
Definition joker_free (tiles : list tile) : Prop :=
  Forall (fun t => color t <> "purple" /\ number t <> None) tiles.

(** A strategy whose move puts red 1-2-3 on the board and empties the hand. *)
Definition conjuring_logic : AI_logic_t :=
  fun _ player_tiles => (player_tiles, Ok (PairMove [[red 1; red 2; red 3]] [])).

(** What a turn leaves alone: which strategy sits where, and the index
    [prepare_simulator] has stored. *)
Definition fixed_by_turn (g g' : GameManager) : Prop :=
  map kind (players g') = map kind (players g)
  /\ original_player_idx g' = original_player_idx g.

(** No player of the game is a tree-search player. *)
Definition no_tree_search (g : GameManager) : Prop := mcts ∉ map kind (players g).

(** A game about to end: the pool is empty, the tree-search player holds
    red 1 and is to move, the greedy player holds blue 9. *)
Definition closing_game : RummikubGameManager.GameManager :=
  {| RummikubGameManager.players :=
       [{| kind := mcts; has_made_initial_meld := true |};
        {| kind := greedy; has_made_initial_meld := true |}];
     RummikubGameManager.tile_pool := [];
     RummikubGameManager.players_tiles := [[red 1]; [blue 9]];
     RummikubGameManager.is_done := [false; false];
     RummikubGameManager.board_tiles := [[red 4; red 5; red 6]];
     RummikubGameManager.current_player_idx := 0;
     RummikubGameManager.game_over := false;
     RummikubGameManager.original_player_idx := None |}.

(** A random search that comes back empty-handed, as it does on a hand of
    one tile. *)
Definition fruitless_logic : AI_logic_t := fun _ player_tiles => (player_tiles, Ok NoMove).

(** A tree search that finds no move and leaves the game manager alone. *)
Definition idle_search : MCTS_logic_t := fun g _ _ => (g, Ok None).







(** The pair the greedy search compares melds by. *)
Definition length_and_sum (group : meld) : Z * Z :=
  (Z.of_nat (length group), group_sum group).

(** The search state after some melds have been considered: nothing yet, or
    a meld of a move seen so far that no meld seen so far exceeds. *)
Definition search_invariant (seen : list (move * meld)) (b : best) : Prop :=
  match best_move b with
  | None => seen = [] /\ max_group_length b = -1 /\ max_tile_sum b = -1
  | Some m =>
      (m, longest_group b) ∈ seen
      /\ (max_group_length b, max_tile_sum b) = length_and_sum (longest_group b)
      /\ forall mg, mg ∈ seen -> lex_le (length_and_sum mg.2) (length_and_sum (longest_group b))
  end.

(** The melds of the moves in the order the search meets them. *)
Definition melds_of_moves (moves : list move) : list (move * meld) :=
  m ← moves; map (fun group => (m, group)) m.1.

Definition numbered (t : tile) : Prop := number t <> None.

(** What is asked of a meld found in a hand: at least three different tiles
    of the hand, all with a number. *)
Definition meld_of (tiles : list tile) (m : meld) : Prop :=
  NoDup m /\ m ⊆ tiles /\ Forall numbered m /\ (3 <= length m)%nat.

(** The melds of a hand paired with their points. *)
Definition keyed_sets (valid_sets : list meld) : list (meld * Z) :=
  map (fun m => (m, meld_points m)) valid_sets.

Definition sum_snd (l : list (meld * Z)) : Z := fold_right Z.add 0 (map snd l).

End ProofNotions.

(** ** Notions for the properties of the grouping functions *)

Section Grouping.
Context {K : Type} `{EqDecision K} (key : tile -> K).

(** The tiles filed under one key, in the order of the input. *)
Definition bucket (k : K) (tiles : list tile) : list tile :=
  List.filter (fun t => bool_decide (key t = k)) tiles.

(** The dictionary every grouping function builds, for its own key. *)
Definition grouped (tiles : list tile) : list (K * list tile) :=
  fold_left (fun d t => group_append (key t) t d) tiles [].

End Grouping.

(** The four colours of the numbered tiles. *)
Definition game_colors : list string := ["green"; "blue"; "yellow"; "red"].

(** A numbered tile of the game: one of the four colours, a number from 1
    to 13. *)
Definition game_tile (t : tile) : Prop :=
  exists c n, t = Tile c (Some n) false /\ c ∈ game_colors /\ 1 <= n <= 13.


(** The points the packing of the code's [find_tiles_for_30_points]
    collects, computed by the code's own [find_valid_sets] and [pack_sets]: the
    melds by descending points, each taken when it shares no tile with
    those already taken, until 30 is reached. *)
Definition greedy_points (player_tiles : hand) : Z :=
  match RummikubAIHelper.find_valid_sets player_tiles with
  | Ok valid_sets =>
      match RummikubAIHelper.with_points valid_sets with
      | Ok keyed => (RummikubAIHelper.pack_sets (RummikubAIHelper.sort_by_points keyed) ∅ [] 0).2
      | Raise _ => 0
      end
  | Raise _ => 0
  end.


(** Neighbours in a run: when both carry a number, the second is the
    first plus one. *)
Definition step_ok (prev t : tile) : Prop :=
  forall n p, number t = Some n -> number prev = Some p -> n = p + 1.

Fixpoint linked (run : list tile) : Prop :=
  match run with
  | a :: ((b :: _) as rest) => step_ok a b /\ linked rest
  | _ => True
  end.

(** A move that lays one tile of the hand at the front or at the back of
    one meld of the board, the meld so extended being valid; the hand loses
    every copy of the tile. *)
Definition extends_board (board_tiles : board) (player_tiles : hand)
           (m : RummikubPlayer.move) : Prop :=
  exists i g t new_group,
    board_tiles !! i = Some g /\ t ∈ player_tiles
    /\ (new_group = [t] ++ g \/ new_group = g ++ [t])
    /\ RummikubPlayer.group_or_run new_group = Ok true
    /\ m = (<[i := new_group]> board_tiles,
            List.filter (fun t' => bool_decide (t' <> t)) player_tiles).

(** The tiles of a board and a hand together. *)
Definition tiles_in_play (board_tiles : board) (player_tiles : hand) : nat :=
  (length (concat board_tiles) + length player_tiles)%nat.

(** What the turn loop keeps of the pool and of the [is_done] marks: a
    player is marked only once the pool is empty, and the game is over only
    when every player is marked. *)
Definition pool_invariant (g : RummikubGameManager.GameManager) : Prop :=
  RummikubGameManager.is_done g <> []
  /\ (true ∈ RummikubGameManager.is_done g -> RummikubGameManager.tile_pool g = [])
  /\ (RummikubGameManager.game_over g = true ->
      Forall (eq true) (RummikubGameManager.is_done g)).

(** A game in which the greedy player, past its initial meld, holds green
    1-2-3 and finds red 10-13 on the board. *)
Definition greedy_game : RummikubGameManager.GameManager :=
  {| RummikubGameManager.players :=
       [{| kind := greedy; has_made_initial_meld := true |};
        {| kind := random; has_made_initial_meld := true |}];
     RummikubGameManager.tile_pool := [yellow 1];
     RummikubGameManager.players_tiles := [[green 1; green 2; green 3]; [blue 9]];
     RummikubGameManager.is_done := [false; false];
     RummikubGameManager.board_tiles := [[red 10; red 11; red 12; red 13]];
     RummikubGameManager.current_player_idx := 0;
     RummikubGameManager.game_over := false;
     RummikubGameManager.original_player_idx := None |}.

(** What the random module may hand out in one attempt on a hand: a length
    between [MIN_TILES] and [MAX_RANDOM_TILES_LENGTH], a permutation of the
    hand, and a sample of the permuted hand that takes no tile more often
    than the hand holds it and has the length drawn, or the length of the
    hand if that is smaller. *)
Definition fair_attempt (player_tiles : hand) (a : RummikubRandomAI.attempt) : Prop :=
  (RummikubRandomAI.MIN_TILES <= RummikubRandomAI.drawn_length a
   <= RummikubRandomAI.MAX_RANDOM_TILES_LENGTH)%nat
  /\ RummikubRandomAI.shuffled a ≡ₚ player_tiles
  /\ RummikubRandomAI.sampled a ⊆+ RummikubRandomAI.shuffled a
  /\ length (RummikubRandomAI.sampled a)
     = Nat.min (RummikubRandomAI.drawn_length a) (length player_tiles).

(** An attempt on the hand red 1-2-3, blue 1 that samples the red tiles. *)
Definition lucky_attempt : RummikubRandomAI.attempt :=
  {| RummikubRandomAI.drawn_length := 3;
     RummikubRandomAI.shuffled := [red 3; blue 1; red 2; red 1];
     RummikubRandomAI.sampled := [red 3; red 1; red 2] |}.

(** A game in which the player to move has no tile left and two tiles are
    in the pool. *)
Definition spent_game : RummikubGameManager.GameManager :=
  {| RummikubGameManager.players :=
       [{| kind := greedy; has_made_initial_meld := true |};
        {| kind := random; has_made_initial_meld := true |}];
     RummikubGameManager.tile_pool := [yellow 1; yellow 2];
     RummikubGameManager.players_tiles := [[]; [blue 9]];
     RummikubGameManager.is_done := [false; false];
     RummikubGameManager.board_tiles := [[red 10; red 11; red 12; red 13]];
     RummikubGameManager.current_player_idx := 0;
     RummikubGameManager.game_over := false;
     RummikubGameManager.original_player_idx := None |}.

(** A game in which the random player, past its initial meld, holds red
    1-2-3 and blue 1. *)
Definition random_game : RummikubGameManager.GameManager :=
  {| RummikubGameManager.players :=
       [{| kind := random; has_made_initial_meld := true |};
        {| kind := greedy; has_made_initial_meld := true |}];
     RummikubGameManager.tile_pool := [yellow 1];
     RummikubGameManager.players_tiles := [[red 1; red 2; red 3; blue 1]; [blue 9]];
     RummikubGameManager.is_done := [false; false];
     RummikubGameManager.board_tiles := [[green 5; green 6; green 7]];
     RummikubGameManager.current_player_idx := 0;
     RummikubGameManager.game_over := false;
     RummikubGameManager.original_player_idx := None |}.

(** A game about to end between a greedy and a random player: the pool is
    empty, the greedy player holds red 1 and is to move. *)
Definition last_turns_game : RummikubGameManager.GameManager :=
  {| RummikubGameManager.players :=
       [{| kind := greedy; has_made_initial_meld := true |};
        {| kind := random; has_made_initial_meld := true |}];
     RummikubGameManager.tile_pool := [];
     RummikubGameManager.players_tiles := [[red 1]; [blue 9]];
     RummikubGameManager.is_done := [false; false];
     RummikubGameManager.board_tiles := [[red 4; red 5; red 6]];
     RummikubGameManager.current_player_idx := 0;
     RummikubGameManager.game_over := false;
     RummikubGameManager.original_player_idx := None |}.

(** A search node whose only untried move lays the last tile of the hand,
    red 7, at the end of red 4-5-6. *)
Definition winning_node : MCTSTree.TreeNode :=
  {| MCTSTree.tn_board_tiles := [[red 4; red 5; red 6]];
     MCTSTree.tn_player_tiles := [red 7];
     MCTSTree.tn_move := None;
     MCTSTree.tn_children := [];
     MCTSTree.tn_visits := 0;
     MCTSTree.tn_value := 0%Q;
     MCTSTree.untried_moves := [([[red 4; red 5; red 6; red 7]], [])] |}.


(** A strategy that never makes the hand list longer and never returns a
    hand longer than the hand list it leaves. *)
Definition hand_shrinking (AI_logic : AI_logic_t) : Prop :=
  forall board_tiles player_tiles,
    (length (AI_logic board_tiles player_tiles).1 <= length player_tiles)%nat
    /\ forall new_board new_hand,
         (AI_logic board_tiles player_tiles).2 = Ok (PairMove new_board new_hand) ->
         (length new_hand <= length (AI_logic board_tiles player_tiles).1)%nat.

(** What every turn of [ai_VS_ai] makes smaller: the tiles in the pool and
    in the hands, then the players not marked as done, then whether the
    player to move is marked. *)
Definition turn_measure (g : RummikubGameManager.GameManager) : nat :=
  (4 * (2 * length (RummikubGameManager.tile_pool g)
        + length (concat (RummikubGameManager.players_tiles g)))
   + 2 * length (List.filter negb (RummikubGameManager.is_done g))
   + match RummikubGameManager.is_done g !! RummikubGameManager.current_player_idx g with
     | Some true => 1
     | _ => 0
     end)%nat.

(** Tiles none of which has the colour the validators take for a joker. *)
Definition purple_free (tiles : list tile) : Prop :=
  Forall (fun t => color t <> "purple") tiles.

(** A two-player game between greedy players in which no tile is purple. *)
Definition greedy_match (g : RummikubGameManager.GameManager) : Prop :=
  length (RummikubGameManager.players g) = 2%nat
  /\ Forall (fun p => kind p = greedy) (RummikubGameManager.players g)
  /\ length (RummikubGameManager.players_tiles g) = 2%nat
  /\ length (RummikubGameManager.is_done g) = 2%nat
  /\ (RummikubGameManager.current_player_idx g < 2)%nat
  /\ purple_free (RummikubGameManager.tile_pool g)
  /\ purple_free (concat (RummikubGameManager.players_tiles g))
  /\ purple_free (concat (RummikubGameManager.board_tiles g)).

(** * Properties *)

#[local] Set Warnings "-clear-no-such-hyp".

(** ** Sizes of sets built from lists *)

Section SetSize.
Context `{Countable A}.

Lemma size_list_to_set_le_1 (l : list A) :
  (size (list_to_set l : gset A) <= 1)%nat <-> forall x y, x ∈ l -> y ∈ l -> x = y.
Proof.
  split.
  - intros Hsz x y Hx Hy.
    destruct (decide (x = y)) as [|Hne]; [done|].
    assert (Hsub : ({[x; y]} : gset A) ⊆ list_to_set l) by set_solver.
    apply subseteq_size in Hsub.
    rewrite size_union in Hsub by set_solver.
    rewrite !size_singleton in Hsub. lia.
  - intros Hall. destruct l as [|x l]; [rewrite list_to_set_nil, size_empty; lia|].
    assert (Hsub : (list_to_set (x :: l) : gset A) ⊆ {[x]}).
    { intros y Hy. apply elem_of_list_to_set in Hy.
      apply elem_of_singleton. symmetry. apply Hall; [left|done]. }
    apply subseteq_size in Hsub. by rewrite size_singleton in Hsub.
Qed.

Lemma size_list_to_set_length (l : list A) :
  (size (list_to_set l : gset A) <= length l)%nat.
Proof.
  induction l as [|x l IH]; [by rewrite list_to_set_nil, size_empty|].
  rewrite list_to_set_cons, size_union_alt, size_singleton. cbn [length].
  assert (Hsub : (list_to_set l ∖ {[x]} : gset A) ⊆ list_to_set l) by set_solver.
  apply subseteq_size in Hsub. lia.
Qed.

Lemma size_list_to_set_NoDup (l : list A) :
  size (list_to_set l : gset A) = length l <-> NoDup l.
Proof.
  induction l as [|x l IH]; [by rewrite list_to_set_nil, size_empty; split; [constructor|]|].
  rewrite list_to_set_cons, NoDup_cons. cbn [length].
  destruct (decide (x ∈ l)) as [Hin|Hnin].
  - assert (Heq : ({[x]} ∪ list_to_set l : gset A) = list_to_set l) by set_solver.
    rewrite Heq. split; [|tauto]. intros Hsz.
    pose proof (size_list_to_set_length l) as Hle. lia.
  - rewrite size_union by set_solver. rewrite size_singleton.
    split; [intros; split; [done|apply IH; lia]|intros [_ ?%IH]; lia].
Qed.

Lemma size_list_to_set_two (l : list A) (x y : A) :
  x ∈ l -> y ∈ l -> x <> y -> (2 <= size (list_to_set l : gset A))%nat.
Proof.
  intros Hx Hy Hne.
  destruct (decide (size (list_to_set l : gset A) <= 1)%nat) as [Hle|]; [|lia].
  destruct Hne. by apply (proj1 (size_list_to_set_le_1 l) Hle).
Qed.
End SetSize.

(** ** The meld validators *)

Section Validators.
Import RummikubAIHelper Spec.

Lemma joker_free_filter tiles :
  joker_free tiles -> List.filter (fun t => negb (is_purple t)) tiles = tiles.
Proof.
  induction 1 as [|t l [Hc _] _ IH]; [done|]. cbn. unfold is_purple at 1.
  rewrite bool_decide_eq_false_2 by done. cbn. by rewrite IH.
Qed.

Lemma joker_free_jokers tiles : joker_free tiles -> jokers tiles = O.
Proof.
  unfold jokers. induction 1 as [|t l [Hc _] _ IH]; [done|]. cbn. unfold is_purple at 1.
  by rewrite bool_decide_eq_false_2.
Qed.

Lemma joker_free_numbers tiles :
  joker_free tiles -> length (numbers tiles) = length tiles.
Proof.
  unfold numbers. induction 1 as [|t l [_ Hn] _ IH]; [done|]. cbn.
  destruct (number t); [cbn; by rewrite IH|done].
Qed.

Lemma run_walk_no_jokers expected l :
  run_walk expected 0 l = true
  <-> (forall a, head l = Some a -> a = expected) /\ ascending_by_one l.
Proof.
  revert expected. induction l as [|n l IH]; intros expected; cbn.
  - split; [|done]. intros _. split; [done|]. intros i a b Ha. by destruct i.
  - case_bool_decide as Hn.
    + split; [done|]. intros [Hhd _]. destruct Hn. by apply Hhd.
    + subst n. rewrite IH. split.
      * intros [Hhd Hasc]. split; [by intros a [= <-]|].
        intros [|i] a b Ha Hb; cbn in *.
        -- injection Ha as <-. apply Hhd. by destruct l; simplify_eq.
        -- by apply (Hasc i).
      * intros [_ Hasc]. split.
        -- intros a Ha. apply (Hasc O expected a); [done|]. by destruct l; simplify_eq.
        -- intros i a b Ha Hb. by apply (Hasc (S i)).
Qed.

(** The group validator returns a boolean on every list of tiles. *)
Lemma is_valid_group_total tiles : exists b, is_valid_group tiles = Ok b.
Proof.
  unfold is_valid_group. case_bool_decide; [by eexists|].
  destruct (_ || _); by eexists.
Qed.

(** X3: The run validator raises exactly on three or more purple tiles that
    come without any number. *)
Lemma is_valid_run_raises tiles :
  raises (is_valid_run tiles)
  <-> (size (colors tiles) <= 1)%nat /\ numbers tiles = [] /\ (3 <= jokers tiles)%nat.
Proof.
  unfold is_valid_run. case_bool_decide as Hc; [cbn; lia|].
  case_bool_decide as Hn; [cbn; intuition; destruct (numbers tiles); cbn in *; lia|].
  destruct (numbers tiles) eqn:E; cbn in *; [intuition lia|by intuition].
Qed.

(** C1 (as amended): on a list without jokers [is_valid_run] returns a
    boolean, and it returns true exactly when the list has at least three
    tiles, all of one colour, whose values in the order given go up by one
    at every step. *)
Theorem is_valid_run_without_jokers tiles :
  joker_free tiles ->
  exists b, is_valid_run tiles = Ok b
            /\ (b = true <-> (3 <= length tiles)%nat
                             /\ (forall t t', t ∈ tiles -> t' ∈ tiles -> color t = color t')
                             /\ ascending_by_one (numbers tiles)).
Proof.
  intros Hfree. unfold is_valid_run.
  assert (Hcol : (size (colors tiles) <= 1)%nat
                 <-> forall t t', t ∈ tiles -> t' ∈ tiles -> color t = color t').
  { unfold colors. rewrite (joker_free_filter _ Hfree), size_list_to_set_le_1.
    split.
    - intros Hall t t' Ht Ht'. apply Hall; apply list_elem_of_fmap; eauto.
    - intros Hall x y [t [-> Ht]]%list_elem_of_fmap [t' [-> Ht']]%list_elem_of_fmap. eauto. }
  rewrite (joker_free_jokers _ Hfree).
  pose proof (joker_free_numbers _ Hfree) as Hlen.
  case_bool_decide as Hc.
  { eexists; split; [done|]. split; [done|]. intros (_ & Hsame & _). apply Hcol in Hsame. lia. }
  case_bool_decide as Hn.
  { eexists; split; [done|]. split; [done|]. lia. }
  destruct (numbers tiles) as [|e l] eqn:E; [cbn in *; lia|].
  eexists; split; [done|]. rewrite run_walk_no_jokers.
  split.
  - intros [_ Hasc]. split; [lia|]. split; [apply Hcol; lia|done].
  - intros (_ & _ & Hasc). split; [by intros a [= <-]|done].
Qed.

Lemma is_valid_run_without_jokers_witness :
  joker_free [red 5; red 6; red 7]
  /\ exists b, is_valid_run [red 5; red 6; red 7] = Ok b
               /\ (b = true <-> (3 <= length [red 5; red 6; red 7])%nat
                                /\ (forall t t', t ∈ [red 5; red 6; red 7] ->
                                                 t' ∈ [red 5; red 6; red 7] ->
                                                 color t = color t')
                                /\ ascending_by_one (numbers [red 5; red 6; red 7])).
Proof.
  assert (Hfree : joker_free [red 5; red 6; red 7]) by (repeat constructor; done).
  split; [exact Hfree|]. exact (is_valid_run_without_jokers _ Hfree).
Defined.

(** C1 (as stated) fails: red 7, 5, 6 are three tiles of one colour whose
    sorted values are consecutive, and the validator rejects them; red 5, 9
    with one joker leave a gap of three, and the validator accepts them. *)
Lemma is_valid_run_not_sorted_walk :
  ~ (is_valid_run [red 7; red 5; red 6] = Ok true
     <-> spec_is_valid_run [red 7; red 5; red 6] = true)
  /\ ~ (is_valid_run [red 5; red 9; purple_joker] = Ok true
        <-> spec_is_valid_run [red 5; red 9; purple_joker] = true).
Proof.
  split.
  - intros [_ Hback]. assert (Hrun : is_valid_run [red 7; red 5; red 6] = Ok false)
      by (vm_compute; reflexivity).
    rewrite Hrun in Hback. discriminate Hback. vm_compute; reflexivity.
  - intros [Hforth _].
    assert (Hspec : spec_is_valid_run [red 5; red 9; purple_joker] = false)
      by (vm_compute; reflexivity).
    rewrite Hspec in Hforth. discriminate Hforth. vm_compute; reflexivity.
Qed.

(** C2: a joker carries no number, and its [None] is counted among the
    numbers of the group, so a list that holds a numbered tile and a joker
    is never a valid group. *)
Theorem is_valid_group_rejects_joker tiles t t' :
  t ∈ tiles -> t' ∈ tiles -> number t = None -> number t' <> None ->
  is_valid_group tiles = Ok false.
Proof.
  intros Ht Ht' Hnone Hsome. unfold is_valid_group.
  case_bool_decide; [done|].
  assert (Hsz : (2 <= size (number_set tiles))%nat).
  { apply (size_list_to_set_two _ (number t) (number t')).
    - apply list_elem_of_fmap; eauto.
    - apply list_elem_of_fmap; eauto.
    - congruence. }
  rewrite (bool_decide_eq_true_2 (size (number_set tiles) <> 1%nat)) by lia.
  done.
Qed.

Lemma is_valid_group_rejects_joker_witness :
  spec_is_valid_group [red 5; blue 5; purple_joker] = true
  /\ is_valid_group [red 5; blue 5; purple_joker] = Ok false.
Proof.
  split; [vm_compute; reflexivity|].
  apply (is_valid_group_rejects_joker _ purple_joker (red 5)).
  - set_solver.
  - set_solver.
  - reflexivity.
  - discriminate.
Defined.

Lemma all_jokers_fields k :
  colors (replicate k purple_joker) = ∅
  /\ numbers (replicate k purple_joker) = []
  /\ jokers (replicate k purple_joker) = k.
Proof.
  unfold colors, numbers, jokers.
  induction k as [|k (IHc & IHn & IHj)]; [done|]. cbn.
  change (is_purple purple_joker) with true. cbn.
  repeat split; [exact IHc|exact IHn|by f_equal].
Qed.

(** C4: three or more jokers and nothing else make [is_valid_run] read the
    first element of an empty list of numbers. *)
Theorem is_valid_run_all_jokers_raises n :
  is_valid_run (replicate (3 + n) purple_joker) = Raise IndexError.
Proof.
  unfold is_valid_run.
  destruct (all_jokers_fields (3 + n)) as (-> & -> & ->).
  rewrite size_empty.
  rewrite bool_decide_eq_false_2 by lia.
  rewrite bool_decide_eq_false_2 by (cbn; lia). done.
Qed.

End Validators.

(** ** Sorting *)

Section SortFacts.
Context {A : Type} (le : A -> A -> bool).

Lemma insert_sorted_Permutation x l : insert_sorted le x l ≡ₚ x :: l.
Proof.
  induction l as [|y l IH]; cbn; [done|].
  destruct (le x y); [done|]. rewrite IH. apply perm_swap.
Qed.

Lemma stable_sort_Permutation l : stable_sort le l ≡ₚ l.
Proof.
  induction l as [|x l IH]; cbn; [done|].
  by rewrite insert_sorted_Permutation, IH.
Qed.

Hypothesis le_total : forall a b, le a b = true \/ le b a = true.

Lemma insert_sorted_Sorted x l :
  Sorted (fun a b => le a b = true) l ->
  Sorted (fun a b => le a b = true) (insert_sorted le x l).
Proof.
  induction 1 as [|y l Hs IH Hhd]; cbn; [by repeat constructor|].
  destruct (le x y) eqn:E.
  - constructor; [by constructor|by constructor].
  - constructor; [done|].
    destruct l as [|z l]; cbn.
    + constructor. by destruct (le_total x y) as [Hxy|Hyx]; [congruence|].
    + inversion Hhd; subst. destruct (le x z); constructor; [|done].
      by destruct (le_total x y) as [Hxy|Hyx]; [congruence|].
Qed.

Lemma stable_sort_Sorted l : Sorted (fun a b => le a b = true) (stable_sort le l).
Proof. induction l; cbn; [constructor|by apply insert_sorted_Sorted]. Qed.
End SortFacts.

Lemma Sorted_weaken {A} (R R' : A -> A -> Prop) l :
  (forall a b, R a b -> R' a b) -> Sorted R l -> Sorted R' l.
Proof.
  intros Himp. induction 1 as [|x l Hs IH Hhd]; constructor; [done|].
  destruct Hhd; constructor; auto.
Qed.

Lemma sort_Z_Sorted l : Sorted Z.le (sort_Z l).
Proof.
  unfold sort_Z.
  apply (Sorted_weaken (fun a b => Z.leb a b = true)).
  - intros a b Hab. by apply Z.leb_le.
  - apply stable_sort_Sorted. intros a b. rewrite !Z.leb_le. lia.
Qed.

Lemma sort_Z_Permutation l : sort_Z l ≡ₚ l.
Proof. apply stable_sort_Permutation. Qed.

Lemma sort_Z_unique sorted l : Sorted Z.le sorted -> sorted ≡ₚ l -> sort_Z l = sorted.
Proof.
  intros Hs Hp. apply (Sorted_unique Z.le); [apply sort_Z_Sorted|done|].
  by rewrite sort_Z_Permutation, Hp.
Qed.

(** ** The joker valuator *)

Section JokerValue.
Import RummikubAIHelper Spec.

Lemma all_equal_size (l : list Z) v :
  l <> [] -> Forall (eq v) l -> size (list_to_set l : gset Z) = 1%nat /\ head l = Some v.
Proof.
  intros Hne Hall. destruct l as [|x l]; [done|].
  inversion Hall; subst. split; [|done].
  assert (Heq : (list_to_set (x :: l) : gset Z) = {[x]}).
  { apply set_eq. intros y. rewrite elem_of_list_to_set, elem_of_singleton.
    split; [|intros ->; left].
    intros Hy. symmetry. by apply (proj1 (Forall_forall _ _) Hall). }
  by rewrite Heq, size_singleton.
Qed.

Lemma size_1_all_equal (l : list Z) :
  size (list_to_set l : gset Z) = 1%nat -> exists v, Forall (eq v) l.
Proof.
  intros Hsz. destruct (size_1_elem_of _ Hsz) as [v Hv].
  exists v. apply Forall_forall. intros y Hy.
  assert (Hin : y ∈ (list_to_set l : gset Z)) by by apply elem_of_list_to_set.
  rewrite Hv in Hin. by apply elem_of_singleton in Hin.
Qed.

Lemma first_gap_cons x y l :
  first_gap (x :: y :: l)
  = if bool_decide (y - x > 1) then Some (x + 1) else first_gap (y :: l).
Proof. done. Qed.

Lemma first_gap_earliest values i a b :
  earliest_gap values i a b -> first_gap values = Some (a + 1).
Proof.
  revert values. induction i as [|i IH]; intros values (Ha & Hb & Hgap & Hbefore).
  - destruct values as [|x [|y l]]; [done..|]. cbn in Ha, Hb. simplify_eq.
    rewrite first_gap_cons. by rewrite bool_decide_eq_true_2.
  - destruct values as [|x [|y l]]; [done..|]. cbn in Ha, Hb.
    rewrite first_gap_cons, bool_decide_eq_false_2.
    + apply IH. repeat split; [done..|].
      intros j a' b' Hj. apply (Hbefore (S j)). lia.
    + specialize (Hbefore O x y ltac:(lia) eq_refl eq_refl). lia.
Qed.

Lemma first_gap_none values : no_gap values -> first_gap values = None.
Proof.
  induction values as [|x [|y l] IH]; intros Hno; [done..|].
  rewrite first_gap_cons, bool_decide_eq_false_2.
  - apply IH. intros i a b. apply (Hno (S i)).
  - specialize (Hno O x y eq_refl eq_refl). lia.
Qed.

Lemma sorted_head_min sorted values lo :
  Sorted Z.le sorted -> sorted ≡ₚ values -> is_min lo values -> head sorted = Some lo.
Proof.
  intros Hs Hp [Hin Hmin]. rewrite <- Hp in Hin.
  destruct sorted as [|a l]; [by apply elem_of_nil in Hin|]. cbn. f_equal.
  apply Sorted_StronglySorted in Hs; [|apply _]. inversion Hs as [|? ? _ Hall]; subst.
  assert (Ha : lo <= a) by (apply Hmin; rewrite <- Hp; left).
  inversion Hin; subst; [done|].
  assert (a <= lo) by by apply (proj1 (Forall_forall _ _) Hall). lia.
Qed.

Lemma strongly_sorted_last l hi :
  StronglySorted Z.le l -> last l = Some hi -> forall x, x ∈ l -> x <= hi.
Proof.
  induction 1 as [|a l Hs IH Hall]; [done|].
  destruct l as [|b l].
  - intros [= <-] x ->%list_elem_of_singleton. lia.
  - change (last (a :: b :: l)) with (last (b :: l)). intros Hlast x Hx.
    inversion Hx; subst; [|by apply IH].
    assert (Hb : b <= hi) by (apply IH; [done|left]).
    inversion Hall; subst. lia.
Qed.

Lemma sorted_last_max sorted values hi :
  Sorted Z.le sorted -> sorted ≡ₚ values -> is_max hi values -> last sorted = Some hi.
Proof.
  intros Hs Hp [Hin Hmax]. rewrite <- Hp in Hin.
  destruct (last sorted) as [b|] eqn:E; [|apply last_None in E; subst; by apply elem_of_nil in Hin].
  f_equal. apply Sorted_StronglySorted in Hs; [|apply _].
  assert (Hb : b ∈ sorted) by (apply last_Some in E as [l' ->]; set_solver).
  assert (hi <= b) by by apply (strongly_sorted_last sorted).
  assert (b <= hi) by (apply Hmax; by rewrite <- Hp). lia.
Qed.

(** C5: in each of the four cases of the specification,
    [determine_joker_value] returns the value the specification names. *)
Theorem determine_joker_value_spec M v :
  joker_value M v -> determine_joker_value M = Ok v.
Proof.
  intros Hspec. unfold determine_joker_value.
  destruct Hspec as [Hlen|v Hlen Hne Hall|sorted i a b Hlen Hneq Hs Hp Hgap
                    |sorted t0 lo hi Hlen Hneq Hs Hp Hno Ht0 Hlo Hhi].
  - by rewrite bool_decide_eq_true_2.
  - rewrite bool_decide_eq_false_2 by done.
    destruct (all_equal_size _ _ Hne Hall) as [Hsz Hhd].
    rewrite bool_decide_eq_true_2 by done.
    by destruct (numbers M); simplify_eq/=.
  - rewrite bool_decide_eq_false_2 by done.
    rewrite bool_decide_eq_false_2 by (intros Hsz; by apply Hneq, size_1_all_equal).
    rewrite (sort_Z_unique _ _ Hs Hp).
    by rewrite (first_gap_earliest _ _ _ _ Hgap).
  - rewrite bool_decide_eq_false_2 by done.
    rewrite bool_decide_eq_false_2 by (intros Hsz; by apply Hneq, size_1_all_equal).
    rewrite (sort_Z_unique _ _ Hs Hp).
    rewrite (first_gap_none _ Hno).
    destruct M as [|t M]; simplify_eq/=.
    pose proof (sorted_head_min _ _ _ Hs Hp Hlo) as Hhead.
    pose proof (sorted_last_max _ _ _ Hs Hp Hhi) as Hlast.
    destruct (is_joker t0).
    + by destruct sorted; simplify_eq/=.
    + by rewrite Hlast.
Qed.

(** The four cases at work: a lone joker; a group of sevens; red 3, 4, 7
    with the gap after 4; red 5, 6 with the joker at the low end and at the
    high end. *)
Lemma determine_joker_value_spec_witness :
  determine_joker_value [joker_tile] = Ok 0
  /\ determine_joker_value [red 7; joker_tile; blue 7] = Ok 7
  /\ determine_joker_value [red 7; red 3; joker_tile; red 4] = Ok (4 + 1)
  /\ determine_joker_value [joker_tile; red 6; red 5] = Ok (5 - 1)
  /\ determine_joker_value [red 6; red 5; joker_tile] = Ok (6 + 1).
Proof.
  assert (Hneq : forall x y l, x <> y -> ~ exists v : Z, Forall (eq v) (x :: y :: l)).
  { intros x y l Hxy [v Hv]. inversion Hv as [|? ? ? Hv']; subst.
    inversion Hv'; subst. done. }
  assert (Hmin : is_min 5 [6; 5]).
  { split; [set_solver|]. intros x Hx.
    assert (x = 6 \/ x = 5) as [-> | ->] by set_solver; lia. }
  assert (Hmax : is_max 6 [6; 5]).
  { split; [set_solver|]. intros x Hx.
    assert (x = 6 \/ x = 5) as [-> | ->] by set_solver; lia. }
  split; [|split; [|split; [|split]]].
  - apply determine_joker_value_spec. by apply single_tile.
  - apply determine_joker_value_spec.
    apply group_context; [done|done|by repeat constructor].
  - apply determine_joker_value_spec.
    apply (run_gap _ [3; 4; 7] 1 4 7); [done|by apply Hneq| |by apply (bool_decide_unpack _)|].
    + repeat constructor; lia.
    + split; [done|split; [done|split; [lia|]]].
      intros [|[|j]] a' b' Hj; [|lia..].
      intros [= <-] [= <-]. lia.
  - apply determine_joker_value_spec.
    apply (run_end _ [5; 6] joker_tile 5 6);
      [done|by apply Hneq| |by apply (bool_decide_unpack _)| |done|apply Hmin|apply Hmax].
    + repeat constructor; lia.
    + intros [|[|j]] a' b'; [intros [= <-] [= <-]; lia|done..].
  - apply determine_joker_value_spec.
    apply (run_end _ [5; 6] (red 6) 5 6);
      [done|by apply Hneq| |by apply (bool_decide_unpack _)| |done|apply Hmin|apply Hmax].
    + repeat constructor; lia.
    + intros [|[|j]] a' b'; [intros [= <-] [= <-]; lia|done..].
Defined.

(** Outside the four cases: with no tile at all, or with several tiles none
    of which has a value, there is no value to go by, and the valuator
    raises. *)
Lemma determine_joker_value_no_values :
  determine_joker_value [] = Raise IndexError
  /\ determine_joker_value [joker_tile; joker_tile] = Raise IndexError.
Proof. split; reflexivity. Qed.

End JokerValue.

(** ** Applying a move *)

Section ApplyMove.
Import RummikubPlayer.

(** C10: a move in the shape of a pair is handed on as it is; nothing
    compares its melds with the hand, and nothing is raised. *)
Theorem get_move_pair_unchecked (AI_logic : AI_logic_t) board_tiles player_tiles
        player_tiles' new_board new_hand :
  AI_logic board_tiles player_tiles = (player_tiles', Ok (PairMove new_board new_hand)) ->
  get_move AI_logic board_tiles player_tiles
  = {| board_after := board_tiles; hand_after := player_tiles';
       returned := Ok (true, new_board, new_hand) |}.
Proof. intros Hlogic. unfold get_move. by rewrite Hlogic. Qed.

Lemma get_move_pair_unchecked_witness :
  (red 1 ∉ [blue 9])
  /\ get_move conjuring_logic [] [blue 9]
     = {| board_after := []; hand_after := [blue 9];
          returned := Ok (true, [[red 1; red 2; red 3]], []) |}.
Proof.
  split; [by apply (bool_decide_unpack _)|].
  by apply get_move_pair_unchecked.
Defined.

(** The list branch of [get_move] does check the tile, but it has appended
    the move to the board before it raises. *)
Lemma get_move_single_raises_late :
  get_move (fun _ h => (h, Ok (SingleMove (red 1)))) [] [blue 9]
  = {| board_after := [[red 1]]; hand_after := [blue 9]; returned := Raise ValueError |}.
Proof. reflexivity. Qed.

End ApplyMove.

(** ** Tile conservation *)

Section Conservation.
Import RummikubPlayer RummikubGameManager.

Lemma dealing_shuffle_Permutation : dealing_shuffle tiles_in_order ≡ₚ tiles_in_order.
Proof. apply (bool_decide_unpack _). vm_compute. exact I. Qed.

(** Dealing moves tiles from the pool to the hands: whatever the shuffle, a
    new game counts 106 tiles. *)
Lemma length_concat_insert (hs : list hand) i h t :
  hs !! i = Some h ->
  length (concat (<[i := h ++ [t]]> hs)) = S (length (concat hs)).
Proof.
  revert i. induction hs as [|h0 hs IH]; intros [|i] Hi; simplify_eq/=.
  - rewrite !length_app. cbn. lia.
  - specialize (IH i Hi). rewrite !length_app. unfold hand in *. lia.
Qed.

Lemma draw_tile_count g g' : draw_tile g = Ok g' -> tile_count g' = tile_count g.
Proof.
  unfold draw_tile, index, assign.
  destruct (last (tile_pool g)) as [t|] eqn:Hlast; [|by intros [= <-]].
  cbn. destruct (players_tiles g !! current_player_idx g) as [h|] eqn:Hh; [|done]. cbn.
  case_bool_decide; [|done]. intros [= <-]. unfold tile_count. cbn.
  rewrite (length_concat_insert _ _ _ _ Hh).
  apply last_Some in Hlast as [l' ->]. rewrite removelast_last, length_app. cbn. lia.
Qed.

Lemma draw_tiles_count n g g' : draw_tiles n g = Ok g' -> tile_count g' = tile_count g.
Proof.
  revert g. induction n as [|n IH]; intros g; cbn; [by intros [= <-]|].
  destruct (draw_tile g) as [g1|] eqn:E; [|done]. cbn. intros Hrest.
  by rewrite (IH _ Hrest), (draw_tile_count _ _ E).
Qed.

Lemma new_game_count shuffle inputs g :
  shuffle tiles_in_order ≡ₚ tiles_in_order ->
  new_game shuffle inputs = Ok g -> tile_count g = 106%nat.
Proof.
  intros Hperm. unfold new_game, deal_initial_tiles.
  set (g0 := {| players := [] |}).
  destruct (draw_tiles 14 g0) as [g1|] eqn:E1; [|done]. cbn [mbind result_bind].
  destruct (draw_tiles 14 (next_player g1)) as [g2|] eqn:E2; [|done]. cbn [mbind result_bind].
  intros [= <-].
  change (tile_count (init_players inputs (next_player g2))) with (tile_count g2).
  rewrite (draw_tiles_count _ _ _ E2).
  change (tile_count (next_player g1)) with (tile_count g1).
  rewrite (draw_tiles_count _ _ _ E1).
  unfold tile_count, g0, create_tile_pool.
  cbn [tile_pool players_tiles board_tiles].
  by rewrite (Permutation_length Hperm).
Qed.

(** C3: a game whose shuffle deals the first player [two_meld_hand] starts
    with 106 tiles and counts 109 after that player's first turn, whatever
    the two strategies are: both melds of the initial meld go to the board,
    and only the first leaves the hand. *)
Theorem initial_meld_duplicates_tiles (random_logic : AI_logic_t) (mcts_logic : MCTS_logic_t) k0 k1 :
  dealing_shuffle tiles_in_order ≡ₚ tiles_in_order
  /\ exists g0 g1,
       new_game dealing_shuffle [k0; k1] = Ok g0
       /\ tile_count g0 = 106%nat
       /\ turn random_logic mcts_logic g0 = Ok g1
       /\ tile_count g1 = 109%nat
       /\ board_tiles g1 = [[red 7; red 8; red 9]; [blue 1; blue 2; blue 3]]
       /\ (forall t, t ∈ [blue 1; blue 2; blue 3] ->
                     exists h, players_tiles g1 !! 0%nat = Some h /\ t ∈ h).
Proof.
  split; [apply dealing_shuffle_Permutation|].
  destruct k0; eexists _, _;
    (split; [vm_compute; reflexivity|]);
    (split; [vm_compute; reflexivity|]);
    (split; [vm_compute; reflexivity|]);
    (split; [vm_compute; reflexivity|]);
    (split; [vm_compute; reflexivity|]);
    (intros t Ht; eexists; split; [vm_compute; reflexivity|]);
    (assert (t = blue 1 \/ t = blue 2 \/ t = blue 3) as [-> | [-> | ->]] by set_solver);
    by apply (bool_decide_unpack _).
Qed.

(** The greedy strategy, past its initial meld, keeps one meld of the board
    it has built and drops the others: with red 10-13 on the board and
    green 1-2-3 in hand it leaves red 10-13 alone on the board and the hand
    empty. *)
Lemma greedy_move_loses_tiles :
  RummikubGreedyAI.AI_logic [[red 10; red 11; red 12; red 13]] [green 1; green 2; green 3]
  = ([green 1; green 2; green 3],
     Ok (PairMove [[red 10; red 11; red 12; red 13]] [])).
Proof. vm_compute. reflexivity. Qed.

End Conservation.

(** ** Rollouts *)

Section Rollouts.
Import RummikubPlayer RummikubGameManager RummikubMCTSAI.
Variable random_logic : AI_logic_t.
Variable mcts_logic : MCTS_logic_t.

Lemma play_turn_kind AI_logic self board_tiles player_tiles :
  kind (play_turn AI_logic self board_tiles player_tiles).1 = kind self.
Proof.
  unfold play_turn. case_bool_decide; [done|].
  destruct (negb _); [|done].
  destruct (RummikubAIHelper.find_tiles_for_30_points _) as [[[|m l]|]|]; try done.
  by destruct (remove_each _ _).
Qed.

Lemma draw_tile_fixed g g' : draw_tile g = Ok g' -> fixed_by_turn g g'.
Proof.
  unfold draw_tile, index, assign. destruct (last _); [|by intros [= <-]].
  cbn. destruct (_ !! _); [|done]. cbn.
  case_bool_decide; [|done]. by intros [= <-].
Qed.

Lemma draw_or_done_fixed g g' : draw_or_done g = Ok g' -> fixed_by_turn g g'.
Proof.
  unfold draw_or_done. destruct (negb _); [apply draw_tile_fixed|].
  unfold assign. case_bool_decide; [|done]. by intros [= <-].
Qed.

(** The iteration of a player that is no tree-search player: the strategy
    works on the two lists only. *)
Lemma turn_plain_seat g player player_tiles :
  players g !! current_player_idx g = Some player ->
  players_tiles g !! current_player_idx g = Some player_tiles ->
  kind player <> mcts ->
  turn random_logic mcts_logic g
  = (let idx := current_player_idx g in
     let '(player', o) :=
       play_turn (AI_logic_of random_logic mcts_logic g (kind player)) player
                 (board_tiles g) player_tiles in
     let g := set_players (<[idx := player']> (players g)) g in
     let g := set_board_tiles (board_after o) g in
     let g := set_players_tiles (<[idx := hand_after o]> (players_tiles g)) g in
     m ← returned o;
     g ← match m with
         | None => draw_or_done g
         | Some m =>
             if bool_decide (length m.2 = length (hand_after o)) then draw_or_done g
             else apply_move m g
         end;
     Ok (next_player (_check_all_players_done g))).
Proof.
  intros Hp Hh Hkind. unfold turn, index. rewrite Hp, Hh. cbn [mbind result_bind].
  rewrite (bool_decide_eq_false_2 (kind player = mcts)) by done. cbn [andb].
  destruct (play_turn _ _ _ _) as [player' o]. cbv zeta.
  destruct (returned o) as [[m|]|]; [|done..]. cbn [mbind result_bind].
  cbn [players_tiles set_players_tiles current_player_idx set_board_tiles set_players].
  rewrite list_lookup_insert_eq by (by eapply lookup_lt_Some). done.
Qed.

Lemma no_tree_search_seat g player :
  no_tree_search g -> players g !! current_player_idx g = Some player -> kind player <> mcts.
Proof.
  intros Hno Hp Hk. apply Hno. rewrite <- Hk.
  apply list_elem_of_fmap_2. by eapply list_elem_of_lookup_2.
Qed.

Lemma turn_fixed g g' :
  no_tree_search g -> turn random_logic mcts_logic g = Ok g' -> fixed_by_turn g g'.
Proof.
  intros Hno.
  destruct (players g !! current_player_idx g) as [player|] eqn:Hp;
    [|by unfold turn, index; rewrite Hp].
  destruct (players_tiles g !! current_player_idx g) as [player_tiles|] eqn:Hh;
    [|by unfold turn, index; rewrite Hp, Hh].
  rewrite (turn_plain_seat g player player_tiles Hp Hh (no_tree_search_seat _ _ Hno Hp)).
  cbv zeta.
  pose proof (play_turn_kind (AI_logic_of random_logic mcts_logic g (kind player)) player
                             (board_tiles g) player_tiles) as Hkind.
  destruct (play_turn _ _ _ _) as [player' o]. cbn in Hkind.
  destruct (returned o) as [m|]; [|done]. cbn.
  set (g1 := set_players_tiles _ _).
  assert (Hg1 : fixed_by_turn g g1).
  { split; [|done]. cbn. rewrite list_fmap_insert, Hkind.
    apply list_insert_id. by rewrite list_lookup_fmap, Hp. }
  assert (Hstep : forall g2, fixed_by_turn g1 g2 ->
                             fixed_by_turn g (next_player (_check_all_players_done g2))).
  { intros g2 [Hk Ho]. destruct Hg1 as [Hk1 Ho1]. unfold _check_all_players_done.
    destruct (forallb _ _); split; cbn; congruence. }
  destruct m as [m|].
  - case_bool_decide.
    + destruct (draw_or_done g1) as [g2|] eqn:E; [|done]. cbn. intros [= <-].
      by apply Hstep, draw_or_done_fixed.
    + unfold apply_move, assign. cbn. case_bool_decide; [|done]. cbn. intros [= <-].
      by apply Hstep.
  - destruct (draw_or_done g1) as [g2|] eqn:E; [|done]. cbn. intros [= <-].
    by apply Hstep, draw_or_done_fixed.
Qed.

Lemma fixed_by_turn_no_tree_search g g' :
  fixed_by_turn g g' -> no_tree_search g -> no_tree_search g'.
Proof. intros [Hk _]. unfold no_tree_search. by rewrite Hk. Qed.

Lemma ai_VS_ai_fixed fuel g g' :
  no_tree_search g ->
  ai_VS_ai random_logic mcts_logic fuel g = Some (Ok g') -> fixed_by_turn g g'.
Proof.
  revert g. induction fuel as [|fuel IH]; intros g Hno; cbn.
  - destruct (game_over g); [by intros [= <-]|done].
  - destruct (game_over g); [by intros [= <-]|].
    destruct (turn _ _ g) as [g1|] eqn:E; [|done].
    intros Hrest. pose proof (turn_fixed _ _ Hno E) as Hfixed.
    destruct (IH _ (fixed_by_turn_no_tree_search _ _ Hfixed Hno) Hrest) as [Hk' Ho'].
    destruct Hfixed as [Hk Ho]. split; congruence.
Qed.

Lemma run_simulations_fixed fuel self n wins g w g' :
  no_tree_search g ->
  run_simulations random_logic mcts_logic fuel self n wins g = Some (Ok (w, g')) ->
  fixed_by_turn g g'.
Proof.
  revert wins g. induction n as [|n IH]; intros wins g Hno; cbn.
  - by intros [= _ <-].
  - unfold get_winner.
    destruct (ai_VS_ai _ _ fuel g) as [[g1|]|] eqn:E; [|done..].
    pose proof (ai_VS_ai_fixed _ _ _ Hno E) as Hfixed.
    pose proof (fixed_by_turn_no_tree_search _ _ Hfixed Hno) as Hno1.
    destruct Hfixed as [Hk Ho].
    destruct (RummikubGameManager.get_winner g1) as [winner|]; [|done]. cbn.
    assert (Hrec : forall q, run_simulations random_logic mcts_logic fuel self n q g1
                             = Some (Ok (w, g')) -> fixed_by_turn g g').
    { intros q Hq. destruct (IH _ _ Hno1 Hq). split; congruence. }
    case_bool_decide.
    + destruct (if bool_decide (0 <= winner) then _ else _); [|done]. cbn. apply Hrec.
    + case_bool_decide; apply Hrec.
Qed.

Lemma Simulator_init_rewires node_board node_hand g simulator g1 :
  Simulator_init node_board node_hand g = Ok (simulator, g1) ->
  map kind (players g1) = [greedy; random]
  /\ original_player_idx g1 = Some (current_player_idx g)
  /\ current_player_idx g1 = ((current_player_idx g + 1) mod 2)%nat
  /\ board_tiles g1 = node_board.
Proof.
  unfold Simulator_init, prepare_simulator, assign.
  case_bool_decide; [|done]. by intros [= <- <-].
Qed.

(** C9: a rollout that returns leaves the game manager it was given with
    the greedy and the random strategy as its players, and with the index of
    the player to move stored in it. *)
Theorem rollout_rewires_game_manager fuel node_board node_hand g w g' :
  rollout random_logic mcts_logic fuel node_board node_hand 0 g = Some (Ok (w, g')) ->
  map kind (players g') = [greedy; random]
  /\ original_player_idx g' = Some (current_player_idx g).
Proof.
  unfold rollout. rewrite bool_decide_eq_false_2 by (unfold MAX_ROLLOUT_DEPTH; lia).
  destruct (Simulator_init node_board node_hand g) as [[simulator g1]|] eqn:Hinit; [|done].
  destruct (Simulator_init_rewires _ _ _ _ _ Hinit) as (Hk & Ho & _).
  intros Hsim.
  assert (Hno : no_tree_search g1).
  { unfold no_tree_search. rewrite Hk. intros Hin.
    apply elem_of_cons in Hin as [?|Hin]; [done|].
    apply elem_of_cons in Hin as [?|Hin]; [done|]. by apply elem_of_nil in Hin. }
  destruct (run_simulations_fixed _ _ _ _ _ _ _ Hno Hsim) as [Hk' Ho'].
  split; congruence.
Qed.

End Rollouts.

(** The rollout of the root node of [closing_game] ends the game it was
    meant to look ahead of. *)
Lemma rollout_rewires_game_manager_witness :
  exists w g',
    RummikubMCTSAI.rollout fruitless_logic idle_search 2
      [[red 4; red 5; red 6]] [red 1] 0 closing_game = Some (Ok (w, g'))
    /\ RummikubGameManager.game_over g' = true
    /\ RummikubGameManager.current_player_idx g' = 1%nat
    /\ map kind (RummikubGameManager.players g') = [greedy; random]
    /\ RummikubGameManager.original_player_idx g' = Some 0%nat.
Proof.
  eexists _, _.
  assert (Hrun : RummikubMCTSAI.rollout fruitless_logic idle_search 2
                   [[red 4; red 5; red 6]] [red 1] 0 closing_game
                 = Some (Ok (0%Q,
                     {| RummikubGameManager.players :=
                          [{| kind := greedy; has_made_initial_meld := true |};
                           {| kind := random; has_made_initial_meld := true |}];
                        RummikubGameManager.tile_pool := [];
                        RummikubGameManager.players_tiles := [[red 1]; [blue 9]];
                        RummikubGameManager.is_done := [true; true];
                        RummikubGameManager.board_tiles := [[red 4; red 5; red 6]];
                        RummikubGameManager.current_player_idx := 1;
                        RummikubGameManager.game_over := true;
                        RummikubGameManager.original_player_idx := Some 0%nat |})))
    by (vm_compute; reflexivity).
  split; [exact Hrun|]. split; [done|]. split; [done|].
  exact (rollout_rewires_game_manager _ _ _ _ _ _ _ _ Hrun).
Defined.

(** ** The final choice of the tree search *)

Section FinalChoice.
Import RummikubMCTSAI.
#[local] Open Scope R_scope.










End FinalChoice.

(** ** The greedy strategy *)

Section Greedy.
Import RummikubAIHelper RummikubPlayer RummikubGreedyAI Spec.

Lemma lex_le_refl p : lex_le p p.
Proof. right. lia. Qed.

Lemma lex_le_trans p q r : lex_le p q -> lex_le q r -> lex_le p r.
Proof. unfold lex_le. lia. Qed.

Lemma consider_invariant seen b m group :
  search_invariant seen b -> search_invariant (seen ++ [(m, group)]) (consider m b group).
Proof.
  unfold search_invariant, consider, lex_le, length_and_sum.
  intros Hinv. destruct (best_move b) as [m0|] eqn:Hb.
  - destruct Hinv as (Hin & [= Hlen Hsum] & Hmax).
    destruct (_ || _) eqn:Hcmp; cbn -[group_sum].
    + split; [set_solver|]. split; [done|].
      intros mg [Hmg| ->%list_elem_of_singleton]%elem_of_app; cbn -[group_sum]; [|lia].
      specialize (Hmax mg Hmg). cbn -[group_sum] in Hmax.
      apply orb_true_iff in Hcmp as [Hgt|[Heq Hgt]%andb_true_iff];
        repeat match goal with H : bool_decide _ = true |- _ => apply bool_decide_eq_true in H end;
        lia.
    + rewrite Hb. split; [set_solver|]. split; [by rewrite Hlen, Hsum|].
      intros mg [Hmg| ->%list_elem_of_singleton]%elem_of_app; cbn -[group_sum]; [by apply Hmax|].
      apply orb_false_iff in Hcmp as [Hgt [Heq|Hgt']%andb_false_iff];
        repeat match goal with H : bool_decide _ = false |- _ => apply bool_decide_eq_false in H end;
        lia.
  - destruct Hinv as (-> & Hlen & Hsum). rewrite Hlen.
    rewrite (bool_decide_eq_true_2 (Z.of_nat (length group) > -1)) by lia. cbn -[group_sum].
    split; [set_solver|]. split; [done|].
    intros mg ->%list_elem_of_singleton. cbn -[group_sum]. lia.
Qed.

Lemma melds_of_moves_cons m moves :
  melds_of_moves (m :: moves) = map (fun group => (m, group)) m.1 ++ melds_of_moves moves.
Proof. done. Qed.

Lemma consider_fold m0 groups b seen :
  search_invariant seen b ->
  search_invariant (seen ++ map (fun group => (m0, group)) groups)
                   (fold_left (consider m0) groups b).
Proof.
  revert b seen. induction groups as [|group groups IH]; intros b seen Hinv.
  - cbn [map fold_left]. by rewrite app_nil_r.
  - cbn [map fold_left]. rewrite (cons_middle _ seen), app_assoc.
    apply IH. by apply consider_invariant.
Qed.

Lemma search_fold moves b seen :
  search_invariant seen b ->
  search_invariant (seen ++ melds_of_moves moves)
                   (fold_left (fun b m => fold_left (consider m) m.1 b) moves b).
Proof.
  revert b seen. induction moves as [|m moves IH]; intros b seen Hinv.
  - change (melds_of_moves []) with (@nil (move * meld)). by rewrite app_nil_r.
  - rewrite melds_of_moves_cons, app_assoc. cbn [fold_left].
    apply IH. by apply consider_fold.
Qed.

Lemma search_invariant_final moves : search_invariant (melds_of_moves moves) (search moves).
Proof. apply (search_fold moves _ []). cbn. done. Qed.

Lemma elem_of_melds_of_moves moves m group :
  (m, group) ∈ melds_of_moves moves <-> m ∈ moves /\ group ∈ m.1.
Proof.
  unfold melds_of_moves. rewrite list_elem_of_bind. split.
  - intros (m' & Hin & Hm'). apply list_elem_of_fmap in Hin as (g & [= -> ->] & Hg). done.
  - intros [Hm Hg]. exists m. split; [|done]. apply list_elem_of_fmap. by exists group.
Qed.

(** Every move the generator builds has a meld on its board. *)
Lemma foldM_invariant {A S} (P : S -> Prop) (f : S -> A -> result S) l :
  (forall s x s', P s -> f s x = Ok s' -> P s') ->
  forall s s', P s -> foldM f l s = Ok s' -> P s'.
Proof.
  intros Hstep. induction l as [|x l IH]; intros s s' Hs; cbn.
  - by intros [= <-].
  - destruct (f s x) as [s1|] eqn:E; [|done]. cbn. apply IH. by eapply Hstep.
Qed.

Lemma try_insert_nonempty board_tiles player_tiles i t st new_group st' :
  Forall (fun m : move => m.1 <> []) st.1 ->
  try_insert board_tiles player_tiles i t st new_group = Ok st' ->
  Forall (fun m : move => m.1 <> []) st'.1.
Proof.
  destruct st as [possible visited]. unfold try_insert. intros Hst.
  destruct (group_or_run new_group) as [[|]|]; cbn; [|by intros [= <-]|done].
  case_bool_decide; intros [= <-]; [done|]. cbn in *.
  apply Forall_app. split; [done|]. constructor; [|done]. cbn.
  by destruct (take _ _).
Qed.

Lemma get_all_moves_from_board_nonempty board_tiles player_tiles moves :
  get_all_moves_from_board board_tiles player_tiles = Ok moves ->
  Forall (fun m : move => m.1 <> []) moves.
Proof.
  unfold get_all_moves_from_board.
  destruct (foldM _ _ _) as [final|] eqn:E; [|done]. cbn. intros [= <-].
  set (P := fun st : list move * list move => Forall (fun m : move => m.1 <> []) st.1).
  refine (foldM_invariant P _ _ _ _ _ _ E); [|by constructor].
  intros st ig st'. apply (foldM_invariant P).
  intros st1 t st1'. apply (foldM_invariant P).
  intros st2 new_group st2'. apply try_insert_nonempty.
Qed.

Lemma get_all_moves_nonempty board_tiles player_tiles moves :
  get_all_moves board_tiles player_tiles = Ok moves ->
  Forall (fun m : move => m.1 <> []) moves.
Proof.
  unfold get_all_moves.
  destruct (get_all_moves_from_board _ _) as [board_moves|] eqn:E; [|done]. cbn.
  intros [= <-]. apply Forall_app. split; [by eapply get_all_moves_from_board_nonempty|].
  apply Forall_forall. intros m [g [-> _]]%list_elem_of_fmap. cbn. by destruct board_tiles.
Qed.

(** C7 (as amended): when there are candidate moves, the greedy strategy
    returns a meld of one of them, together with the hand that move leaves,
    and no meld of any candidate move has a lexicographically larger pair of
    length and sum of the non-joker values. *)
Theorem greedy_selects_longest_then_largest board_tiles player_tiles moves :
  get_all_moves board_tiles player_tiles = Ok moves ->
  moves <> [] ->
  exists m group,
    AI_logic board_tiles player_tiles = (player_tiles, Ok (PairMove [group] m.2))
    /\ m ∈ moves /\ group ∈ m.1
    /\ forall m' group', m' ∈ moves -> group' ∈ m'.1 ->
                         lex_le (length_and_sum group') (length_and_sum group).
Proof.
  intros Hmoves Hne. unfold AI_logic. rewrite Hmoves. cbn.
  rewrite bool_decide_eq_false_2 by (by destruct moves).
  pose proof (search_invariant_final moves) as Hinv. unfold search_invariant in Hinv.
  destruct (best_move (search moves)) as [m|].
  - destruct Hinv as (Hin & _ & Hmax). apply elem_of_melds_of_moves in Hin as [Hm Hg].
    exists m, (longest_group (search moves)). repeat split; [done..|].
    intros m' group' Hm' Hg'. apply (Hmax (m', group')). by apply elem_of_melds_of_moves.
  - destruct Hinv as (Hnil & _). exfalso.
    destruct moves as [|m moves]; [done|].
    pose proof (get_all_moves_nonempty _ _ _ Hmoves) as Hall.
    inversion Hall as [|? ? Hm _]; subst.
    destruct (m.1) as [|g gs] eqn:Hm1; [done|].
    assert (Hin : (m, g) ∈ melds_of_moves (m :: moves)).
    { apply elem_of_melds_of_moves. split; [left|]. rewrite Hm1. left. }
    rewrite Hnil in Hin. by apply elem_of_nil in Hin.
Qed.

(** The hand of the specification on an empty board: the red run of four is
    chosen over the group of fives. *)
Lemma greedy_selects_longest_then_largest_witness :
  AI_logic [] [red 5; red 6; red 7; red 8; blue 5; green 5]
  = ([red 5; red 6; red 7; red 8; blue 5; green 5],
     Ok (PairMove [[red 5; red 6; red 7; red 8]] [blue 5; green 5]))
  /\ exists m group,
       AI_logic [] [red 5; red 6; red 7; red 8; blue 5; green 5]
       = ([red 5; red 6; red 7; red 8; blue 5; green 5], Ok (PairMove [group] m.2))
       /\ m ∈ [([[red 5; red 6; red 7; red 8]], [blue 5; green 5]);
               ([[red 5; blue 5; green 5]], [red 6; red 7; red 8])]
       /\ group ∈ m.1
       /\ forall m' group',
            m' ∈ [([[red 5; red 6; red 7; red 8]], [blue 5; green 5]);
                  ([[red 5; blue 5; green 5]], [red 6; red 7; red 8])] ->
            group' ∈ m'.1 ->
            lex_le (length_and_sum group') (length_and_sum group).
Proof.
  split; [vm_compute; reflexivity|].
  apply greedy_selects_longest_then_largest; [vm_compute; reflexivity|done].
Defined.

(** C7 (as stated) fails: of two melds of three tiles, red 10-11 with a
    joker is worth 33 points with the joker resolved and blue 9-10-11 is
    worth 30; the greedy strategy sums 21 for the first and picks the
    second. *)
Lemma greedy_does_not_resolve_jokers :
  let with_joker := [red 10; red 11; joker_tile] in
  let plain := [blue 9; blue 10; blue 11] in
  get_all_moves [with_joker; plain] [green 1; green 2; green 3]
  = Ok [([with_joker; plain; [green 1; green 2; green 3]], [])]
  /\ length with_joker = length plain
  /\ calculate_points with_joker = Ok 33
  /\ calculate_points plain = Ok 30
  /\ AI_logic [with_joker; plain] [green 1; green 2; green 3]
     = ([green 1; green 2; green 3], Ok (PairMove [plain] [])).
Proof. cbv zeta. repeat split; vm_compute; reflexivity. Qed.

End Greedy.

(** ** The melds of a hand *)

Section HandMelds.
Import RummikubAIHelper Spec.

Lemma combinations_sublist {A} k (l c : list A) :
  c ∈ combinations k l -> c `sublist_of` l /\ length c = k.
Proof.
  revert k c. induction l as [|x l IH]; intros [|k] c; cbn.
  - intros ->%list_elem_of_singleton. by split.
  - by intros ?%elem_of_nil.
  - intros ->%list_elem_of_singleton. split; [apply sublist_nil_l|done].
  - intros [(c' & -> & Hc')%list_elem_of_fmap|Hc]%elem_of_app.
    + destruct (IH _ _ Hc') as [Hsub Hlen]. split; [by constructor|by cbn; f_equal].
    + destruct (IH _ _ Hc) as [Hsub Hlen]. split; [by constructor|done].
Qed.

Lemma distinct_colors_NoDup (tiles : list tile) :
  distinct_colors tiles = length tiles -> NoDup tiles.
Proof.
  unfold distinct_colors. intros Hsz.
  apply (NoDup_fmap_1 color), size_list_to_set_NoDup. by rewrite length_fmap.
Qed.

Lemma filter_subseteq (f : tile -> bool) (l : list tile) : List.filter f l ⊆ l.
Proof. intros t Ht. apply list_elem_of_In, filter_In in Ht as [Ht _]. by apply list_elem_of_In. Qed.

Lemma filter_Forall (f : tile -> bool) (P : tile -> Prop) (l : list tile) :
  Forall P l -> Forall P (List.filter f l).
Proof.
  intros Hall. apply Forall_forall. intros t Ht%filter_subseteq.
  by apply (proj1 (Forall_forall _ _) Hall).
Qed.

Lemma find_valid_groups_sound tiles m :
  Forall numbered tiles -> m ∈ find_valid_groups tiles -> meld_of tiles m.
Proof.
  intros Hnum. unfold find_valid_groups. case_bool_decide as Hlen; [|by intros ?%elem_of_nil].
  intros [Hcombo|Hfull]%elem_of_app.
  - apply list_elem_of_In, filter_In in Hcombo as [Hin Hcol].
    apply list_elem_of_In, combinations_sublist in Hin as [Hsub Hlen3].
    apply bool_decide_eq_true in Hcol.
    split; [apply distinct_colors_NoDup; congruence|].
    split; [by apply sublist_subseteq|].
    split; [|lia]. apply Forall_forall. intros t Ht%(sublist_subseteq _ _ Hsub).
    by apply (proj1 (Forall_forall _ _) Hnum).
  - destruct (_ && _) eqn:E; [|by apply elem_of_nil in Hfull].
    apply list_elem_of_singleton in Hfull as ->.
    apply andb_true_iff in E as [Hl Hc]. apply bool_decide_eq_true in Hl, Hc.
    split; [apply distinct_colors_NoDup; congruence|]. split; [done|]. split; [done|lia].
Qed.

Lemma consecutive_above a b rest t :
  consecutive (a :: b :: rest) = true -> t ∈ b :: rest -> number_key a < number_key t.
Proof.
  revert a b. induction rest as [|c rest IH]; intros a b Hcons Ht.
  - apply list_elem_of_singleton in Ht as ->. cbn in Hcons.
    apply andb_true_iff in Hcons as [Hab _]. apply bool_decide_eq_true in Hab. lia.
  - change (consecutive (a :: b :: c :: rest))
      with (bool_decide (number_key b = number_key a + 1) && consecutive (b :: c :: rest))
      in Hcons.
    apply andb_true_iff in Hcons as [Hab Hrest]. apply bool_decide_eq_true in Hab.
    inversion Ht as [|? ? ? Ht']; subst; [lia|].
    specialize (IH b c Hrest Ht'). lia.
Qed.

Lemma consecutive_NoDup run : consecutive run = true -> NoDup run.
Proof.
  induction run as [|a [|b rest] IH]; intros Hcons; [constructor|by apply NoDup_singleton|].
  constructor.
  - intros Ha. pose proof (consecutive_above _ _ _ _ Hcons Ha). lia.
  - apply IH.
    change (consecutive (a :: b :: rest))
      with (bool_decide (number_key b = number_key a + 1) && consecutive (b :: rest))
      in Hcons.
    by apply andb_true_iff in Hcons as [_ Hrest].
Qed.

Lemma slice_subseteq {A} i j (l : list A) : slice i j l ⊆ l.
Proof.
  unfold slice. intros x Hx.
  apply (sublist_subseteq _ _ (sublist_take _ _)) in Hx.
  by apply (sublist_subseteq _ _ (sublist_drop _ _)) in Hx.
Qed.

Lemma runs_of_color_sound tiles m :
  Forall numbered tiles -> m ∈ runs_of_color tiles -> meld_of tiles m.
Proof.
  intros Hnum. unfold runs_of_color.
  intros (i & Hm & Hi)%list_elem_of_bind.
  apply list_elem_of_bind in Hm as (j & Hm & Hj).
  apply elem_of_seq in Hi, Hj.
  destruct (consecutive _) eqn:Hcons; [|by apply elem_of_nil in Hm].
  apply list_elem_of_singleton in Hm as ->.
  split; [by apply consecutive_NoDup|].
  split; [apply slice_subseteq|].
  split.
  - apply Forall_forall. intros t Ht%slice_subseteq.
    by apply (proj1 (Forall_forall _ _) Hnum).
  - unfold slice. rewrite length_take, length_drop. lia.
Qed.

Lemma sorted_by_number_numbered tiles :
  Forall numbered tiles ->
  sorted_by_number tiles
  = Ok (stable_sort (fun a b => bool_decide (number_key a <= number_key b)) tiles).
Proof.
  intros Hnum. unfold sorted_by_number.
  assert (Hnone : existsb (fun t => bool_decide (number t = None)) tiles = false).
  { apply not_true_is_false. intros (t & Ht & Hn)%existsb_exists.
    apply bool_decide_eq_true in Hn.
    by apply list_elem_of_In, (proj1 (Forall_forall _ _) Hnum) in Ht. }
  by rewrite Hnone, andb_false_r.
Qed.

Lemma mapM_result_Ok {A B} (f : A -> result B) (g : A -> B) l :
  (forall x, x ∈ l -> f x = Ok (g x)) -> mapM_result f l = Ok (map g l).
Proof.
  induction l as [|x l IH]; intros Hf; [done|]. cbn.
  rewrite (Hf x) by left. cbn. rewrite IH; [done|]. intros y Hy. apply Hf. by right.
Qed.

(** On numbered tiles the search for runs does not raise, and the runs it
    finds are melds of those tiles. *)
Lemma find_valid_runs_sound tiles :
  Forall numbered tiles ->
  exists runs, find_valid_runs tiles = Ok runs /\ Forall (meld_of tiles) runs.
Proof.
  intros Hnum. unfold find_valid_runs.
  set (sorted c := stable_sort (fun a b => bool_decide (number_key a <= number_key b))
                               (List.filter (fun t => bool_decide (color t = c)) tiles)).
  rewrite (mapM_result_Ok _ (fun c => runs_of_color (sorted c))).
  - eexists. split; [done|]. apply Forall_forall. intros m Hm.
    apply list_elem_of_In, in_concat in Hm as (runs & Hruns & Hm).
    apply in_map_iff in Hruns as (c & <- & _). apply list_elem_of_In in Hm.
    assert (Hs : Forall numbered (sorted c)).
    { unfold sorted. rewrite stable_sort_Permutation. by apply filter_Forall. }
    destruct (runs_of_color_sound _ _ Hs Hm) as (Hnd & Hsub & Hn & Hlen).
    split; [done|]. split; [|done].
    intros t Ht%Hsub. unfold sorted in Ht. rewrite stable_sort_Permutation in Ht.
    by apply filter_subseteq in Ht.
  - intros c _. rewrite sorted_by_number_numbered; [done|]. by apply filter_Forall.
Qed.

Lemma numbered_tiles_numbered player_tiles : Forall numbered (numbered_tiles player_tiles).
Proof.
  apply Forall_forall. intros t Ht. unfold numbered_tiles in Ht.
  apply list_elem_of_In, filter_In in Ht as [_ Ht]. by apply bool_decide_eq_true in Ht.
Qed.

(** [find_valid_sets] does not raise, and what it finds are melds of the
    hand. *)
Lemma find_valid_sets_sound player_tiles :
  exists valid_sets,
    find_valid_sets player_tiles = Ok valid_sets
    /\ Forall (meld_of player_tiles) valid_sets.
Proof.
  unfold find_valid_sets.
  pose proof (numbered_tiles_numbered player_tiles) as Hnum.
  destruct (find_valid_runs_sound _ Hnum) as (runs & -> & Hruns).
  cbn [mbind result_bind].
  eexists. split; [done|].
  assert (Hup : forall m, meld_of (numbered_tiles player_tiles) m -> meld_of player_tiles m).
  { intros m (Hnd & Hsub & Hn & Hlen). split; [done|]. split; [|done].
    intros t Ht%Hsub. by apply filter_subseteq in Ht. }
  apply Forall_app. split.
  - apply Forall_forall. intros m (n & Hm & _)%list_elem_of_bind.
    apply Hup. apply find_valid_groups_sound in Hm; [|by apply filter_Forall].
    destruct Hm as (Hnd & Hsub & Hn & Hlen). split; [done|]. split; [|done].
    intros t Ht%Hsub. by apply filter_subseteq in Ht.
  - eapply Forall_impl; [exact Hruns|]. exact Hup.
Qed.

End HandMelds.

(** ** The initial meld *)

Section InitialMeld.
Import RummikubAIHelper RummikubPlayer Spec.

Lemma numbers_numbered (m : meld) :
  Forall numbered m -> length (numbers m) = length m.
Proof.
  unfold numbers. induction 1 as [|t l Hn _ IH]; [done|]. cbn.
  unfold numbered in Hn. destruct (number t); [cbn; by rewrite IH|done].
Qed.

Lemma determine_joker_value_defined (m : meld) :
  m <> [] -> Forall numbered m -> exists v, determine_joker_value m = Ok v.
Proof.
  intros Hne Hnum. unfold determine_joker_value.
  case_bool_decide; [by eexists|].
  pose proof (numbers_numbered _ Hnum) as Hlen.
  case_bool_decide as Hsz.
  { destruct (numbers m); [|by eexists]. by rewrite list_to_set_nil, size_empty in Hsz. }
  destruct (first_gap _); [by eexists|].
  destruct m as [|t0 m]; [done|].
  pose proof (Permutation_length (sort_Z_Permutation (numbers (t0 :: m)))) as Hsort.
  destruct (is_joker t0).
  - destruct (sort_Z _); [cbn in *; lia|by eexists].
  - destruct (last (sort_Z _)) eqn:E; [by eexists|].
    apply last_None in E. rewrite E in Hsort. cbn in *. lia.
Qed.

Lemma sum_points_defined joker_value (m : meld) :
  Forall numbered m -> exists p, sum_points joker_value m = Ok p.
Proof.
  induction 1 as [|t l Hn _ [p IH]]; [by eexists|]. cbn. rewrite IH.
  destruct (is_joker t); [by eexists|].
  unfold numbered in Hn. destruct (number t); [by eexists|done].
Qed.

Lemma calculate_points_defined (m : meld) :
  m <> [] -> Forall numbered m -> calculate_points m = Ok (meld_points m).
Proof.
  intros Hne Hnum. unfold meld_points, calculate_points.
  destruct (determine_joker_value_defined _ Hne Hnum) as [v ->]. cbn.
  destruct (sum_points_defined v _ Hnum) as [p Hp]. cbn in Hp. by rewrite Hp.
Qed.

Lemma with_points_defined tiles valid_sets :
  Forall (meld_of tiles) valid_sets -> with_points valid_sets = Ok (keyed_sets valid_sets).
Proof.
  intros Hall. unfold with_points, keyed_sets. apply mapM_result_Ok.
  intros m Hm. apply (proj1 (Forall_forall _ _) Hall) in Hm as (_ & _ & Hnum & Hlen).
  rewrite calculate_points_defined; [done| |done]. intros ->. cbn in Hlen. lia.
Qed.

(** *** The packing takes pairwise disjoint melds *)

Lemma disjoint_melds_spec a b :
  disjoint_melds a b = true <-> forall t, t ∈ a -> t ∉ b.
Proof.
  unfold disjoint_melds. rewrite forallb_forall. split.
  - intros Hall t Ht%list_elem_of_In. by apply Hall, bool_decide_eq_true in Ht.
  - intros Hall t Ht%list_elem_of_In. by apply bool_decide_eq_true, Hall.
Qed.

Lemma disjoint_melds_sym a b : disjoint_melds a b = disjoint_melds b a.
Proof.
  apply eq_true_iff_eq. rewrite !disjoint_melds_spec. split; intros Hd t Ht Ht'; by apply (Hd t).
Qed.

Lemma pack_sets_chosen l used result_sets total :
  exists chosen,
    chosen `sublist_of` l
    /\ pack_sets l used result_sets total
       = (result_sets ++ map fst chosen, total + sum_snd chosen)
    /\ pairwise_disjoint (map fst chosen) = true
    /\ Forall (fun c => forall t, t ∈ c.1 -> t ∉ used) chosen.
Proof.
  revert used result_sets total.
  induction l as [|[tile_set points] l IH]; intros used result_sets total.
  - exists []. cbn. rewrite app_nil_r, Z.add_0_r. by repeat split.
  - cbn [pack_sets]. case_bool_decide.
    { exists []. cbn. rewrite app_nil_r, Z.add_0_r. repeat split; [|done].
      apply sublist_nil_l. }
    case_bool_decide as Hdisj.
    + destruct (IH (used ∪ list_to_set tile_set) (result_sets ++ [tile_set]) (total + points))
        as (chosen & Hsub & -> & Hpair & Hused).
      exists ((tile_set, points) :: chosen).
      split; [by constructor|]. split.
      { unfold sum_snd. cbn. rewrite <- app_assoc. f_equal. lia. }
      split.
      * cbn. rewrite Hpair, andb_true_r. apply forallb_forall.
        intros m (c & <- & Hc)%in_map_iff. apply disjoint_melds_spec.
        intros t Ht Ht'. apply list_elem_of_In in Hc.
        apply (proj1 (Forall_forall _ _) Hused c Hc t Ht'). set_solver.
      * constructor; [cbn; set_solver|].
        eapply Forall_impl; [exact Hused|]. cbn. intros c Hc t Ht. specialize (Hc t Ht).
        set_solver.
    + destruct (IH used result_sets total) as (chosen & Hsub & -> & Hpair & Hused).
      exists chosen. split; [by constructor|done].
Qed.

(** *** Points of pairwise disjoint melds stay below the worth of the hand *)

Lemma pairwise_disjoint_Permutation l l' :
  l ≡ₚ l' -> pairwise_disjoint l = pairwise_disjoint l'.
Proof.
  assert (Hall : forall m l l', l ≡ₚ l' ->
                                forallb (disjoint_melds m) l = forallb (disjoint_melds m) l').
  { intros m k k' Hp. apply eq_true_iff_eq. rewrite !forallb_forall.
    split; intros Hk x Hx; apply Hk; [by rewrite Hp|by rewrite <- Hp]. }
  induction 1 as [|x l l' Hp IH|x y l|l l' l'' _ IH1 _ IH2]; [done| | |congruence].
  - cbn. by rewrite IH, (Hall x _ _ Hp).
  - cbn. rewrite (disjoint_melds_sym y x).
    destruct (disjoint_melds x y), (forallb (disjoint_melds x) l),
      (forallb (disjoint_melds y) l); done.
Qed.

Lemma sum_snd_Permutation l l' : l ≡ₚ l' -> sum_snd l = sum_snd l'.
Proof.
  unfold sum_snd. induction 1 as [|x l l' _ IH|x y l|l l' l'' _ IH1 _ IH2]; cbn; lia.
Qed.

Lemma sum_snd_keyed l valid_sets :
  l `sublist_of` keyed_sets valid_sets -> sum_snd l = total_points (map fst l).
Proof.
  intros Hsub. unfold sum_snd, total_points.
  assert (Hall : Forall (fun c : meld * Z => c.2 = meld_points c.1) l).
  { apply Forall_forall. intros c Hc%(sublist_subseteq _ _ Hsub).
    by apply list_elem_of_fmap in Hc as (m & -> & _). }
  clear Hsub. induction Hall as [|c l Hc _ IH]; [done|]. cbn. by rewrite Hc, IH.
Qed.

End InitialMeld.

Section InitialMeldCheck.
Import RummikubAIHelper RummikubPlayer Spec.

Lemma list_remove_elem_of t l :
  t ∈ l -> exists l', list_remove t l = Some l' /\ forall x, x ∈ l -> x <> t -> x ∈ l'.
Proof.
  induction l as [|y l IH]; [by intros ?%elem_of_nil|].
  intros Ht. cbn. destruct (decide (t = y)) as [->|Hne].
  - exists l. split; [done|]. intros x Hx Hxy. by inversion Hx; subst.
  - inversion Ht; subst; [done|]. destruct (IH ltac:(done)) as (l' & -> & Hl').
    exists (y :: l'). split; [done|]. intros x Hx Hxt.
    inversion Hx; subst; [left|right; by apply Hl'].
Qed.



End InitialMeldCheck.

(** ** More on the meld validators and the points of a meld *)

Section MoreValidators.
Import RummikubAIHelper Spec.

Lemma size_list_to_set_1 `{Countable A} (l : list A) :
  size (list_to_set l : gset A) = 1%nat
  <-> l <> [] /\ forall x y, x ∈ l -> y ∈ l -> x = y.
Proof.
  split.
  - intros Hs. split.
    + intros ->. by rewrite list_to_set_nil, size_empty in Hs.
    + apply size_list_to_set_le_1. lia.
  - intros [Hne Heq].
    apply size_list_to_set_le_1 in Heq.
    destruct l as [|x l]; [done|].
    assert (size (list_to_set (x :: l) : gset A) <> 0%nat); [|lia].
    apply size_non_empty_iff. set_solver.
Qed.

Lemma non_purple_length tiles :
  length (List.filter (fun t => negb (is_purple t)) tiles)
  = (length tiles - jokers tiles)%nat.
Proof.
  unfold jokers. pose proof (List.filter_length is_purple tiles). lia.
Qed.

Lemma is_valid_group_true_iff tiles :
  is_valid_group tiles = Ok true
  <-> (3 <= length tiles)%nat
      /\ (forall t t', t ∈ tiles -> t' ∈ tiles -> number t = number t')
      /\ NoDup (map color (List.filter (fun t => negb (is_purple t)) tiles)).
Proof.
  unfold is_valid_group, number_set, colors.
  rewrite <- (size_list_to_set_NoDup (map color _)), length_map, non_purple_length.
  assert (Hnum : (3 <= length tiles)%nat ->
                 size (list_to_set (map number tiles) : gset (option Z)) = 1%nat
                 <-> forall t t', t ∈ tiles -> t' ∈ tiles -> number t = number t').
  { intros Hlen. rewrite size_list_to_set_1. split.
    - intros [_ Heq] t t' Ht Ht'. apply Heq; by apply list_elem_of_fmap_2.
    - intros Heq. split.
      + destruct tiles; [simpl in Hlen; lia|done].
      + intros x y [t [-> Ht]]%list_elem_of_fmap [t' [-> Ht']]%list_elem_of_fmap.
        by apply Heq. }
  case_bool_decide as Hlen; [split; [done|lia]|].
  assert (Hlen' : (3 <= length tiles)%nat) by lia.
  specialize (Hnum Hlen').
  repeat case_bool_decide; simpl; split; try done; try tauto; try (intros (_ & ? & ?); tauto).
Qed.


Lemma NoDup_map_filter {A B} (g : A -> B) (f : A -> bool) (l : list A) :
  NoDup (map g l) -> NoDup (map g (List.filter f l)).
Proof.
  induction l as [|x l IH]; simpl; [done|].
  intros [Hx Hl]%NoDup_cons. destruct (f x); simpl; [|by apply IH].
  apply NoDup_cons. split; [|by apply IH].
  intros [y [Hy Hin]]%list_elem_of_fmap. apply Hx.
  apply list_elem_of_fmap. exists y. split; [done|].
  apply list_elem_of_In, List.filter_In in Hin. apply list_elem_of_In, Hin.
Qed.

Lemma game_colors_filter tiles :
  Forall (fun t => color t ∈ game_colors) tiles ->
  List.filter (fun t => negb (is_purple t)) tiles = tiles.
Proof.
  induction 1 as [|t tiles Ht _ IH]; simpl; [done|].
  unfold is_purple at 1. case_bool_decide as Hp; simpl; [|by rewrite IH].
  rewrite Hp in Ht. set_solver.
Qed.

(** X1: [is_valid_group] accepts exactly the lists of three or more tiles that
    carry one and the same number entry and whose tiles of a colour other
    than purple have pairwise different colours. *)
Theorem is_valid_group_accepts tiles :
  is_valid_group tiles = Ok true
  <-> (3 <= length tiles)%nat
      /\ (forall t t', t ∈ tiles -> t' ∈ tiles -> number t = number t')
      /\ NoDup (map color (List.filter (fun t => negb (is_purple t)) tiles)).
Proof. apply is_valid_group_true_iff. Qed.

(** X2: A group that [is_valid_group] accepts and whose colours are among the
    four of the game has at most four tiles, although the length is never
    compared with 4. *)
Theorem is_valid_group_at_most_four tiles :
  Forall (fun t => color t ∈ game_colors) tiles ->
  is_valid_group tiles = Ok true ->
  (length tiles <= 4)%nat.
Proof.
  intros Hc (_ & _ & Hnd)%is_valid_group_true_iff.
  rewrite game_colors_filter in Hnd by done.
  assert (Hsub : map color tiles ⊆+ game_colors).
  { apply NoDup_submseteq; [done|].
    intros c [t [-> Ht]]%list_elem_of_fmap.
    by apply (proj1 (Forall_forall _ _) Hc). }
  apply submseteq_length in Hsub. rewrite length_map in Hsub. simpl in Hsub. lia.
Qed.

Lemma is_valid_group_at_most_four_witness :
  Forall (fun t => color t ∈ game_colors)
         [red 5; blue 5; green 5; yellow 5]
  /\ is_valid_group [red 5; blue 5; green 5; yellow 5] = Ok true
  /\ (length [red 5; blue 5; green 5; yellow 5] <= 4)%nat.
Proof.
  assert (Hc : Forall (fun t => color t ∈ game_colors)
                      [red 5; blue 5; green 5; yellow 5]).
  { repeat constructor; simpl; set_solver. }
  split; [exact Hc|]. split; [vm_compute; reflexivity|].
  apply (is_valid_group_at_most_four _ Hc). vm_compute. reflexivity.
Defined.

Lemma sum_points_numbers joker_value tiles :
  Forall (fun t => is_joker t = false /\ number t <> None) tiles ->
  sum_points joker_value tiles = Ok (fold_right Z.add 0 (numbers tiles)).
Proof.
  induction 1 as [|t tiles [Hj Hn] _ IH]; simpl; [done|].
  rewrite Hj. unfold numbers in *. simpl.
  destruct (number t) as [n|]; [|done]. simpl.
  rewrite IH. done.
Qed.

(** X4: On a meld without a tile flagged as a joker and with a number on every
    tile, [calculate_points] is the sum of the numbers; on the empty list it
    raises [IndexError], because the joker value is computed first. *)
Theorem calculate_points_without_jokers tiles :
  Forall (fun t => is_joker t = false /\ number t <> None) tiles ->
  calculate_points tiles
  = match tiles with
    | [] => Raise IndexError
    | _ => Ok (fold_right Z.add 0 (numbers tiles))
    end.
Proof.
  intros Hall. unfold calculate_points.
  destruct tiles as [|t tiles]; [done|].
  destruct (determine_joker_value_defined (t :: tiles)) as [v ->]; [done| |].
  - eapply Forall_impl; [exact Hall|]. by intros ? [_ ?].
  - cbn [mbind result_bind]. by apply sum_points_numbers.
Qed.

Lemma calculate_points_without_jokers_witness :
  Forall (fun t => is_joker t = false /\ number t <> None) [red 5; red 6; red 7]
  /\ calculate_points [red 5; red 6; red 7] = Ok 18.
Proof.
  assert (H : Forall (fun t => is_joker t = false /\ number t <> None)
                     [red 5; red 6; red 7]).
  { repeat constructor; done. }
  split; [exact H|]. exact (calculate_points_without_jokers _ H).
Defined.

End MoreValidators.

(** ** Grouping a hand *)

Section GroupingFacts.
Context {K : Type} `{EqDecision K} (key : tile -> K).

Lemma group_append_keys k t (d : list (K * list tile)) :
  (k ∈ map fst d -> map fst (group_append k t d) = map fst d)
  /\ (k ∉ map fst d -> map fst (group_append k t d) = map fst d ++ [k]).
Proof.
  induction d as [|[k' l] d [IH1 IH2]]; simpl.
  - split; [by intros ?%elem_of_nil|done].
  - destruct (decide (k = k')) as [->|Hne]; simpl.
    + split; [done|]. intros Hnot. exfalso. apply Hnot. by left.
    + split.
      * intros [?|Hin]%elem_of_cons; [done|]. by rewrite IH1.
      * intros Hnot. rewrite IH2; [done|]. intros Hin. apply Hnot. by right.
Qed.

Lemma group_append_elem_of k t (d : list (K * list tile)) k' l' :
  NoDup (map fst d) ->
  (k', l') ∈ group_append k t d
  <-> (k' = k /\ ((exists l, (k, l) ∈ d /\ l' = l ++ [t])
                  \/ ((k ∉ map fst d) /\ l' = [t])))
      \/ (k' <> k /\ (k', l') ∈ d).
Proof.
  induction d as [|[k0 l0] d IH]; simpl; intros Hnd.
  - rewrite list_elem_of_singleton. split.
    + intros [= -> ->]. left. split; [done|]. right. split; [apply not_elem_of_nil|done].
    + intros [[-> [[l [Hl _]]|[_ ->]]]|[_ Hin]]; [|done|].
      * by apply elem_of_nil in Hl.
      * by apply elem_of_nil in Hin.
  - apply NoDup_cons in Hnd as [Hk0 Hnd]. specialize (IH Hnd).
    assert (Hfst : forall l, (k0, l) ∈ d -> False).
    { intros l Hl. apply Hk0. apply list_elem_of_fmap. by exists (k0, l). }
    destruct (decide (k = k0)) as [->|Hne].
    + rewrite !elem_of_cons. split.
      * intros [Heq|Hin].
        -- injection Heq as -> ->. left. split; [done|]. left. exists l0. split; [by left|done].
        -- right. split; [|by right]. intros ->. by eapply Hfst.
      * intros [[-> [[l [Hl ->]]|[Hnot _]]]|[Hne Hin]].
        -- apply elem_of_cons in Hl as [Heq|Hl]; [injection Heq as ->; by left|].
           exfalso. by eapply Hfst.
        -- exfalso. apply Hnot. by left.
        -- destruct Hin as [Heq|Hin]; [by injection Heq as -> ->|by right].
    + rewrite !elem_of_cons, IH. split.
      * intros [Heq|[[-> [[l [Hl ->]]|[Hnot ->]]]|[Hne' Hin]]].
        -- injection Heq as -> ->. right. split; [done|by left].
        -- left. split; [done|]. left. exists l. split; [by right|done].
        -- left. split; [done|]. right. split; [|done].
           rewrite ?elem_of_cons. intros [?|?]; done.
        -- right. split; [done|by right].
      * intros [[-> [[l [Hl ->]]|[Hnot ->]]]|[Hne' Hin]].
        -- apply elem_of_cons in Hl as [Heq|Hl]; [by injection Heq as ->|].
           right. left. split; [done|]. left. by exists l.
        -- right. left. split; [done|]. right. split; [|done].
           intros Hin. apply Hnot. rewrite ?elem_of_cons. by right.
        -- destruct Hin as [Heq|Hin]; [left; by injection Heq as -> ->|].
           right. right. done.
Qed.

Lemma bucket_snoc k tiles t :
  bucket key k (tiles ++ [t]) = bucket key k tiles ++ (if bool_decide (key t = k) then [t] else []).
Proof. unfold bucket. rewrite List.filter_app. simpl. by case_bool_decide. Qed.

Lemma bucket_nonempty k tiles : bucket key k tiles <> [] <-> k ∈ map key tiles.
Proof.
  unfold bucket. induction tiles as [|t tiles IH]; simpl.
  - split; [done|]. by intros ?%elem_of_nil.
  - case_bool_decide as Hk.
    + split; [|done]. intros _. rewrite <- Hk. by left.
    + rewrite IH, elem_of_cons. split; [by right|]. by intros [->|?].
Qed.

Lemma grouped_snoc tiles t :
  grouped key (tiles ++ [t]) = group_append (key t) t (grouped key tiles).
Proof. unfold grouped. by rewrite fold_left_app. Qed.

Lemma grouped_buckets tiles :
  NoDup (map fst (grouped key tiles))
  /\ (forall k, k ∈ map fst (grouped key tiles) <-> k ∈ map key tiles)
  /\ forall k l, (k, l) ∈ grouped key tiles <-> l = bucket key k tiles /\ l <> [].
Proof.
  induction tiles as [|t tiles IH] using rev_ind.
  - split; [constructor|]. split; [done|]. intros k l. split.
    + by intros ?%elem_of_nil.
    + by intros [-> ?].
  - destruct IH as (Hnd & Hkeys & Hbuckets).
    rewrite grouped_snoc. split; [|split].
    + destruct (group_append_keys (key t) t (grouped key tiles)) as [H1 H2].
      destruct (decide (key t ∈ map fst (grouped key tiles))) as [Hin|Hnot].
      * by rewrite H1.
      * rewrite H2 by done.
        apply NoDup_app. split; [done|]. split; [|apply NoDup_singleton].
        intros k Hk ->%list_elem_of_singleton. done.
    + intros k. rewrite map_app. simpl.
      rewrite elem_of_app, list_elem_of_singleton.
      destruct (group_append_keys (key t) t (grouped key tiles)) as [H1 H2].
      destruct (decide (key t ∈ map fst (grouped key tiles))) as [Hin|Hnot].
      * rewrite H1, Hkeys by done. split; [by left|]. intros [?| ->]; [done|]. by apply Hkeys.
      * rewrite H2 by done. rewrite elem_of_app, list_elem_of_singleton, Hkeys. done.
    + intros k l. rewrite group_append_elem_of by done. rewrite bucket_snoc.
      split.
      * intros [[-> [[l0 [Hl0 ->]]|[Hnot ->]]]|[Hne Hin]].
        -- apply Hbuckets in Hl0 as [-> Hne].
           rewrite bool_decide_eq_true_2 by done. split; [done|].
           by destruct (bucket key (key t) tiles).
        -- rewrite bool_decide_eq_true_2 by done.
           rewrite Hkeys, <- bucket_nonempty in Hnot.
           destruct (bucket key (key t) tiles); [done|]. exfalso. by apply Hnot.
        -- apply Hbuckets in Hin as [-> Hl]. rewrite bool_decide_eq_false_2 by done.
           by rewrite app_nil_r.
      * intros [-> Hl]. destruct (decide (k = key t)) as [->|Hne].
        -- left. split; [done|]. rewrite bool_decide_eq_true_2 by done.
           destruct (decide (key t ∈ map fst (grouped key tiles))) as [Hin|Hnot].
           ++ left. exists (bucket key (key t) tiles). split; [|done].
              apply Hbuckets. split; [done|]. by apply bucket_nonempty, Hkeys.
           ++ right. split; [done|]. rewrite Hkeys, <- bucket_nonempty in Hnot.
              destruct (bucket key (key t) tiles); [done|]. exfalso. by apply Hnot.
        -- right. split; [done|].
           rewrite bool_decide_eq_false_2, app_nil_r in Hl |- * by done.
           by apply Hbuckets.
Qed.

End GroupingFacts.

Section Groupings.
Import RummikubAIHelper RummikubPlayer PotentialMelds.

(** X5: [group_tiles_by_number] and [group_tiles_by_color] file every tile under
    its own key and nowhere else: no key occurs twice, and the list under a
    key is the sublist of the input tiles with that key, in the order of the
    input, and never empty. *)
Theorem group_tiles_by_key tiles :
  (NoDup (map fst (group_tiles_by_number tiles))
   /\ forall n l, (n, l) ∈ group_tiles_by_number tiles
                  <-> l = bucket number n tiles /\ l <> [])
  /\ (NoDup (map fst (group_tiles_by_color tiles))
      /\ forall c l, (c, l) ∈ group_tiles_by_color tiles
                     <-> l = bucket color c tiles /\ l <> []).
Proof.
  split.
  - destruct (grouped_buckets number tiles) as (Hnd & _ & Hb). split; [exact Hnd|exact Hb].
  - destruct (grouped_buckets color tiles) as (Hnd & _ & Hb). split; [exact Hnd|exact Hb].
Qed.

Lemma bucket_elem_of {K} `{EqDecision K} (key : tile -> K) k tiles t :
  t ∈ bucket key k tiles <-> t ∈ tiles /\ key t = k.
Proof.
  unfold bucket. rewrite !list_elem_of_In, List.filter_In, bool_decide_eq_true. done.
Qed.

Lemma unique_tiles_spec tiles : forall unique_colors,
  unique_tiles unique_colors tiles ⊆ tiles
  /\ NoDup (map color (unique_tiles unique_colors tiles))
  /\ forall t, t ∈ unique_tiles unique_colors tiles -> color t ∉ unique_colors.
Proof.
  induction tiles as [|t tiles IH]; intros S; simpl.
  - split; [done|]. split; [constructor|]. by intros ? ?%elem_of_nil.
  - case_bool_decide as Hc.
    + destruct (IH (S ∪ {[color t]})) as (Hsub & Hnd & Hnot).
      split; [|split].
      * intros x [->|Hx]%elem_of_cons; [by left|]. right. by apply Hsub.
      * simpl. apply NoDup_cons. split; [|done].
        intros [t' [Heq Ht']]%list_elem_of_fmap.
        apply Hnot in Ht'. set_solver.
      * intros x [->|Hx]%elem_of_cons; [done|]. apply Hnot in Hx. set_solver.
    + destruct (IH S) as (Hsub & Hnd & Hnot).
      split; [|done]. intros x Hx. right. by apply Hsub.
Qed.

(** X6: Every group that [generate_groups] builds from a hand is accepted by
    [is_valid_group]; its tiles are tiles of the hand and have pairwise
    different colours. *)
Theorem generate_groups_valid player_tiles :
  Forall (fun g => is_valid_group g = Ok true
                   /\ g ⊆ player_tiles
                   /\ NoDup (map color g))
         (generate_groups (grouped_by_value player_tiles)).
Proof.
  apply Forall_forall. intros g [[k l] [Hg Hkl]]%list_elem_of_bind.
  apply (grouped_buckets number) in Hkl as [-> _]. simpl in Hg.
  destruct (unique_tiles_spec (bucket number k player_tiles) ∅) as (Hsub & Hnd & _).
  case_bool_decide as Hlen; [|by apply elem_of_nil in Hg].
  apply list_elem_of_singleton in Hg as ->.
  split; [|split; [|done]].
  - apply is_valid_group_true_iff. split; [done|]. split.
    + intros t t' Ht%Hsub Ht'%Hsub.
      apply bucket_elem_of in Ht as [_ ->]. by apply bucket_elem_of in Ht' as [_ ->].
    + by apply NoDup_map_filter.
  - intros t Ht%Hsub. by apply bucket_elem_of in Ht as [? _].
Qed.

End Groupings.

(** ** The runs of a hand *)

Section Runs.
Import RummikubAIHelper RummikubPlayer RummikubGameManager PotentialMelds Spec.

Lemma linked_snoc run t :
  linked run -> (forall prev, last run = Some prev -> step_ok prev t) -> linked (run ++ [t]).
Proof.
  induction run as [|a [|b rest] IH]; simpl; intros Hl Hlast.
  - done.
  - split; [by apply Hlast|done].
  - destruct Hl as [Hab Hl]. split; [done|]. apply IH; [done|].
    intros prev Hprev. apply Hlast. done.
Qed.

Lemma run_walk_linked tiles :
  Forall numbered tiles -> linked tiles ->
  forall e, head (numbers tiles) = Some e -> run_walk e 0 (numbers tiles) = true.
Proof.
  unfold numbers.
  induction tiles as [|a [|b rest] IH]; intros Hn Hl e He; [done| |].
  - apply Forall_cons in Hn as [Ha _]. unfold numbered in Ha.
    simpl in *. destruct (number a) as [p|]; [|done]. simpl in *.
    injection He as ->. by rewrite bool_decide_eq_false_2 by (intros ?; done).
  - apply Forall_cons in Hn as [Ha Hn]. destruct Hl as [Hab Hl].
    pose proof Hn as [Hb _]%Forall_cons.
    unfold numbered in Ha, Hb.
    specialize (IH Hn Hl).
    change (omap number (a :: b :: rest)) with
      (match number a with Some p => p :: omap number (b :: rest) | None => omap number (b :: rest) end) in *.
    destruct (number a) as [p|] eqn:Ea; [|done].
    simpl in He. injection He as ->.
    change (run_walk e 0 (e :: omap number (b :: rest)))
      with (if bool_decide (e <> e) then false else run_walk (e + 1) 0 (omap number (b :: rest))).
    rewrite bool_decide_eq_false_2 by (intros ?; done).
    apply IH. simpl. destruct (number b) as [n|] eqn:Eb; [|done].
    simpl. f_equal. by apply Hab.
Qed.

Lemma is_valid_run_accepts_linked tiles c :
  (3 <= length tiles)%nat -> c <> "purple" ->
  Forall (fun t => color t = c /\ number t <> None) tiles ->
  linked tiles ->
  is_valid_run tiles = Ok true.
Proof.
  intros Hlen Hc Hall Hl.
  assert (Hfree : joker_free tiles).
  { eapply Forall_impl; [exact Hall|]. intros t [-> ?]. done. }
  assert (Hnum : Forall numbered tiles).
  { eapply Forall_impl; [exact Hall|]. by intros t [_ ?]. }
  unfold is_valid_run.
  rewrite (joker_free_jokers _ Hfree).
  pose proof (joker_free_numbers _ Hfree) as Hlen'.
  rewrite bool_decide_eq_false_2.
  2:{ assert (size (colors tiles) <= 1)%nat; [|lia].
      unfold colors. rewrite (joker_free_filter _ Hfree). apply size_list_to_set_le_1.
      intros x y [t [-> Ht]]%list_elem_of_fmap [t' [-> Ht']]%list_elem_of_fmap.
      rewrite Forall_forall in Hall.
      destruct (Hall _ Ht) as [-> _]. by destruct (Hall _ Ht') as [-> _]. }
  rewrite bool_decide_eq_false_2 by lia.
  destruct (numbers tiles) as [|e l] eqn:E; [simpl in Hlen'; lia|].
  rewrite <- E. f_equal. apply run_walk_linked; [done|done|by rewrite E].
Qed.


(** What the run loop of [generate_runs] keeps: the runs it has closed are
    [P], the run it is building is linked and a sublist of the tiles seen. *)
Lemma run_step_invariant (P : meld -> Prop) seen runs run t :
  (forall r, (3 <= length r)%nat -> linked r -> r `sublist_of` seen -> P r) ->
  Forall P runs -> linked run -> run `sublist_of` seen ->
  Forall P (run_step (runs, run) t).1
  /\ linked (run_step (runs, run) t).2
  /\ (run_step (runs, run) t).2 `sublist_of` seen ++ [t].
Proof.
  intros HP Hruns Hl Hsub. unfold run_step.
  set (continues := match last run with
                    | Some prev => match number t, number prev with
                                   | Some n, Some p => bool_decide (n = p + 1)
                                   | _, _ => true
                                   end
                    | None => true
                    end).
  destruct continues eqn:Hcont; simpl.
  - split; [done|]. split.
    + apply linked_snoc; [done|]. intros prev Hprev n p Hn Hp.
      subst continues. rewrite Hprev, Hn, Hp in Hcont.
      by apply bool_decide_eq_true in Hcont.
    + by apply sublist_app.
  - split; [|split].
    + case_bool_decide; [|done]. apply Forall_app. split; [done|].
      apply Forall_singleton. by apply HP.
    + done.
    + apply sublist_inserts_l. done.
Qed.

Lemma run_fold_invariant (P : meld -> Prop) tiles : forall seen runs run,
  (forall r, (3 <= length r)%nat -> linked r -> r `sublist_of` seen ++ tiles -> P r) ->
  Forall P runs -> linked run -> run `sublist_of` seen ->
  Forall P (fold_left run_step tiles (runs, run)).1
  /\ linked (fold_left run_step tiles (runs, run)).2
  /\ (fold_left run_step tiles (runs, run)).2 `sublist_of` seen ++ tiles.
Proof.
  induction tiles as [|t tiles IH]; intros seen runs run HP Hruns Hl Hsub.
  - simpl. rewrite app_nil_r in *. done.
  - change (fold_left run_step (t :: tiles) (runs, run))
      with (fold_left run_step tiles (run_step (runs, run) t)).
    destruct (run_step_invariant P seen runs run t) as (H1 & H2 & H3); try done.
    { intros r ? ? Hr. apply HP; [done|done|]. by apply sublist_inserts_r. }
    destruct (run_step (runs, run) t) as [runs' run'].
    rewrite (cons_middle t seen tiles), app_assoc in HP |- *.
    by apply IH.
Qed.

Lemma runs_of_invariant (P : meld -> Prop) runs tiles :
  (forall r, (3 <= length r)%nat -> linked r -> r ⊆+ tiles -> P r) ->
  Forall P runs -> Forall P (runs_of runs tiles).
Proof.
  intros HP Hruns. unfold runs_of.
  set (sorted_tiles := stable_sort _ tiles).
  assert (Hperm : sorted_tiles ≡ₚ tiles) by apply stable_sort_Permutation.
  assert (HP' : forall r, (3 <= length r)%nat -> linked r ->
                          r `sublist_of` [] ++ sorted_tiles -> P r).
  { intros r ? ? Hr. apply HP; [done|done|]. rewrite <- Hperm. by apply sublist_submseteq. }
  destruct (run_fold_invariant P sorted_tiles [] runs [] HP' Hruns I (sublist_nil_l _))
    as (H1 & H2 & H3).
  destruct (fold_left run_step sorted_tiles (runs, [])) as [runs' run'].
  simpl in *. case_bool_decide; [|done].
  apply Forall_app. split; [done|]. apply Forall_singleton.
  apply HP; [done|done|]. rewrite <- Hperm. by apply sublist_submseteq.
Qed.

Lemma generate_runs_invariant (P : meld -> Prop) (d : list (string * list tile)) :
  (forall kv r, kv ∈ d -> (3 <= length r)%nat -> linked r -> r ⊆+ kv.2 -> P r) ->
  forall runs, Forall P runs ->
               Forall P (fold_left (fun runs kv => runs_of runs kv.2) d runs).
Proof.
  induction d as [|kv d IH]; intros HP runs Hruns; simpl; [done|].
  apply IH.
  - intros kv' r Hkv'. apply HP. by right.
  - apply runs_of_invariant; [|done]. intros r. apply HP. by left.
Qed.

Lemma filter_length_submseteq {A} (f : A -> bool) (l k : list A) :
  l ⊆+ k -> (length (List.filter f l) <= length (List.filter f k))%nat.
Proof.
  induction 1; simpl; repeat destruct (f _); simpl; lia.
Qed.

Lemma bucket_submseteq {K} `{EqDecision K} (key : tile -> K) k tiles :
  bucket key k tiles ⊆+ tiles.
Proof.
  unfold bucket. induction tiles as [|t tiles IH]; simpl; [done|].
  destruct (bool_decide _); [by apply submseteq_skip|by apply submseteq_cons].
Qed.

Lemma tiles_in_order_elem_of t :
  t ∈ tiles_in_order ->
  t = joker_tile
  \/ (color t ∈ game_colors /\ exists n, number t = Some n /\ 1 <= n <= 13).
Proof.
  unfold tiles_in_order. intros [Ht|Ht]%elem_of_app.
  - right. apply list_elem_of_bind in Ht as (c & Ht & Hc).
    apply list_elem_of_bind in Ht as (n & Ht & Hn).
    apply elem_of_seq in Hn.
    assert (t = Tile c (Some (Z.of_nat n)) false) as ->.
    { apply elem_of_cons in Ht as [->|Ht]; [done|]. by apply list_elem_of_singleton in Ht. }
    simpl. split; [done|]. exists (Z.of_nat n). split; [done|lia].
  - left. apply elem_of_cons in Ht as [->|Ht]; [done|]. by apply list_elem_of_singleton in Ht.
Qed.

(** X7: From a hand made of tiles of the pool, every run that [generate_runs]
    builds is accepted by [is_valid_run], and its tiles are tiles of the
    hand, each used as often as the hand holds it at most. *)
Theorem generate_runs_valid player_tiles :
  player_tiles ⊆+ tiles_in_order ->
  Forall (fun r => is_valid_run r = Ok true /\ r ⊆+ player_tiles)
         (generate_runs (grouped_by_color player_tiles)).
Proof.
  intros Hpool. unfold generate_runs.
  apply generate_runs_invariant; [|done].
  intros [c l] r Hkv Hlen Hl Hsub. simpl in Hsub.
  apply (grouped_buckets color) in Hkv as [-> _].
  split; [|by etrans; [exact Hsub|apply bucket_submseteq]].
  assert (Hr : forall t, t ∈ r -> t ∈ player_tiles /\ color t = c).
  { intros t Ht. apply bucket_elem_of. by eapply elem_of_submseteq. }
  destruct (decide (c = "joker")) as [->|Hc].
  - exfalso.
    pose proof (filter_length_submseteq
                  (fun t => bool_decide (color t = "joker")) _ _ Hpool) as Hj.
    apply submseteq_length in Hsub. unfold bucket in Hsub.
    change (length (List.filter (fun t => bool_decide (color t = "joker")) tiles_in_order))
      with 2%nat in Hj. lia.
  - apply (is_valid_run_accepts_linked _ c); [done| | |done].
    + intros ->. 
      destruct r as [|t r]; [simpl in Hlen; lia|].
      destruct (Hr t) as [Ht Hct]; [by left|].
      assert (Hin : t ∈ tiles_in_order) by (by eapply elem_of_submseteq).
      apply tiles_in_order_elem_of in Hin as [->|[Hcol _]]; [done|].
      rewrite Hct in Hcol. unfold game_colors in Hcol. set_solver.
    + apply Forall_forall. intros t Ht. destruct (Hr t Ht) as [Hin Hct].
      split; [done|].
      assert (Hin' : t ∈ tiles_in_order) by (by eapply elem_of_submseteq).
      apply tiles_in_order_elem_of in Hin' as [->|[_ [n [-> _]]]]; [done|done].
Qed.

Lemma generate_runs_valid_witness :
  [red 3; blue 9; red 1; red 2] ⊆+ tiles_in_order
  /\ Forall (fun r => is_valid_run r = Ok true /\ r ⊆+ [red 3; blue 9; red 1; red 2])
            (generate_runs (grouped_by_color [red 3; blue 9; red 1; red 2]))
  /\ generate_runs (grouped_by_color [red 3; blue 9; red 1; red 2])
     = [[red 1; red 2; red 3]].
Proof.
  assert (H : [red 3; blue 9; red 1; red 2] ⊆+ tiles_in_order).
  { apply (bool_decide_unpack _). vm_compute. exact I. }
  split; [exact H|]. split; [exact (generate_runs_valid _ H)|].
  vm_compute. reflexivity.
Defined.

End Runs.

(** ** The melds found in a hand pass the validators *)

Section HandMeldsValid.
Import RummikubAIHelper RummikubPlayer RummikubGameManager PotentialMelds Spec.

Lemma consecutive_linked run :
  Forall numbered run -> consecutive run = true -> linked run.
Proof.
  induction run as [|a [|b rest] IH]; intros Hn Hc; [done|done|].
  apply Forall_cons in Hn as [Ha Hn]. pose proof Hn as [Hb _]%Forall_cons.
  change (consecutive (a :: b :: rest))
    with (bool_decide (number_key b = number_key a + 1) && consecutive (b :: rest)) in Hc.
  apply andb_true_iff in Hc as [Hab Hc]. apply bool_decide_eq_true in Hab.
  split; [|by apply IH].
  intros n p Hnb Hpa. unfold number_key in Hab. by rewrite Hnb, Hpa in Hab.
Qed.

Lemma find_valid_groups_valid n tiles m :
  Forall (fun t => number t = Some n) tiles ->
  m ∈ find_valid_groups tiles -> is_valid_group m = Ok true.
Proof.
  intros Hnum. unfold find_valid_groups.
  assert (Hgood : forall c, c ⊆ tiles -> (3 <= length c)%nat ->
                            distinct_colors c = length c -> is_valid_group c = Ok true).
  { intros c Hsub Hlen Hd. apply is_valid_group_true_iff. split; [done|]. split.
    - rewrite Forall_forall in Hnum.
      intros t t' Ht%Hsub%Hnum Ht'%Hsub%Hnum. congruence.
    - apply NoDup_map_filter. apply size_list_to_set_NoDup.
      unfold distinct_colors in Hd. by rewrite length_map. }
  case_bool_decide as Hlen; [|by intros ?%elem_of_nil].
  intros [Hm|Hm]%elem_of_app.
  - apply list_elem_of_In, List.filter_In in Hm as [Hm Hd].
    apply list_elem_of_In, combinations_sublist in Hm as [Hsub Hl].
    apply bool_decide_eq_true in Hd.
    apply Hgood; [by apply sublist_subseteq|lia|lia].
  - destruct (bool_decide (length tiles = 4%nat)) eqn:H4; [|by apply elem_of_nil in Hm].
    destruct (bool_decide (distinct_colors tiles = 4%nat)) eqn:Hd; [|by apply elem_of_nil in Hm].
    simpl in Hm. apply list_elem_of_singleton in Hm as ->.
    apply bool_decide_eq_true in H4, Hd. apply Hgood; [done|lia|lia].
Qed.

Lemma slice_length {A} i j (l : list A) :
  (i <= j)%nat -> (j <= length l)%nat -> length (slice i j l) = (j - i)%nat.
Proof. intros. unfold slice. rewrite length_take, length_drop. lia. Qed.

Lemma runs_of_color_valid c tiles m :
  c <> "purple" ->
  Forall (fun t => color t = c /\ number t <> None) tiles ->
  m ∈ runs_of_color tiles -> is_valid_run m = Ok true.
Proof.
  intros Hc Hall. unfold runs_of_color.
  intros (i & Hm & Hi)%list_elem_of_bind.
  apply list_elem_of_bind in Hm as (j & Hm & Hj).
  apply elem_of_seq in Hi, Hj.
  destruct (consecutive _) eqn:Hcons; [|by apply elem_of_nil in Hm].
  apply list_elem_of_singleton in Hm as ->.
  assert (Hsub : slice i (j + 1) tiles ⊆ tiles) by apply slice_subseteq.
  assert (Hall' : Forall (fun t => color t = c /\ number t <> None) (slice i (j + 1) tiles)).
  { rewrite Forall_forall in Hall |- *. intros t Ht. by apply Hall, Hsub. }
  apply (is_valid_run_accepts_linked _ c); [|done|done|].
  - rewrite slice_length by lia. lia.
  - apply consecutive_linked; [|done].
    eapply Forall_impl; [exact Hall'|]. by intros t [_ ?].
Qed.


Lemma find_valid_runs_valid tiles runs :
  Forall numbered tiles ->
  find_valid_runs tiles = Ok runs -> Forall (fun m => is_valid_run m = Ok true) runs.
Proof.
  intros Hnum. unfold find_valid_runs.
  set (sorted c := stable_sort (fun a b => bool_decide (number_key a <= number_key b))
                               (List.filter (fun t => bool_decide (color t = c)) tiles)).
  rewrite (mapM_result_Ok _ (fun c => runs_of_color (sorted c))).
  2:{ intros c _. rewrite sorted_by_number_numbered; [done|]. by apply filter_Forall. }
  cbn [mbind result_bind]. intros [= <-].
  assert (Hone : forall c m, c <> "purple" -> m ∈ runs_of_color (sorted c) ->
                             is_valid_run m = Ok true).
  2:{ apply Forall_forall. intros m Hm. simpl in Hm.
      rewrite !elem_of_app in Hm.
      destruct Hm as [Hm|[Hm|[Hm|[Hm|Hm]]]];
        [eapply Hone; [|exact Hm]; done ..|by apply elem_of_nil in Hm]. }
  intros c m Hc Hm.
  apply (runs_of_color_valid c (sorted c)); [done| |done].
  - apply Forall_forall. intros t Ht. unfold sorted in Ht.
    rewrite stable_sort_Permutation in Ht.
    apply list_elem_of_In, List.filter_In in Ht as [Ht Hct].
    apply bool_decide_eq_true in Hct. split; [done|].
    rewrite Forall_forall in Hnum. by apply Hnum, list_elem_of_In.
Qed.

(** X8: [find_valid_sets] never raises, and every meld it finds in a hand is
    accepted by the validators ([is_valid_group] or [is_valid_run]), has no
    tile twice and takes its tiles from the hand. *)
Theorem find_valid_sets_valid player_tiles :
  exists valid_sets,
    find_valid_sets player_tiles = Ok valid_sets
    /\ Forall (fun m => group_or_run m = Ok true /\ NoDup m /\ m ⊆ player_tiles)
              valid_sets.
Proof.
  destruct (find_valid_sets_sound player_tiles) as (valid_sets & Hsets & Hmelds).
  exists valid_sets. split; [done|].
  unfold find_valid_sets in Hsets.
  pose proof (numbered_tiles_numbered player_tiles) as Hnum.
  destruct (find_valid_runs (numbered_tiles player_tiles)) as [runs|] eqn:Hruns; [|done].
  cbn [mbind result_bind] in Hsets. injection Hsets as <-.
  apply find_valid_runs_valid in Hruns; [|done].
  apply Forall_app in Hmelds as [Hg Hr].
  apply Forall_app. split.
  - apply Forall_forall. intros m Hm.
    rewrite Forall_forall in Hg. destruct (Hg m Hm) as (Hnd & Hsub & _ & _).
    split; [|done].
    apply list_elem_of_bind in Hm as (n & Hm & _).
    unfold group_or_run.
    assert (Hn : Forall (fun t => number t = Some (Z.of_nat n))
                        (List.filter (fun t => bool_decide (number t = Some (Z.of_nat n)))
                                     (numbered_tiles player_tiles))).
    { apply Forall_forall. intros t Ht.
      apply list_elem_of_In, List.filter_In in Ht as [_ Ht].
      by apply bool_decide_eq_true in Ht. }
    by rewrite (find_valid_groups_valid _ _ m Hn Hm).
  - apply Forall_forall. intros m Hm.
    rewrite Forall_forall in Hr, Hruns.
    destruct (Hr m Hm) as (Hnd & Hsub & _ & _). split; [|done].
    unfold group_or_run. destruct (is_valid_group_total m) as [[] ->]; [done|].
    cbn [mbind result_bind]. by apply Hruns.
Qed.

End HandMeldsValid.

(** ** The packing of the initial meld *)

Section Packing.
Import RummikubAIHelper RummikubPlayer RummikubGameManager PotentialMelds Spec.

Lemma pack_sets_stops l used result_sets total :
  exists chosen,
    chosen `sublist_of` l
    /\ pack_sets l used result_sets total
       = (result_sets ++ map fst chosen, total + sum_snd chosen)
    /\ (chosen = [] \/ total + sum_snd (removelast chosen) < 30).
Proof.
  revert used result_sets total.
  induction l as [|[tile_set points] l IH]; intros used result_sets total.
  - exists []. cbn. rewrite app_nil_r, Z.add_0_r. split; [done|]. split; [done|by left].
  - cbn [pack_sets]. case_bool_decide as Htotal.
    { exists []. cbn. rewrite app_nil_r, Z.add_0_r. split; [apply sublist_nil_l|].
      split; [done|by left]. }
    case_bool_decide as Hdisj.
    + destruct (IH (used ∪ list_to_set tile_set) (result_sets ++ [tile_set]) (total + points))
        as (chosen & Hsub & -> & Hstop).
      exists ((tile_set, points) :: chosen).
      split; [by constructor|]. split.
      { unfold sum_snd. cbn. rewrite <- app_assoc. f_equal. lia. }
      right. destruct Hstop as [->|Hstop].
      * unfold sum_snd. cbn. lia.
      * destruct chosen as [|c chosen]; [unfold sum_snd; cbn; lia|].
        change (removelast ((tile_set, points) :: c :: chosen))
          with ((tile_set, points) :: removelast (c :: chosen)).
        unfold sum_snd in *. cbn [map fold_right snd] in *. lia.
    + destruct (IH used result_sets total) as (chosen & Hsub & -> & Hstop).
      exists chosen. split; [by constructor|done].
Qed.

Lemma sum_snd_points (l : list (meld * Z)) :
  Forall (fun c => c.2 = meld_points c.1) l -> sum_snd l = total_points (map fst l).
Proof.
  unfold sum_snd, total_points.
  induction 1 as [|c l Hc _ IH]; [done|]. cbn. by rewrite Hc, IH.
Qed.

Lemma removelast_map {A B} (f : A -> B) (l : list A) :
  removelast (map f l) = map f (removelast l).
Proof.
  induction l as [|x [|y l] IH]; [done|done|].
  change (removelast (map f (x :: y :: l))) with (f x :: removelast (map f (y :: l))).
  by rewrite IH.
Qed.

Lemma Forall_removelast {A} (P : A -> Prop) (l : list A) :
  Forall P l -> Forall P (removelast l).
Proof.
  induction l as [|x [|y l] IH]; intros H; [done|constructor|].
  apply Forall_cons in H as [Hx H].
  change (removelast (x :: y :: l)) with (x :: removelast (y :: l)).
  constructor; [done|by apply IH].
Qed.

(** X9: [find_tiles_for_30_points] never raises.  The melds it returns are melds
    that [find_valid_sets] finds in the hand, no two of them share a tile,
    they are worth 30 points or more together, and without the last of
    them fewer than 30: the packing stops as soon as 30 is reached.  It
    returns [None] exactly when its packing collects fewer than 30 points. *)
Theorem find_tiles_for_30_points_sound player_tiles :
  exists valid_sets r,
    find_valid_sets player_tiles = Ok valid_sets
    /\ find_tiles_for_30_points player_tiles = Ok r
    /\ match r with
       | Some melds =>
           melds ⊆ valid_sets
           /\ pairwise_disjoint melds = true
           /\ 30 <= total_points melds
           /\ total_points (removelast melds) < 30
       | None => greedy_points player_tiles < 30
       end.
Proof.
  destruct (find_valid_sets_sound player_tiles) as (valid_sets & Hsets & Hmelds).
  exists valid_sets.
  unfold find_tiles_for_30_points, greedy_points.
  rewrite Hsets. cbn [mbind result_bind].
  rewrite (with_points_defined _ _ Hmelds). cbn [mbind result_bind].
  destruct (pack_sets_stops (sort_by_points (keyed_sets valid_sets)) ∅ [] 0)
    as (chosen & Hsub & Heq & Hstop).
  destruct (pack_sets_chosen (sort_by_points (keyed_sets valid_sets)) ∅ [] 0)
    as (chosen' & _ & Heq' & Hdisj & _).
  rewrite Heq in Heq'. injection Heq' as Hfst _. rewrite <- Hfst in Hdisj. clear chosen' Hfst.
  rewrite Heq. cbn [snd app].
  assert (Hin : forall c, c ∈ chosen -> c ∈ keyed_sets valid_sets).
  { intros c Hc%(sublist_subseteq _ _ Hsub). unfold sort_by_points in Hc.
    by rewrite stable_sort_Permutation in Hc. }
  assert (Hkeyed : Forall (fun c : meld * Z => c.2 = meld_points c.1) chosen).
  { apply Forall_forall. intros c Hc%Hin.
    by apply list_elem_of_fmap in Hc as (m & -> & _). }
  eexists. split; [done|]. split; [done|].
  case_bool_decide as Hreach; [|lia].
  split; [|split; [done|split]].
  - intros m (c & -> & Hc%Hin)%list_elem_of_fmap.
    by apply list_elem_of_fmap in Hc as (m & -> & ?).
  - rewrite <- sum_snd_points by done. lia.
  - rewrite removelast_map, <- sum_snd_points by (by apply Forall_removelast).
    destruct Hstop as [->|Hstop]; [unfold sum_snd in *; cbn in *; lia|lia].
Qed.

End Packing.

(** ** The moves onto the board *)

Section BoardMoves.
Import RummikubAIHelper RummikubPlayer.

Lemma foldM_covers {A S M} (P : S -> Prop) (R : S -> M -> Prop) (Hit : A -> M -> Prop)
      (f : S -> A -> result S) l :
  (forall s x s', x ∈ l -> P s -> f s x = Ok s' ->
                  P s' /\ (forall m, R s m -> R s' m) /\ (forall m, Hit x m -> R s' m)) ->
  forall s s', P s -> foldM f l s = Ok s' ->
               P s' /\ (forall m, R s m -> R s' m)
               /\ (forall x m, x ∈ l -> Hit x m -> R s' m).
Proof.
  induction l as [|x l IH]; intros Hstep s s' Hs Hfold; simpl in Hfold.
  - injection Hfold as <-. split; [done|]. split; [done|]. by intros ? ? ?%elem_of_nil.
  - destruct (f s x) as [s1|] eqn:Hf; [|done]. cbn [mbind result_bind] in Hfold.
    destruct (Hstep s x s1) as (Hs1 & Hmono1 & Hhit1); [by left|done|done|].
    destruct (IH (fun s x s' Hx => Hstep s x s' (proj2 (elem_of_cons _ _ _) (or_intror Hx))) s1 s' Hs1 Hfold)
      as (Hs' & Hmono & Hhit).
    split; [done|]. split; [by intros m ?%Hmono1%Hmono|].
    intros y m [->|Hy]%elem_of_cons Hm; [by apply Hmono, Hhit1|by eapply Hhit].
Qed.

Lemma foldM_raises {A S} (f : S -> A -> result S) l s e :
  foldM f l s = Raise e -> exists x s0, x ∈ l /\ f s0 x = Raise e.
Proof.
  revert s. induction l as [|x l IH]; intros s Hfold; simpl in Hfold; [done|].
  destruct (f s x) as [s1|e'] eqn:Hf.
  - cbn [mbind result_bind] in Hfold. destruct (IH s1 Hfold) as (y & s0 & Hy & Hr).
    exists y, s0. split; [by right|done].
  - injection Hfold as ->. exists x, s. split; [by left|done].
Qed.

(** What the triple loop of [get_all_moves_from_board] keeps of its state:
    no move twice, the visited signatures are the moves, every move extends
    the board. *)
Lemma try_insert_step (board_tiles : board) (player_tiles : hand) i (g : meld) t st
      (new_group : meld) st' :
  board_tiles !! i = Some g -> t ∈ player_tiles ->
  new_group = [t] ++ g \/ new_group = g ++ [t] ->
  (NoDup st.1 /\ (forall m, m ∈ st.2 <-> m ∈ st.1)
   /\ forall m, m ∈ st.1 -> extends_board board_tiles player_tiles m) ->
  try_insert board_tiles player_tiles i t st new_group = Ok st' ->
  (NoDup st'.1 /\ (forall m, m ∈ st'.2 <-> m ∈ st'.1)
   /\ forall m, m ∈ st'.1 -> extends_board board_tiles player_tiles m)
  /\ (forall m, m ∈ st.1 -> m ∈ st'.1)
  /\ (forall m, group_or_run new_group = Ok true
                /\ m = (<[i := new_group]> board_tiles,
                        List.filter (fun t' => bool_decide (t' <> t)) player_tiles) ->
                m ∈ st'.1).
Proof.
  intros Hg Ht Hnew (Hnd & Hvis & Hext). destruct st as [moves visited].
  unfold try_insert.
  destruct (group_or_run new_group) as [[]|] eqn:Hok; cbn [mbind result_bind]; [| |done].
  - assert (Hi : (i < length board_tiles)%nat) by (by eapply lookup_lt_Some).
    cbv zeta.
    change ([new_group] ++ drop (S i) board_tiles) with (new_group :: drop (S i) board_tiles).
    rewrite <- (insert_take_drop (A := meld) board_tiles i new_group Hi).
    set (m0 := (<[i := new_group]> board_tiles,
                List.filter (fun t' => bool_decide (t' <> t)) player_tiles)).
    simpl in *.
    case_bool_decide as Hseen; intros [= <-]; simpl.
    + split; [done|]. split; [done|]. intros m [_ ->]. by apply Hvis.
    + assert (Hm0 : m0 ∉ moves) by (by rewrite <- Hvis).
      split; [split; [|split]|split].
      * apply NoDup_app. split; [done|]. split; [|apply NoDup_singleton].
        intros m Hm ->%list_elem_of_singleton. done.
      * intros m. rewrite elem_of_cons, elem_of_app, list_elem_of_singleton, Hvis. tauto.
      * intros m [Hm|Hm]%elem_of_app; [by apply Hext|]. apply list_elem_of_singleton in Hm as ->.
        exists i, g, t, new_group. done.
      * intros m Hm. apply elem_of_app. by left.
      * intros m [_ ->]. apply elem_of_app. right. by apply list_elem_of_singleton.
  - intros [= <-]. split; [done|]. split; [done|]. by intros m [? _].
Qed.

Lemma get_all_moves_from_board_spec board_tiles player_tiles :
  match get_all_moves_from_board board_tiles player_tiles with
  | Ok moves =>
      NoDup moves /\ forall m, m ∈ moves <-> extends_board board_tiles player_tiles m
  | Raise e =>
      exists i g t new_group,
        board_tiles !! i = Some g /\ t ∈ player_tiles
        /\ (new_group = [t] ++ g \/ new_group = g ++ [t])
        /\ group_or_run new_group = Raise e
  end.
Proof.
  unfold get_all_moves_from_board.
  set (P := fun st : list move * list move =>
              NoDup st.1 /\ (forall m, m ∈ st.2 <-> m ∈ st.1)
              /\ forall m, m ∈ st.1 -> extends_board board_tiles player_tiles m).
  set (R := fun (st : list move * list move) (m : move) => m ∈ st.1).
  set (image := fun (i : nat) (t : tile) (new_group : meld) =>
                  (<[i := new_group]> board_tiles,
                   List.filter (fun t' => bool_decide (t' <> t)) player_tiles)).
  set (Hit3 := fun (i : nat) (t : tile) (new_group : meld) (m : move) =>
                 group_or_run new_group = Ok true /\ m = image i t new_group).
  set (Hit2 := fun (ig : nat * meld) (t : tile) (m : move) =>
                 exists new_group, new_group ∈ [[t] ++ ig.2; ig.2 ++ [t]]
                                   /\ Hit3 ig.1 t new_group m).
  set (Hit1 := fun (ig : nat * meld) (m : move) =>
                 exists t, t ∈ player_tiles /\ Hit2 ig t m).
  set (inner := fun (ig : nat * meld) (t : tile) st =>
                  foldM (try_insert board_tiles player_tiles ig.1 t)
                        [[t] ++ ig.2; ig.2 ++ [t]] st).
  set (middle := fun st (ig : nat * meld) =>
                   foldM (fun st t => inner ig t st) player_tiles st).
  assert (Hinner : forall ig t st st',
             board_tiles !! ig.1 = Some ig.2 -> t ∈ player_tiles ->
             P st -> inner ig t st = Ok st' ->
             P st' /\ (forall m, R st m -> R st' m) /\ (forall m, Hit2 ig t m -> R st' m)).
  { intros [i g] t st st' Hg Ht Hst Hfold. simpl in Hg.
    destruct (foldM_covers P R (Hit3 i t) (try_insert board_tiles player_tiles i t)
                           [[t] ++ g; g ++ [t]]) with (s := st) (s' := st')
      as (HP & Hmono & Hhit); [|done|done|].
    - intros s x s' Hx Hs Hstep.
      eapply (try_insert_step _ _ i g t s x s'); [done|done| |done|done].
      apply elem_of_cons in Hx as [->|Hx]; [by left|].
      apply list_elem_of_singleton in Hx as ->. by right.
    - split; [done|]. split; [done|]. intros m (new_group & Hnew & Hm). by eapply Hhit. }
  assert (Hmiddle : forall ig st st',
             board_tiles !! ig.1 = Some ig.2 -> P st -> middle st ig = Ok st' ->
             P st' /\ (forall m, R st m -> R st' m) /\ (forall m, Hit1 ig m -> R st' m)).
  { intros ig st st' Hg Hst Hfold.
    destruct (foldM_covers P R (Hit2 ig) (fun st t => inner ig t st) player_tiles)
      with (s := st) (s' := st') as (HP & Hmono & Hhit); [|done|done|].
    - intros s t s' Ht Hs Hstep. by eapply Hinner.
    - split; [done|]. split; [done|]. intros m (t & Ht & Hm). by eapply Hhit. }
  assert (Hlookup : forall ig, ig ∈ imap (fun i g => (i, g)) board_tiles ->
                               board_tiles !! ig.1 = Some ig.2).
  { intros ig (i & g & -> & Hg)%elem_of_lookup_imap. done. }
  change (foldM _ (imap (fun i g => (i, g)) board_tiles) ([], []))
    with (foldM middle (imap (fun i g => (i, g)) board_tiles) ([], [])).
  destruct (foldM middle _ _) as [st|e] eqn:Hfold; cbn [mbind result_bind].
  - destruct (foldM_covers P R Hit1 middle (imap (fun i g => (i, g)) board_tiles))
      with (s := ([] : list move, [] : list move)) (s' := st)
      as ((Hnd & _ & Hext) & _ & Hhit); [| |done|].
    + intros s ig s' Hig Hs Hstep. eapply Hmiddle; [by apply Hlookup|done|done].
    + split; [constructor|]. split; [done|]. by intros m ?%elem_of_nil.
    + split; [done|]. intros m. split; [apply Hext|].
      intros (i & g & t & new_group & Hg & Ht & Hnew & Hok & ->).
      apply (Hhit (i, g)).
      * by apply (elem_of_lookup_imap_2 (fun i g => (i, g))).
      * exists t. split; [done|]. exists new_group. split; [|done].
        destruct Hnew as [-> | ->]; [by left|]. right. by left.
  - apply foldM_raises in Hfold as (ig & s1 & Hig%Hlookup & Hfold).
    apply foldM_raises in Hfold as (t & s2 & Ht & Hfold).
    apply foldM_raises in Hfold as (new_group & s3 & Hnew & Hfold).
    exists ig.1, ig.2, t, new_group. split; [done|]. split; [done|]. split.
    + apply elem_of_cons in Hnew as [->|Hnew]; [by left|].
      apply list_elem_of_singleton in Hnew as ->. by right.
    + unfold try_insert in Hfold. destruct s3 as [moves visited].
      destruct (group_or_run new_group) as [[]|e'] eqn:Hok; cbn [mbind result_bind] in Hfold.
      * by case_bool_decide.
      * done.
      * by injection Hfold as ->.
Qed.

(** X10: [get_all_moves_from_board] returns, each once, exactly the moves that
    lay one tile of the hand at the front or at the back of a board meld and
    make a valid meld of it.  It raises only when the validators raise on
    one of these extended melds. *)
Theorem get_all_moves_from_board_exact board_tiles player_tiles :
  match get_all_moves_from_board board_tiles player_tiles with
  | Ok moves =>
      NoDup moves /\ forall m, m ∈ moves <-> extends_board board_tiles player_tiles m
  | Raise e =>
      exists i g t new_group,
        board_tiles !! i = Some g /\ t ∈ player_tiles
        /\ (new_group = [t] ++ g \/ new_group = g ++ [t])
        /\ group_or_run new_group = Raise e
  end.
Proof. apply get_all_moves_from_board_spec. Qed.

End BoardMoves.

(** ** What a move does to the tiles *)

Section Accounting.
Import RummikubAIHelper RummikubPlayer RummikubGreedyAI.

Lemma filter_length_Permutation {A} (f : A -> bool) (l k : list A) :
  l ≡ₚ k -> length (List.filter f l) = length (List.filter f k).
Proof. induction 1; simpl; repeat destruct (f _); simpl; lia. Qed.

Lemma filter_length_le {A} (f : A -> bool) (l : list A) :
  (length (List.filter f l) <= length l)%nat.
Proof. induction l; simpl; [done|]. destruct (f _); simpl; lia. Qed.

Lemma filter_all {A} (f : A -> bool) (l : list A) :
  (forall x, x ∈ l -> f x = true) -> List.filter f l = l.
Proof.
  induction l as [|x l IH]; intros H; simpl; [done|].
  rewrite H by (by left). f_equal. apply IH. intros y Hy. apply H. by right.
Qed.

Lemma filter_none {A} (f : A -> bool) (l : list A) :
  (forall x, x ∈ l -> f x = false) -> List.filter f l = [].
Proof.
  induction l as [|x l IH]; intros H; simpl; [done|].
  rewrite H by (by left). apply IH. intros y Hy. apply H. by right.
Qed.

(** Taking a meld out of a hand with [tile not in new_group]. *)
Lemma filter_out_length (player_tiles new_group : list tile) :
  new_group ⊆+ player_tiles ->
  (length (List.filter (fun t => bool_decide (t ∉ new_group)) player_tiles)
   + length new_group <= length player_tiles)%nat
  /\ (NoDup player_tiles ->
      (length (List.filter (fun t => bool_decide (t ∉ new_group)) player_tiles)
       + length new_group = length player_tiles)%nat).
Proof.
  intros [k Hk]%submseteq_Permutation.
  rewrite (filter_length_Permutation _ _ _ Hk), (Permutation_length Hk).
  rewrite List.filter_app, !length_app.
  rewrite (filter_none _ new_group).
  2:{ intros x Hx. by apply bool_decide_eq_false_2; intros ?. }
  simpl. split.
  - pose proof (filter_length_le (fun t => bool_decide (t ∉ new_group)) k). lia.
  - intros Hnd. rewrite Hk in Hnd. apply NoDup_app in Hnd as (_ & Hdisj & _).
    rewrite filter_all; [lia|].
    intros x Hx. apply bool_decide_eq_true_2. intros Hin. by apply (Hdisj x).
Qed.

(** Taking every copy of one tile out of a hand with [tile != t]. *)
Lemma filter_tile_length (player_tiles : list tile) t :
  t ∈ player_tiles ->
  (S (length (List.filter (fun t' => bool_decide (t' <> t)) player_tiles))
   <= length player_tiles)%nat
  /\ (NoDup player_tiles ->
      S (length (List.filter (fun t' => bool_decide (t' <> t)) player_tiles))
      = length player_tiles).
Proof.
  intros Ht.
  assert (Hsub : [t] ⊆+ player_tiles).
  { apply singleton_submseteq_l. done. }
  destruct (filter_out_length player_tiles [t] Hsub) as [Hle Heq].
  assert (Hsame : List.filter (fun t' => bool_decide (t' ∉ [t])) player_tiles
                  = List.filter (fun t' => bool_decide (t' <> t)) player_tiles).
  { apply List.filter_ext. intros x. apply bool_decide_ext.
    by rewrite list_elem_of_singleton. }
  rewrite Hsame in Hle, Heq. simpl in Hle, Heq. split; [lia|]. intros Hnd.
  specialize (Heq Hnd). lia.
Qed.

Lemma length_concat_insert_gen (l : list (list tile)) i (g x : list tile) :
  l !! i = Some g ->
  (length (concat (<[i := x]> l)) + length g = length (concat l) + length x)%nat.
Proof.
  revert i. induction l as [|y l IH]; intros [|i] Hg; simpl in *; try done.
  - injection Hg as ->. rewrite !length_app. lia.
  - rewrite !length_app. specialize (IH i Hg). lia.
Qed.

Lemma unique_tiles_sublist tiles : forall unique_colors,
  unique_tiles unique_colors tiles `sublist_of` tiles.
Proof.
  induction tiles as [|t tiles IH]; intros S; simpl; [done|].
  case_bool_decide; [by apply sublist_skip|by apply sublist_cons].
Qed.

Lemma generate_groups_elem_of player_tiles g :
  g ∈ generate_groups (grouped_by_value player_tiles) ->
  (3 <= length g)%nat /\ g ⊆+ player_tiles.
Proof.
  intros [[k l] [Hg Hkl]]%list_elem_of_bind.
  apply (grouped_buckets number) in Hkl as [-> _]. simpl in Hg.
  case_bool_decide as Hlen; [|by apply elem_of_nil in Hg].
  apply list_elem_of_singleton in Hg as ->. split; [done|].
  etrans; [apply sublist_submseteq, unique_tiles_sublist|apply bucket_submseteq].
Qed.

Lemma generate_runs_elem_of player_tiles r :
  r ∈ generate_runs (grouped_by_color player_tiles) ->
  (3 <= length r)%nat /\ r ⊆+ player_tiles.
Proof.
  intros Hr.
  assert (H : Forall (fun r => (3 <= length r)%nat /\ r ⊆+ player_tiles)
                     (generate_runs (grouped_by_color player_tiles))).
  { apply generate_runs_invariant; [|done].
    intros [c l] r' Hkv Hlen _ Hsub. simpl in Hsub.
    apply (grouped_buckets color) in Hkv as [-> _]. split; [done|].
    etrans; [exact Hsub|apply bucket_submseteq]. }
  by apply (proj1 (Forall_forall _ _) H).
Qed.

(** What every candidate move does to the tiles. *)
Lemma get_all_moves_accounting board_tiles player_tiles moves :
  get_all_moves board_tiles player_tiles = Ok moves ->
  Forall (fun m : move =>
            (length m.2 < length player_tiles)%nat
            /\ (tiles_in_play m.1 m.2 <= tiles_in_play board_tiles player_tiles)%nat
            /\ (NoDup player_tiles ->
                tiles_in_play m.1 m.2 = tiles_in_play board_tiles player_tiles))
         moves.
Proof.
  unfold get_all_moves.
  pose proof (get_all_moves_from_board_spec board_tiles player_tiles) as Hboard.
  destruct (get_all_moves_from_board board_tiles player_tiles) as [board_moves|]; [|done].
  cbn [mbind result_bind]. intros [= <-]. destruct Hboard as [_ Hboard].
  unfold tiles_in_play.
  apply Forall_app. split.
  - apply Forall_forall. intros m (i & g & t & new_group & Hg & Ht & Hnew & _ & ->)%Hboard.
    simpl. destruct (filter_tile_length player_tiles t Ht) as [Hle Heq].
    pose proof (length_concat_insert_gen board_tiles i g new_group Hg) as Hcount.
    assert (Hlen : length new_group = S (length g)).
    { destruct Hnew as [-> | ->]; [done|]. rewrite length_app. simpl. lia. }
    unfold board, meld, hand, move in *.
    split; [lia|]. split; [lia|]. intros Hnd. specialize (Heq Hnd). lia.
  - apply Forall_forall. intros m (new_group & -> & Hnew)%list_elem_of_fmap.
    simpl. rewrite concat_app, length_app. simpl. rewrite app_nil_r.
    assert (Hsub : (3 <= length new_group)%nat /\ new_group ⊆+ player_tiles).
    { apply elem_of_app in Hnew as [Hr|Hg];
        [by apply generate_runs_elem_of|by apply generate_groups_elem_of]. }
    destruct Hsub as [Hlen Hsub].
    destruct (filter_out_length player_tiles new_group Hsub) as [Hle Heq].
    unfold board, meld, hand, move in *.
    split; [lia|]. split; [lia|]. intros Hnd. specialize (Heq Hnd). lia.
Qed.

(** X11: Every candidate move of [get_all_moves] takes at least one tile out of
    the hand and never adds a tile to board and hand together; when the
    hand holds no tile twice, board and hand together keep their number of
    tiles.  (A tile the hand holds twice leaves it in both copies.) *)
Theorem get_all_moves_conserves board_tiles player_tiles :
  match get_all_moves board_tiles player_tiles with
  | Ok moves =>
      Forall (fun m : move =>
                (length m.2 < length player_tiles)%nat
                /\ (tiles_in_play m.1 m.2 <= tiles_in_play board_tiles player_tiles)%nat
                /\ (NoDup player_tiles ->
                    tiles_in_play m.1 m.2 = tiles_in_play board_tiles player_tiles))
             moves
  | Raise e => get_all_moves_from_board board_tiles player_tiles = Raise e
  end.
Proof.
  destruct (get_all_moves board_tiles player_tiles) as [moves|e] eqn:Hmoves.
  - by apply get_all_moves_accounting.
  - unfold get_all_moves in Hmoves.
    by destruct (get_all_moves_from_board board_tiles player_tiles).
Qed.

Lemma greedy_AI_logic_cases board_tiles player_tiles :
  (AI_logic board_tiles player_tiles).1 = player_tiles
  /\ match (AI_logic board_tiles player_tiles).2 with
     | Ok NoMove => get_all_moves board_tiles player_tiles = Ok []
     | Ok (SingleMove _) => False
     | Ok (PairMove new_board new_hand) =>
         (length new_hand < length player_tiles)%nat
         /\ exists moves m group,
              get_all_moves board_tiles player_tiles = Ok moves
              /\ m ∈ moves /\ group ∈ m.1
              /\ new_board = [group] /\ new_hand = m.2
     | Raise e => get_all_moves board_tiles player_tiles = Raise e
     end.
Proof.
  unfold AI_logic. split; [done|]. cbn [snd].
  destruct (get_all_moves board_tiles player_tiles) as [moves|e] eqn:Hmoves; [|done].
  cbn [mbind result_bind].
  case_bool_decide as Hempty; [by destruct moves|].
  pose proof (search_invariant_final moves) as Hinv. unfold search_invariant in Hinv.
  pose proof (get_all_moves_nonempty _ _ _ Hmoves) as Hboards.
  pose proof (get_all_moves_accounting _ _ _ Hmoves) as Hacc.
  destruct (best_move (search moves)) as [m|].
  - destruct Hinv as (Hin & _ & _). apply elem_of_melds_of_moves in Hin as [Hm Hgroup].
    split.
    + by apply (proj1 (Forall_forall _ _) Hacc m Hm).
    + exists moves, m, (longest_group (search moves)). done.
  - destruct Hinv as (Hnone & _ & _). exfalso.
    destruct moves as [|m moves]; [done|].
    apply Forall_cons in Hboards as [Hm _].
    rewrite melds_of_moves_cons in Hnone.
    destruct m as [[|g b] h]; [done|]. done.
Qed.

(** X12: The greedy strategy leaves the hand list alone.  It returns no move
    exactly when there is no candidate move; otherwise its move is a board
    of one single meld, taken from a candidate move, with the hand of that
    candidate, which is shorter than the player's hand.  It raises only
    when the move generator does. *)
Theorem greedy_move_shape board_tiles player_tiles :
  (AI_logic board_tiles player_tiles).1 = player_tiles
  /\ match (AI_logic board_tiles player_tiles).2 with
     | Ok NoMove => get_all_moves board_tiles player_tiles = Ok []
     | Ok (SingleMove _) => False
     | Ok (PairMove new_board new_hand) =>
         (length new_hand < length player_tiles)%nat
         /\ exists moves m group,
              get_all_moves board_tiles player_tiles = Ok moves
              /\ m ∈ moves /\ group ∈ m.1
              /\ new_board = [group] /\ new_hand = m.2
     | Raise e => get_all_moves board_tiles player_tiles = Raise e
     end.
Proof. apply greedy_AI_logic_cases. Qed.

End Accounting.

(** ** Dealing *)

Section Dealing.
Import RummikubPlayer RummikubGameManager.

Lemma draw_tile_last g pool t (h : hand) :
  tile_pool g = pool ++ [t] ->
  players_tiles g !! current_player_idx g = Some h ->
  draw_tile g
  = Ok (set_players_tiles (<[current_player_idx g := h ++ [t]]> (players_tiles g))
                          (set_tile_pool pool g)).
Proof.
  intros Hpool Hh. unfold draw_tile, index, assign.
  rewrite Hpool, last_snoc, removelast_last. cbn.
  rewrite Hh. cbn. rewrite bool_decide_eq_true_2; [done|].
  by eapply lookup_lt_Some.
Qed.

Lemma draw_tiles_last ts : forall g pool (h : hand),
  tile_pool g = pool ++ rev ts ->
  players_tiles g !! current_player_idx g = Some h ->
  draw_tiles (length ts) g
  = Ok (set_players_tiles (<[current_player_idx g := h ++ ts]> (players_tiles g))
                          (set_tile_pool pool g)).
Proof.
  induction ts as [|t ts IH]; intros g pool h Hpool Hh.
  - simpl in *. rewrite app_nil_r in *. rewrite list_insert_id by done.
    destruct g. simpl in *. by subst.
  - change (draw_tiles (length (t :: ts)) g)
      with (g' ← draw_tile g; draw_tiles (length ts) g').
    simpl in Hpool. rewrite app_assoc in Hpool.
    rewrite (draw_tile_last g _ t h Hpool Hh). cbn [mbind result_bind].
    rewrite (IH _ pool (h ++ [t])).
    + cbn. rewrite list_insert_insert_eq, <- app_assoc. done.
    + done.
    + cbn. apply list_lookup_insert_eq. by eapply lookup_lt_Some.
Qed.


Lemma new_game_dealt shuffle inputs :
  shuffle tiles_in_order ≡ₚ tiles_in_order ->
  exists pool h0 h1,
    shuffle tiles_in_order = pool ++ rev h1 ++ rev h0
    /\ length h0 = 14%nat /\ length h1 = 14%nat /\ length pool = 78%nat
    /\ new_game shuffle inputs
       = Ok {| players := map (fun k => {| kind := k; has_made_initial_meld := false |})
                              inputs;
               tile_pool := pool; players_tiles := [h0; h1];
               is_done := [false; false]; board_tiles := [];
               current_player_idx := 0; game_over := false;
               original_player_idx := None |}.
Proof.
  intros Hperm. apply Permutation_length in Hperm.
  change (length tiles_in_order) with 106%nat in Hperm.
  set (l := shuffle tiles_in_order) in *.
  set (pool := take 78 l).
  set (h1 := rev (take 14 (drop 78 l))).
  set (h0 := rev (drop 92 l)).
  assert (Hl : l = pool ++ rev h1 ++ rev h0).
  { unfold pool, h1, h0. rewrite !rev_involutive.
    rewrite <- (take_drop 78 l) at 1. f_equal.
    rewrite <- (take_drop 14 (drop 78 l)) at 1. f_equal.
    by rewrite drop_drop. }
  assert (Hh0 : length h0 = 14%nat).
  { unfold h0. rewrite length_rev, length_drop. lia. }
  assert (Hh1 : length h1 = 14%nat).
  { unfold h1. rewrite length_rev, length_take, length_drop. lia. }
  exists pool, h0, h1. split; [done|]. split; [done|]. split; [done|].
  split; [unfold pool; rewrite length_take; lia|].
  unfold new_game, deal_initial_tiles, create_tile_pool. fold l.
  rewrite <- Hh0 at 1.
  rewrite (draw_tiles_last h0 _ (pool ++ rev h1) []); [|by rewrite <- app_assoc|done].
  cbn [mbind result_bind].
  rewrite <- Hh1 at 1.
  rewrite (draw_tiles_last h1 _ pool []); [|done|done].
  cbn [mbind result_bind]. done.
Qed.

(** X14: Whatever permutation the shuffle produces, a new game starts with the
    last 14 tiles of the pool in the hand of player 0 and the 14 before them
    in the hand of player 1, each hand in the order drawn, from the end of
    the pool backwards; 78 tiles stay in the pool, the board is empty, no
    player is done, and player 0 is to move. *)
Theorem new_game_deals shuffle inputs :
  shuffle tiles_in_order ≡ₚ tiles_in_order ->
  exists pool h0 h1,
    shuffle tiles_in_order = pool ++ rev h1 ++ rev h0
    /\ length h0 = 14%nat /\ length h1 = 14%nat /\ length pool = 78%nat
    /\ new_game shuffle inputs
       = Ok {| players := map (fun k => {| kind := k; has_made_initial_meld := false |})
                              inputs;
               tile_pool := pool; players_tiles := [h0; h1];
               is_done := [false; false]; board_tiles := [];
               current_player_idx := 0; game_over := false;
               original_player_idx := None |}.
Proof. apply new_game_dealt. Qed.

Lemma new_game_deals_witness :
  dealing_shuffle tiles_in_order ≡ₚ tiles_in_order
  /\ exists pool h0 h1,
       dealing_shuffle tiles_in_order = pool ++ rev h1 ++ rev h0
       /\ length h0 = 14%nat /\ length h1 = 14%nat /\ length pool = 78%nat
       /\ new_game dealing_shuffle [greedy; random]
          = Ok {| players := map (fun k => {| kind := k; has_made_initial_meld := false |})
                                 [greedy; random];
                  tile_pool := pool; players_tiles := [h0; h1];
                  is_done := [false; false]; board_tiles := [];
                  current_player_idx := 0; game_over := false;
                  original_player_idx := None |}.
Proof.
  split; [exact dealing_shuffle_Permutation|].
  exact (new_game_deals dealing_shuffle [greedy; random] dealing_shuffle_Permutation).
Defined.

End Dealing.

(** ** The turn loop *)

Section Turns.
Import RummikubPlayer RummikubGameManager.
Variable random_logic : AI_logic_t.
Variable mcts_logic : MCTS_logic_t.

(** X15: A player whose hand is empty does not end the game: the turn loop of
    [ai_VS_ai] makes that player draw the last tile of the pool. *)
Theorem turn_empty_hand_draws g p pool t :
  players g !! current_player_idx g = Some p ->
  players_tiles g !! current_player_idx g = Some ([] : hand) ->
  tile_pool g = pool ++ [t] ->
  exists g',
    turn random_logic mcts_logic g = Ok g'
    /\ players_tiles g' = <[current_player_idx g := [t]]> (players_tiles g)
    /\ tile_pool g' = pool
    /\ board_tiles g' = board_tiles g
    /\ current_player_idx g' = ((current_player_idx g + 1) mod 2)%nat.
Proof.
  intros Hp Hh Hpool. unfold turn, index. rewrite Hp, Hh. cbn [mbind result_bind].
  unfold play_turn, calls_AI_logic.
  rewrite !(bool_decide_eq_true_2 (([] : hand) = [])) by done.
  cbn [negb andb]. rewrite andb_false_r.
  cbn [returned board_after hand_after mbind result_bind].
  unfold draw_or_done, is_tile_pool_empty.
  cbn [tile_pool set_players_tiles set_board_tiles set_players].
  rewrite bool_decide_eq_false_2 by (rewrite Hpool; by destruct pool).
  cbn [negb].
  erewrite draw_tile_last; [| cbn; exact Hpool |].
  2:{ cbn. apply list_lookup_insert_eq. by eapply lookup_lt_Some. }
  cbn [mbind result_bind]. eexists. split; [done|].
  unfold _check_all_players_done. destruct (forallb _ _); cbn.
  all: rewrite list_insert_insert_eq; done.
Qed.


Lemma draw_or_done_pool g g' :
  draw_or_done g = Ok g' ->
  is_done g <> [] -> (true ∈ is_done g -> tile_pool g = []) ->
  is_done g' <> [] /\ (true ∈ is_done g' -> tile_pool g' = [])
  /\ game_over g' = game_over g.
Proof.
  unfold draw_or_done, is_tile_pool_empty. intros Hstep Hne Hdone.
  case_bool_decide as Hpool; cbn [negb] in Hstep.
  - unfold assign in Hstep. case_bool_decide; [|done].
    cbn [mbind result_bind] in Hstep. injection Hstep as <-. cbn.
    split; [|done]. intros Heq. apply (f_equal length) in Heq.
    rewrite length_insert in Heq. by destruct (is_done g).
  - unfold draw_tile, index, assign in Hstep.
    destruct (last (tile_pool g)); [|by injection Hstep as <-].
    cbn in Hstep. destruct (_ !! _); [|done]. cbn in Hstep.
    case_bool_decide; [|done]. cbn in Hstep. injection Hstep as <-. cbn.
    split; [done|]. split; [|done]. intros Hin. by apply Hdone in Hin.
Qed.

Lemma turn_pool g g' :
  no_tree_search g -> game_over g = false -> pool_invariant g ->
  turn random_logic mcts_logic g = Ok g' -> pool_invariant g'.
Proof.
  intros Hno Hover (Hne & Hdone & _).
  destruct (players g !! current_player_idx g) as [player|] eqn:Hp;
    [|by unfold turn, index; rewrite Hp].
  destruct (players_tiles g !! current_player_idx g) as [player_tiles|] eqn:Hh;
    [|by unfold turn, index; rewrite Hp, Hh].
  rewrite (turn_plain_seat _ _ g player player_tiles Hp Hh (no_tree_search_seat _ _ Hno Hp)).
  cbv zeta.
  destruct (play_turn _ _ _ _) as [player' o].
  destruct (returned o) as [m|]; [|done]. cbn [mbind result_bind].
  set (g1 := set_players_tiles _ _).
  assert (Hstep : forall g2,
             is_done g2 <> [] /\ (true ∈ is_done g2 -> tile_pool g2 = [])
             /\ game_over g2 = game_over g ->
             pool_invariant (next_player (_check_all_players_done g2))).
  { intros g2 (Hne2 & Hdone2 & Hover2). unfold _check_all_players_done, pool_invariant.
    destruct (forallb _ _) eqn:Hall; cbn.
    - split; [done|]. split; [done|]. intros _.
      apply Forall_forall. intros d Hd.
      apply forallb_forall with (x := d) in Hall; [done|by apply list_elem_of_In].
    - split; [done|]. split; [done|]. congruence. }
  assert (Hdraw : forall g', (g2 ← draw_or_done g1;
                               Ok (next_player (_check_all_players_done g2))) = Ok g' ->
                              pool_invariant g').
  { intros g''. destruct (draw_or_done g1) as [g2|] eqn:E; [|done].
    cbn [mbind result_bind]. intros [= <-].
    apply Hstep. by apply (draw_or_done_pool g1). }
  destruct m as [m|]; [|by apply Hdraw].
  case_bool_decide; [by apply Hdraw|].
  unfold apply_move, assign. cbn [mbind result_bind].
  case_bool_decide; [|done]. cbn [mbind result_bind]. intros [= <-].
  by apply Hstep.
Qed.

Lemma ai_VS_ai_pool fuel : forall g g',
  no_tree_search g -> pool_invariant g ->
  ai_VS_ai random_logic mcts_logic fuel g = Some (Ok g') ->
  pool_invariant g' /\ game_over g' = true.
Proof.
  induction fuel as [|fuel IH]; intros g g' Hno Hinv; cbn.
  - destruct (game_over g) eqn:Hover; [|done]. by intros [= <-].
  - destruct (game_over g) eqn:Hover; [by intros [= <-]|].
    destruct (turn _ _ g) as [g1|] eqn:E; [|done].
    apply IH; [|by eapply turn_pool].
    eapply fixed_by_turn_no_tree_search; [|exact Hno]. by eapply turn_fixed.
Qed.

(** X16: A game between greedy and random players that [ai_VS_ai] has played
    to its end has an empty pool and every player marked as done: the loop
    stops for no other reason, and so not because a player has laid down the
    last tile of the hand. *)
Theorem ai_VS_ai_ends_on_empty_pool fuel g g' :
  no_tree_search g ->
  is_done g <> [] -> Forall (eq false) (is_done g) ->
  game_over g = false ->
  ai_VS_ai random_logic mcts_logic fuel g = Some (Ok g') ->
  game_over g' = true /\ tile_pool g' = [] /\ Forall (eq true) (is_done g').
Proof.
  intros Hno Hne Hnone Hover Hrun.
  destruct (ai_VS_ai_pool fuel g g') as ((Hne' & Hdone & Hall) & Hover'); [done| |done|].
  { split; [done|]. split; [|congruence].
    intros Hin. by apply (proj1 (Forall_forall _ _) Hnone) in Hin. }
  split; [done|]. specialize (Hall Hover'). split; [|done].
  apply Hdone. destruct (is_done g') as [|d ds]; [done|].
  apply Forall_cons in Hall as [<- _]. by left.
Qed.

End Turns.

(** ** The turn of a strategy *)

Section StrategyTurns.
Import RummikubPlayer RummikubGameManager.

Lemma draw_or_done_board g g' :
  draw_or_done g = Ok g' -> board_tiles g' = board_tiles g /\ tile_count g' = tile_count g.
Proof.
  unfold draw_or_done. destruct (negb _).
  - intros Hdraw. split; [|by apply draw_tile_count].
    unfold draw_tile, index, assign in Hdraw.
    destruct (last (tile_pool g)); [|by injection Hdraw as <-].
    cbn in Hdraw. destruct (_ !! _); [|done]. cbn in Hdraw.
    case_bool_decide; [|done]. by injection Hdraw as <-.
  - unfold assign. case_bool_decide; [|done]. by intros [= <-].
Qed.

Lemma end_of_turn_board g :
  board_tiles (next_player (_check_all_players_done g)) = board_tiles g
  /\ tile_count (next_player (_check_all_players_done g)) = tile_count g.
Proof. unfold _check_all_players_done. by destruct (forallb _ _). Qed.

(** The rest of a turn when the move is not applied. *)
Lemma turn_without_move g1 g' :
  (g2 ← draw_or_done g1; Ok (next_player (_check_all_players_done g2))) = Ok g' ->
  board_tiles g' = board_tiles g1 /\ tile_count g' = tile_count g1.
Proof.
  destruct (draw_or_done g1) as [g2|] eqn:E; [|done]. cbn [mbind result_bind].
  intros [= <-]. destruct (draw_or_done_board _ _ E) as [Hb Hc].
  destruct (end_of_turn_board g2) as [Hb' Hc']. split; congruence.
Qed.

Section GreedyTurn.
Variable random_logic : AI_logic_t.
Variable mcts_logic : MCTS_logic_t.

(** X13: A turn of the greedy player after its initial meld never adds a tile to
    the game, and it leaves the board as it was or as one single meld:
    every other meld of the board is dropped. *)
Theorem greedy_turn_board g g' p :
  players g !! current_player_idx g = Some p ->
  kind p = greedy -> has_made_initial_meld p = true ->
  turn random_logic mcts_logic g = Ok g' ->
  (tile_count g' <= tile_count g)%nat
  /\ (board_tiles g' = board_tiles g \/ exists group, board_tiles g' = [group]).
Proof.
  intros Hp Hkind Hflag.
  destruct (players_tiles g !! current_player_idx g) as [player_tiles|] eqn:Hh;
    [|by unfold turn, index; rewrite Hp, Hh].
  rewrite (turn_plain_seat _ _ g p player_tiles Hp Hh) by (by rewrite Hkind).
  cbv zeta. rewrite Hkind. cbn [AI_logic_of].
  unfold play_turn. case_bool_decide as Hempty.
  { cbn [returned board_after hand_after mbind result_bind].
    intros [Hb Hc]%turn_without_move. split; [|by left].
    rewrite Hc. unfold tile_count. cbn. by rewrite list_insert_id. }
  rewrite Hflag. cbn [negb]. unfold get_move.
  pose proof (greedy_AI_logic_cases (board_tiles g) player_tiles) as [Hhand Hcases].
  destruct (RummikubGreedyAI.AI_logic (board_tiles g) player_tiles) as [hand' r].
  cbn [fst snd] in Hhand, Hcases. subst hand'.
  destruct r as [[|t|new_board new_hand]|e]; [| done | |done].
  - cbn [returned board_after hand_after mbind result_bind].
    intros [Hb Hc]%turn_without_move. split; [|by left].
    rewrite Hc. unfold tile_count. cbn. by rewrite list_insert_id.
  - cbn [returned board_after hand_after mbind result_bind fst snd].
    destruct Hcases as (Hshort & moves & m & group & Hmoves & Hm & Hgroup & -> & ->).
    rewrite bool_decide_eq_false_2 by lia.
    unfold apply_move, assign. cbn [mbind result_bind].
    case_bool_decide as Hidx; [|done]. cbn [mbind result_bind]. intros [= <-].
    match goal with
    | |- context [_check_all_players_done ?G] =>
        destruct (end_of_turn_board G) as [Hb Hc]; rewrite Hb, Hc
    end.
    split; [|right; by exists group].
    unfold tile_count. cbn. rewrite list_insert_insert_eq, app_nil_r.
    pose proof (get_all_moves_accounting _ _ _ Hmoves) as Hacc.
    apply (proj1 (Forall_forall _ _) Hacc) in Hm as (_ & Hle & _).
    unfold tiles_in_play in Hle.
    pose proof (length_concat_insert_gen (players_tiles g) (current_player_idx g)
                                         player_tiles m.2 Hh) as Hins.
    assert (Hg : (length group <= length (concat m.1))%nat).
    { apply list_elem_of_split in Hgroup as (l1 & l2 & ->).
      rewrite concat_app, length_app. simpl. rewrite length_app. lia. }
    unfold board, meld, hand, move in *. lia.
Qed.

End GreedyTurn.

End StrategyTurns.

(** ** The random strategy *)

Section RandomStrategy.
Import RummikubPlayer RummikubGameManager RummikubRandomAI.

Lemma list_remove_Permutation t l l' : list_remove t l = Some l' -> l ≡ₚ t :: l'.
Proof.
  revert l'. induction l as [|y l IH]; intros l'; simpl; [done|].
  destruct (decide (t = y)) as [->|Hne]; [by intros [= ->]|].
  destruct (list_remove t l) as [l1|]; [|done]. simpl. intros [= <-].
  rewrite (IH l1 eq_refl). apply Permutation_swap.
Qed.

Lemma remove_each_submseteq m : forall l,
  m ⊆+ l -> exists l', remove_each m l = (l', Ok ()) /\ m ++ l' ≡ₚ l.
Proof.
  induction m as [|t m IH]; intros l Hsub; simpl.
  - by exists l.
  - apply submseteq_cons_l in Hsub as (k & Hk & Hm).
    assert (Ht : t ∈ l) by (rewrite Hk; by left).
    destruct (list_remove_elem_of t l Ht) as (l1 & Hrem & _). rewrite Hrem.
    pose proof (list_remove_Permutation _ _ _ Hrem) as Hl1.
    assert (Hk1 : l1 ≡ₚ k). { apply (Permutation_cons_inv (a := t)). by rewrite <- Hl1. }
    destruct (IH l1) as (l' & -> & Hperm); [by rewrite Hk1|].
    exists l'. split; [done|]. by rewrite Hperm, Hl1.
Qed.

Lemma generate_random_move_cases attempts : forall player_tiles,
  Forall (fair_attempt player_tiles) attempts ->
  (generate_random_move attempts player_tiles).1 ≡ₚ player_tiles
  /\ match (generate_random_move attempts player_tiles).2 with
     | Ok None => True
     | Ok (Some m) =>
         exists a, a ∈ attempts /\ m = sort_candidate (sampled a)
                   /\ (generate_random_move attempts player_tiles).1 = shuffled a
                   /\ group_or_run m = Ok true
     | Raise e =>
         exists a, a ∈ attempts /\ group_or_run (sort_candidate (sampled a)) = Raise e
     end.
Proof.
  induction attempts as [|a attempts IH]; intros player_tiles Hfair; simpl; [done|].
  apply Forall_cons in Hfair as [(Hlen & Hperm & Hsub & Hsampled) Hfair].
  assert (Hfair' : Forall (fair_attempt (shuffled a)) attempts).
  { eapply Forall_impl; [exact Hfair|]. intros a' (? & ? & ? & Hl).
    split; [done|]. split; [by etrans|]. split; [done|].
    by rewrite (Permutation_length Hperm). }
  assert (Hrest : (generate_random_move attempts (shuffled a)).1 ≡ₚ player_tiles
                  /\ match (generate_random_move attempts (shuffled a)).2 with
                     | Ok None => True
                     | Ok (Some m) =>
                         exists a', a' ∈ a :: attempts /\ m = sort_candidate (sampled a')
                                    /\ (generate_random_move attempts (shuffled a)).1
                                       = shuffled a'
                                    /\ group_or_run m = Ok true
                     | Raise e =>
                         exists a', a' ∈ a :: attempts
                                    /\ group_or_run (sort_candidate (sampled a')) = Raise e
                     end).
  { destruct (IH _ Hfair') as [H1 H2]. split; [by etrans|].
    destruct ((generate_random_move attempts (shuffled a)).2) as [[m|]|e]; [|done|].
    - destruct H2 as (a' & Ha' & H2). exists a'. split; [by right|done].
    - destruct H2 as (a' & Ha' & H2). exists a'. split; [by right|done]. }
  destruct (sort_candidate (sampled a)) as [|t m] eqn:Hsort; [done|].
  destruct (group_or_run (t :: m)) as [[]|e] eqn:Hok; simpl.
  - split; [done|]. exists a. rewrite Hsort. split; [by left|done].
  - done.
  - split; [done|]. exists a. rewrite Hsort. split; [by left|done].
Qed.

Lemma sort_candidate_Permutation l : sort_candidate l ≡ₚ l.
Proof. apply stable_sort_Permutation. Qed.

Lemma random_AI_logic_cases attempts board_tiles player_tiles :
  Forall (fair_attempt player_tiles) attempts ->
  match (AI_logic attempts board_tiles player_tiles).2 with
  | Ok NoMove => (AI_logic attempts board_tiles player_tiles).1 ≡ₚ player_tiles
  | Ok (SingleMove _) => False
  | Ok (PairMove new_board new_hand) =>
      new_hand = (AI_logic attempts board_tiles player_tiles).1
      /\ exists m, new_board = [m]
                   /\ group_or_run m = Ok true
                   /\ (length m <= 6)%nat
                   /\ m ++ new_hand ≡ₚ player_tiles
  | Raise e =>
      exists a, a ∈ attempts /\ group_or_run (sort_candidate (sampled a)) = Raise e
  end.
Proof.
  intros Hfair. unfold AI_logic.
  destruct (generate_random_move_cases attempts player_tiles Hfair) as [Hperm Hcases].
  destruct (generate_random_move attempts player_tiles) as [h1 [[m|]|e]];
    cbn [fst snd] in *; [|done|done].
  destruct Hcases as (a & Ha & -> & -> & Hok).
  apply (proj1 (Forall_forall _ _) Hfair) in Ha as (Hlen & Hshuf & Hsub & Hsampled).
  destruct (remove_each_submseteq (sort_candidate (sampled a)) (shuffled a))
    as (h2 & Hrem & Hperm2).
  { by rewrite sort_candidate_Permutation. }
  rewrite Hrem. cbn [fst snd mbind result_bind].
  split; [done|]. eexists. split; [done|]. split; [done|]. split.
  - rewrite (Permutation_length (sort_candidate_Permutation _)), Hsampled.
    unfold MAX_RANDOM_TILES_LENGTH in Hlen. lia.
  - by rewrite Hperm2.
Qed.

(** X17: With attempts as the random module can hand them out, the random
    strategy returns no move and a reshuffled hand, or a move whose board is
    one meld that the validators accept, of at most 6 tiles sorted by
    number, and whose hand is the player's own hand list, from which the
    tiles of the meld have been removed: meld and hand together are a
    permutation of the hand before.  The board it was given is not part of
    the move.  It raises only when the validators raise on a sample. *)
Theorem random_AI_logic_sound attempts board_tiles player_tiles :
  Forall (fair_attempt player_tiles) attempts ->
  match (AI_logic attempts board_tiles player_tiles).2 with
  | Ok NoMove => (AI_logic attempts board_tiles player_tiles).1 ≡ₚ player_tiles
  | Ok (SingleMove _) => False
  | Ok (PairMove new_board new_hand) =>
      new_hand = (AI_logic attempts board_tiles player_tiles).1
      /\ exists m, new_board = [m]
                   /\ group_or_run m = Ok true
                   /\ (length m <= 6)%nat
                   /\ m ++ new_hand ≡ₚ player_tiles
  | Raise e =>
      exists a, a ∈ attempts /\ group_or_run (sort_candidate (sampled a)) = Raise e
  end.
Proof. apply random_AI_logic_cases. Qed.

Lemma lucky_attempts_fair :
  Forall (fair_attempt [red 1; red 2; red 3; blue 1]) (replicate 100 lucky_attempt).
Proof.
  apply Forall_replicate. unfold fair_attempt, lucky_attempt. cbn.
  split; [unfold MIN_TILES, MAX_RANDOM_TILES_LENGTH; lia|].
  split; [apply (bool_decide_unpack _); vm_compute; exact I|].
  split; [apply (bool_decide_unpack _); vm_compute; exact I|done].
Qed.

Lemma random_AI_logic_sound_witness :
  Forall (fair_attempt [red 1; red 2; red 3; blue 1]) (replicate 100 lucky_attempt)
  /\ AI_logic (replicate 100 lucky_attempt) [[green 5; green 6; green 7]]
              [red 1; red 2; red 3; blue 1]
     = ([blue 1], Ok (PairMove [[red 1; red 2; red 3]] [blue 1]))
  /\ match (AI_logic (replicate 100 lucky_attempt) [[green 5; green 6; green 7]]
                     [red 1; red 2; red 3; blue 1]).2 with
     | Ok NoMove =>
         (AI_logic (replicate 100 lucky_attempt) [[green 5; green 6; green 7]]
                   [red 1; red 2; red 3; blue 1]).1 ≡ₚ [red 1; red 2; red 3; blue 1]
     | Ok (SingleMove _) => False
     | Ok (PairMove new_board new_hand) =>
         new_hand = (AI_logic (replicate 100 lucky_attempt) [[green 5; green 6; green 7]]
                              [red 1; red 2; red 3; blue 1]).1
         /\ exists m, new_board = [m]
                      /\ group_or_run m = Ok true
                      /\ (length m <= 6)%nat
                      /\ m ++ new_hand ≡ₚ [red 1; red 2; red 3; blue 1]
     | Raise e =>
         exists a, a ∈ replicate 100 lucky_attempt
                   /\ group_or_run (sort_candidate (sampled a)) = Raise e
     end.
Proof.
  split; [exact lucky_attempts_fair|]. split; [vm_compute; reflexivity|].
  exact (random_AI_logic_sound (replicate 100 lucky_attempt) [[green 5; green 6; green 7]]
                               [red 1; red 2; red 3; blue 1] lucky_attempts_fair).
Defined.

Section RandomTurn.
Variables (attempts : list attempt) (mcts_logic : MCTS_logic_t).

(** X18: A turn of the random player after its initial meld never changes the
    board.  The meld the strategy has found leaves the hand and is dropped:
    the move's hand is the player's own hand list, so [ai_VS_ai] takes the
    move for no move and lets the player draw. *)
Theorem random_turn_drops_meld g g' p (player_tiles : hand) :
  players g !! current_player_idx g = Some p ->
  kind p = random -> has_made_initial_meld p = true ->
  players_tiles g !! current_player_idx g = Some player_tiles ->
  player_tiles <> [] ->
  Forall (fair_attempt player_tiles) attempts ->
  turn (AI_logic attempts) mcts_logic g = Ok g' ->
  board_tiles g' = board_tiles g
  /\ match (AI_logic attempts (board_tiles g) player_tiles).2 with
     | Ok (PairMove new_board _) =>
         (tile_count g' + length (concat new_board) = tile_count g)%nat
     | _ => tile_count g' = tile_count g
     end.
Proof.
  intros Hp Hkind Hflag Hh Hne Hfair.
  rewrite (turn_plain_seat _ _ g p player_tiles Hp Hh) by (by rewrite Hkind).
  cbv zeta. rewrite Hkind. cbn [AI_logic_of].
  unfold play_turn. rewrite bool_decide_eq_false_2 by done.
  rewrite Hflag. cbn [negb]. unfold get_move.
  pose proof (random_AI_logic_cases attempts (board_tiles g) player_tiles Hfair) as Hcases.
  destruct (AI_logic attempts (board_tiles g) player_tiles) as [hand' r].
  cbn [fst snd] in Hcases |- *.
  pose proof (fun h' => length_concat_insert_gen (players_tiles g) (current_player_idx g)
                                                 player_tiles h' Hh) as Hins.
  destruct r as [[|t|new_board new_hand]|e]; [| done | |done].
  - cbn [returned board_after hand_after mbind result_bind].
    intros [Hb Hc]%turn_without_move. split; [done|].
    rewrite Hc. unfold tile_count. cbn.
    specialize (Hins hand'). apply Permutation_length in Hcases.
    unfold board, meld, hand, move in *. lia.
  - cbn [returned board_after hand_after mbind result_bind fst snd].
    destruct Hcases as (-> & m & -> & _ & _ & Hperm).
    rewrite bool_decide_eq_true_2 by done.
    intros [Hb Hc]%turn_without_move. split; [done|].
    rewrite Hc. unfold tile_count. cbn. rewrite app_nil_r.
    specialize (Hins hand'). apply Permutation_length in Hperm.
    rewrite length_app in Hperm.
    unfold board, meld, hand, move in *. lia.
Qed.

End RandomTurn.

End RandomStrategy.

(** ** Simulations *)

Section Simulations.
Import RummikubPlayer RummikubGameManager RummikubMCTSAI.
Variable random_logic : AI_logic_t.
Variable mcts_logic : MCTS_logic_t.

(** X19: [Simulator] reads [original_player_idx] after [prepare_simulator] has
    passed the turn on, so it holds the seat after the seat of the player
    whose node is rolled out.  A simulated game won by the node's own seat
    is rewarded with 0; one won by the other seat with 1 plus the numbers in
    the winner's hand; a tie with one half. *)
Theorem simulator_rewards_other_seat fuel node_board node_hand g simulator g1 w g2 winner :
  (current_player_idx g < 2)%nat ->
  Simulator_init node_board node_hand g = Ok (simulator, g1) ->
  get_winner random_logic mcts_logic fuel simulator g1 = Some (Ok (w, g2)) ->
  RummikubGameManager.get_winner g2 = Ok winner ->
  sim_original_player_idx simulator = ((current_player_idx g + 1) mod 2)%nat
  /\ (winner = Z.of_nat (current_player_idx g) -> w = 0%Q)
  /\ (winner = Z.of_nat ((current_player_idx g + 1) mod 2) ->
      exists h, players_tiles g2 !! ((current_player_idx g + 1) mod 2)%nat = Some h
                /\ w = inject_Z (1 + hand_value h))
  /\ (winner = -1 -> w = (1 # 2)%Q).
Proof.
  intros Hidx Hinit Hwin Hwinner.
  unfold Simulator_init, prepare_simulator, assign in Hinit.
  case_bool_decide; [|done]. cbn [mbind result_bind] in Hinit.
  injection Hinit as <- <-.
  unfold get_winner in Hwin.
  destruct (ai_VS_ai _ _ _ _) as [[game|]|]; [|done..].
  destruct (RummikubGameManager.get_winner game) as [winner'|] eqn:Hw; [|done].
  cbn [mbind result_bind] in Hwin.
  unfold next_player in Hwin |- *.
  cbn [sim_original_player_idx set_current_player_idx current_player_idx init_players
       set_players set_players_tiles set_board_tiles set_original_player_idx]
    in Hwin |- *.
  assert (Hcases : current_player_idx g = 0%nat \/ current_player_idx g = 1%nat) by lia.
  split; [done|].
  destruct Hcases as [Hi|Hi]; rewrite Hi in Hwin |- *;
    cbv [Nat.modulo Nat.divmod Nat.sub Nat.add snd fst] in Hwin |- *.
  all: case_bool_decide as H1.
  all: try (unfold index in Hwin; rewrite bool_decide_eq_true_2 in Hwin by lia;
            rewrite H1, Nat2Z.id in Hwin;
            destruct (players_tiles game !! _) as [h|] eqn:Hh; [|done];
            cbn [mbind result_bind] in Hwin; injection Hwin as <- <-;
            rewrite Hw in Hwinner; injection Hwinner as <-;
            split; [intros ?; lia|]; split; [|intros ?; lia];
            intros _; by exists h).
  all: case_bool_decide as H2; injection Hwin as <- <-;
    rewrite Hw in Hwinner; injection Hwinner as <-.
  all: split; [first [done | intros ?; lia]|].
  all: split; [first [done | intros ?; lia]|first [done | intros ?; lia]].
Qed.

Lemma ai_VS_ai_over fuel g :
  game_over g = true -> ai_VS_ai random_logic mcts_logic fuel g = Some (Ok g).
Proof. intros Hover. destruct fuel; cbn; by rewrite Hover. Qed.

Lemma ai_VS_ai_result_over fuel : forall g g',
  ai_VS_ai random_logic mcts_logic fuel g = Some (Ok g') -> game_over g' = true.
Proof.
  induction fuel as [|fuel IH]; intros g g'; cbn.
  - destruct (game_over g) eqn:Hover; [|done]. by intros [= <-].
  - destruct (game_over g) eqn:Hover; [by intros [= <-]|].
    destruct (turn _ _ g) as [g1|]; [|done]. apply IH.
Qed.

Lemma get_winner_again fuel simulator g w g' :
  get_winner random_logic mcts_logic fuel simulator g = Some (Ok (w, g')) ->
  game_over g' = true
  /\ get_winner random_logic mcts_logic fuel simulator g' = Some (Ok (w, g')).
Proof.
  unfold get_winner.
  destruct (ai_VS_ai _ _ fuel g) as [[game|]|] eqn:Hrun; [|done..].
  apply ai_VS_ai_result_over in Hrun. intros Hw.
  assert (g' = game) as ->.
  { destruct (RummikubGameManager.get_winner game); [|done].
    cbn [mbind result_bind] in Hw. case_bool_decide.
    - destruct (if bool_decide _ then _ else _); [|done].
      cbn [mbind result_bind] in Hw. by injection Hw as _ <-.
    - case_bool_decide; by injection Hw as _ <-. }
  split; [done|]. by rewrite ai_VS_ai_over.
Qed.

Lemma run_simulations_over fuel simulator g w n : forall wins,
  get_winner random_logic mcts_logic fuel simulator g = Some (Ok (w, g)) ->
  exists total,
    run_simulations random_logic mcts_logic fuel simulator n wins g = Some (Ok (total, g))
    /\ (total == wins + inject_Z (Z.of_nat n) * w)%Q.
Proof.
  induction n as [|n IH]; intros wins Hw.
  - exists wins. split; [done|]. cbn. ring.
  - cbn [run_simulations]. rewrite Hw.
    destruct (IH (wins + w)%Q Hw) as (total & -> & Htotal).
    exists total. split; [done|]. rewrite Htotal, Nat2Z.inj_succ.
    unfold Z.succ. rewrite inject_Z_plus. ring.
Qed.

(** X20: A rollout plays one game: the first simulation plays the game to its
    end on the game manager itself, the seven that follow find it over, and
    the rollout returns eight times the reward of the first, leaving a
    game manager whose game is over. *)
Theorem rollout_counts_one_game_eight_times fuel node_board node_hand g total g' :
  rollout random_logic mcts_logic fuel node_board node_hand 0 g = Some (Ok (total, g')) ->
  exists simulator g1 w,
    Simulator_init node_board node_hand g = Ok (simulator, g1)
    /\ get_winner random_logic mcts_logic fuel simulator g1 = Some (Ok (w, g'))
    /\ (total == 8 * w)%Q
    /\ game_over g' = true.
Proof.
  unfold rollout. rewrite bool_decide_eq_false_2 by (unfold MAX_ROLLOUT_DEPTH; lia).
  destruct (Simulator_init node_board node_hand g) as [[simulator g1]|]; [|done].
  unfold NUM_SIMULATIONS_FOR_NODE.
  change (run_simulations random_logic mcts_logic fuel simulator 8 0 g1)
    with (match get_winner random_logic mcts_logic fuel simulator g1 with
          | None => None
          | Some (Raise e) => Some (Raise e)
          | Some (Ok (w, game)) =>
              run_simulations random_logic mcts_logic fuel simulator 7 (0 + w)%Q game
          end).
  destruct (get_winner _ _ fuel simulator g1) as [[[w game]|]|] eqn:Hw; [|done..].
  destruct (get_winner_again _ _ _ _ _ Hw) as [Hover Hagain].
  destruct (run_simulations_over fuel simulator game w 7 (0 + w)%Q Hagain)
    as (total' & -> & Htotal).
  intros [= <- <-]. exists simulator, g1, w. split; [done|]. split; [done|].
  split; [|done]. rewrite Htotal. cbn. ring.
Qed.

End Simulations.

(** ** Pruning and expansion in the tree search *)

Section Pruning.
Import RummikubAIHelper RummikubPlayer PotentialMelds MCTSTree.

Lemma group_append_total {K} `{EqDecision K} (k : K) t (d : list (K * list tile)) :
  length (concat (map snd (group_append k t d))) = S (length (concat (map snd d))).
Proof.
  induction d as [|[k' l] d IH]; simpl; [done|].
  destruct (decide (k = k')); simpl; rewrite !length_app; [simpl; lia|].
  rewrite IH. lia.
Qed.

Lemma grouped_total {K} `{EqDecision K} (key : tile -> K) tiles :
  length (concat (map snd (grouped key tiles))) = length tiles.
Proof.
  induction tiles as [|t tiles IH] using rev_ind; [done|].
  rewrite grouped_snoc, group_append_total, IH, length_app. simpl. lia.
Qed.

Lemma bucket_length_le {K} (d : list (K * list tile)) kv :
  kv ∈ d -> (length kv.2 <= length (concat (map snd d)))%nat.
Proof.
  induction d as [|kv' d IH]; [by intros ?%elem_of_nil|].
  simpl. rewrite length_app. intros [->|Hin]%elem_of_cons; [lia|].
  specialize (IH Hin). lia.
Qed.

Lemma get_potential_groups_length tiles :
  (2 * length (get_potential_groups tiles) <= length tiles)%nat.
Proof.
  unfold get_potential_groups.
  rewrite <- (grouped_total number tiles).
  change (group_tiles_by_number tiles) with (grouped number tiles).
  generalize (joker_colored tiles). intros jokers.
  induction (grouped number tiles) as [|kv d IH]; [simpl; lia|].
  rewrite bind_cons, length_app.
  change (map snd (kv :: d)) with (kv.2 :: map snd d).
  change (concat (kv.2 :: map snd d)) with (kv.2 ++ concat (map snd d)).
  rewrite length_app.
  assert (Hone : (2 * length (if bool_decide (3 <= length kv.2)%nat then [kv.2]
                              else if bool_decide (length kv.2 = 2%nat)
                                   then match jokers with
                                        | joker :: _ => [kv.2 ++ [joker]]
                                        | [] => []
                                        end
                                   else []) <= length kv.2)%nat).
  { repeat case_bool_decide; [simpl; lia| |simpl; lia].
    destruct jokers; simpl; lia. }
  unfold board, meld, hand in *. lia.
Qed.

Lemma scan_windows_none run_tiles potential_runs :
  (length run_tiles <= 2)%nat ->
  scan_windows run_tiles (seq 0 (length run_tiles - 2)) potential_runs = Ok potential_runs.
Proof. intros Hlen. by replace (length run_tiles - 2)%nat with 0%nat by lia. Qed.

Lemma runs_of_group_small tiles (run_tiles : list tile) :
  (length run_tiles <= 2)%nat -> runs_of_group tiles [] run_tiles = Ok [].
Proof.
  intros Hlen. unfold runs_of_group. cbv zeta.
  rewrite scan_windows_none.
  2:{ rewrite (Permutation_length (stable_sort_Permutation _ _)).
      etrans; [apply filter_length_le|done]. }
  cbn [mbind result_bind]. by case_bool_decide.
Qed.

Lemma get_potential_runs_small tiles :
  (length tiles <= 2)%nat -> get_potential_runs tiles = Ok [].
Proof.
  intros Hlen. unfold get_potential_runs.
  change (group_tiles_by_color tiles) with (grouped color tiles).
  assert (Hsmall : forall kv, kv ∈ grouped color tiles -> (length kv.2 <= 2)%nat).
  { intros kv Hkv%bucket_length_le. rewrite grouped_total in Hkv. lia. }
  induction (grouped color tiles) as [|kv d IH]; [done|].
  cbn [foldM]. rewrite runs_of_group_small by (apply Hsmall; by left).
  cbn [mbind result_bind]. apply IH. intros kv' Hkv'. apply Hsmall. by right.
Qed.

Lemma prune_move_small new_player_tiles :
  (length new_player_tiles <= 2)%nat -> prune_move new_player_tiles = Ok true.
Proof.
  intros Hlen. unfold prune_move. rewrite get_potential_runs_small by done.
  cbn [mbind result_bind]. f_equal. apply bool_decide_eq_true_2.
  pose proof (get_potential_groups_length new_player_tiles). simpl. lia.
Qed.

(** X21: [expand] takes the last untried move off the node whether it attaches a
    child or not, so a pruned move is never tried again.  A child it
    attaches is new, stands for that move and holds at least three tiles:
    a move that leaves the player two tiles, one or none, and so every move
    that plays the last tiles of the hand, is pruned. *)
Theorem expand_prunes_small_hands self m :
  last (untried_moves self) = Some m ->
  match expand self with
  | Ok (self', child) =>
      untried_moves self' = removelast (untried_moves self)
      /\ match child with
         | None => tn_children self' = tn_children self
         | Some c =>
             tn_children self' = tn_children self ++ [c]
             /\ tn_move c = Some m /\ tn_player_tiles c = m.2 /\ tn_board_tiles c = m.1
             /\ tn_children c = [] /\ tn_visits c = 0
             /\ (3 <= length (tn_player_tiles c))%nat
         end
  | Raise _ => (3 <= length m.2)%nat
  end.
Proof.
  intros Hlast. unfold expand. rewrite Hlast. unfold simulate_move.
  destruct (decide (length m.2 <= 2)%nat) as [Hsmall|Hlarge].
  - rewrite prune_move_small by done. cbn [mbind result_bind]. done.
  - destruct (prune_move m.2) as [[]|]; cbn [mbind result_bind]; [done| |lia].
    unfold MCTSNode_init.
    destruct (get_legal_moves m.1 m.2); cbn [mbind result_bind]; [|lia].
    cbn. repeat split; lia.
Qed.

(** X22: The selection loop of the tree search never descends: a node that is not
    terminal has an untried move, so it is not fully expanded. *)
Theorem selection_stops_at_root self :
  negb (is_terminal self) && is_fully_expanded self = false.
Proof.
  unfold is_terminal, is_fully_expanded.
  destruct (untried_moves self); repeat case_bool_decide; simpl in *; try done.
  all: by rewrite ?orb_true_r.
Qed.

End Pruning.

(** ** Instances *)

Section Instances.
Import RummikubPlayer RummikubGameManager RummikubMCTSAI MCTSTree.

Lemma turn_empty_hand_draws_witness :
  players spent_game !! current_player_idx spent_game
  = Some {| kind := greedy; has_made_initial_meld := true |}
  /\ players_tiles spent_game !! current_player_idx spent_game = Some ([] : hand)
  /\ tile_pool spent_game = [yellow 1] ++ [yellow 2]
  /\ exists g',
       turn fruitless_logic idle_search spent_game = Ok g'
       /\ players_tiles g' = <[current_player_idx spent_game := [yellow 2]]>
                               (players_tiles spent_game)
       /\ tile_pool g' = [yellow 1]
       /\ board_tiles g' = board_tiles spent_game
       /\ current_player_idx g' = ((current_player_idx spent_game + 1) mod 2)%nat.
Proof.
  split; [reflexivity|]. split; [reflexivity|]. split; [reflexivity|].
  exact (turn_empty_hand_draws fruitless_logic idle_search spent_game
           {| kind := greedy; has_made_initial_meld := true |} [yellow 1] (yellow 2)
           eq_refl eq_refl eq_refl).
Defined.

Lemma ai_VS_ai_ends_on_empty_pool_witness :
  no_tree_search last_turns_game
  /\ exists g',
       ai_VS_ai fruitless_logic idle_search 2 last_turns_game = Some (Ok g')
       /\ game_over g' = true /\ tile_pool g' = [] /\ Forall (eq true) (is_done g').
Proof.
  assert (Hno : no_tree_search last_turns_game).
  { intros Hin. apply elem_of_cons in Hin as [?|Hin]; [done|].
    apply elem_of_cons in Hin as [?|Hin]; [done|]. by apply elem_of_nil in Hin. }
  split; [exact Hno|]. eexists.
  assert (Hrun : ai_VS_ai fruitless_logic idle_search 2 last_turns_game
                 = Some (Ok {| players :=
                                 [{| kind := greedy; has_made_initial_meld := true |};
                                  {| kind := random; has_made_initial_meld := true |}];
                               tile_pool := [];
                               players_tiles := [[red 1]; [blue 9]];
                               is_done := [true; true];
                               board_tiles := [[red 4; red 5; red 6]];
                               current_player_idx := 0;
                               game_over := true;
                               original_player_idx := None |}))
    by (vm_compute; reflexivity).
  split; [exact Hrun|].
  apply (ai_VS_ai_ends_on_empty_pool fruitless_logic idle_search 2 last_turns_game);
    [exact Hno|done|by repeat constructor|done|exact Hrun].
Defined.

Lemma greedy_turn_board_witness :
  exists g',
    turn fruitless_logic idle_search greedy_game = Ok g'
    /\ tile_count greedy_game = 9%nat /\ tile_count g' = 6%nat
    /\ (tile_count g' <= tile_count greedy_game)%nat
    /\ (board_tiles g' = board_tiles greedy_game \/ exists group, board_tiles g' = [group]).
Proof.
  eexists.
  assert (Hturn : turn fruitless_logic idle_search greedy_game
                  = Ok {| players :=
                            [{| kind := greedy; has_made_initial_meld := true |};
                             {| kind := random; has_made_initial_meld := true |}];
                          tile_pool := [yellow 1];
                          players_tiles := [[]; [blue 9]];
                          is_done := [false; false];
                          board_tiles := [[red 10; red 11; red 12; red 13]];
                          current_player_idx := 1;
                          game_over := false;
                          original_player_idx := None |})
    by (vm_compute; reflexivity).
  split; [exact Hturn|]. split; [reflexivity|]. split; [reflexivity|].
  exact (greedy_turn_board fruitless_logic idle_search greedy_game _
           {| kind := greedy; has_made_initial_meld := true |}
           eq_refl eq_refl eq_refl Hturn).
Defined.

Lemma random_turn_drops_meld_witness :
  exists g',
    turn (RummikubRandomAI.AI_logic (replicate 100 lucky_attempt)) idle_search random_game
    = Ok g'
    /\ tile_count random_game = 9%nat /\ tile_count g' = 6%nat
    /\ board_tiles g' = board_tiles random_game
    /\ match (RummikubRandomAI.AI_logic (replicate 100 lucky_attempt)
                (board_tiles random_game) [red 1; red 2; red 3; blue 1]).2 with
       | Ok (PairMove new_board _) =>
           (tile_count g' + length (concat new_board) = tile_count random_game)%nat
       | _ => tile_count g' = tile_count random_game
       end.
Proof.
  eexists.
  assert (Hturn : turn (RummikubRandomAI.AI_logic (replicate 100 lucky_attempt))
                       idle_search random_game
                  = Ok {| players :=
                            [{| kind := random; has_made_initial_meld := true |};
                             {| kind := greedy; has_made_initial_meld := true |}];
                          tile_pool := [];
                          players_tiles := [[blue 1; yellow 1]; [blue 9]];
                          is_done := [false; false];
                          board_tiles := [[green 5; green 6; green 7]];
                          current_player_idx := 1;
                          game_over := false;
                          original_player_idx := None |})
    by (vm_compute; reflexivity).
  split; [exact Hturn|]. split; [reflexivity|]. split; [reflexivity|].
  exact (random_turn_drops_meld (replicate 100 lucky_attempt) idle_search random_game _
           {| kind := random; has_made_initial_meld := true |}
           [red 1; red 2; red 3; blue 1]
           eq_refl eq_refl eq_refl eq_refl ltac:(discriminate) lucky_attempts_fair Hturn).
Defined.

Lemma simulator_rewards_other_seat_witness :
  exists simulator g1 w g2,
    Simulator_init [[red 4; red 5; red 6]] [red 1] closing_game = Ok (simulator, g1)
    /\ get_winner fruitless_logic idle_search 2 simulator g1 = Some (Ok (w, g2))
    /\ RummikubGameManager.get_winner g2 = Ok (Z.of_nat (current_player_idx closing_game))
    /\ sim_original_player_idx simulator = 1%nat
    /\ w = 0%Q.
Proof.
  eexists _, _, _, _.
  assert (Hinit : Simulator_init [[red 4; red 5; red 6]] [red 1] closing_game
                  = Ok ({| sim_board_tiles := [[red 4; red 5; red 6]];
                           sim_player_tiles := [red 1];
                           sim_original_player_idx := 1 |},
                        {| players :=
                             [{| kind := greedy; has_made_initial_meld := true |};
                              {| kind := random; has_made_initial_meld := true |}];
                           tile_pool := [];
                           players_tiles := [[red 1]; [blue 9]];
                           is_done := [false; false];
                           board_tiles := [[red 4; red 5; red 6]];
                           current_player_idx := 1;
                           game_over := false;
                           original_player_idx := Some 0%nat |}))
    by (vm_compute; reflexivity).
  assert (Hwin : get_winner fruitless_logic idle_search 2
                   {| sim_board_tiles := [[red 4; red 5; red 6]];
                      sim_player_tiles := [red 1];
                      sim_original_player_idx := 1 |}
                   {| players :=
                        [{| kind := greedy; has_made_initial_meld := true |};
                         {| kind := random; has_made_initial_meld := true |}];
                      tile_pool := [];
                      players_tiles := [[red 1]; [blue 9]];
                      is_done := [false; false];
                      board_tiles := [[red 4; red 5; red 6]];
                      current_player_idx := 1;
                      game_over := false;
                      original_player_idx := Some 0%nat |}
                 = Some (Ok (0%Q,
                     {| players :=
                          [{| kind := greedy; has_made_initial_meld := true |};
                           {| kind := random; has_made_initial_meld := true |}];
                        tile_pool := [];
                        players_tiles := [[red 1]; [blue 9]];
                        is_done := [true; true];
                        board_tiles := [[red 4; red 5; red 6]];
                        current_player_idx := 1;
                        game_over := true;
                        original_player_idx := Some 0%nat |})))
    by (vm_compute; reflexivity).
  split; [exact Hinit|]. split; [exact Hwin|]. split; [vm_compute; reflexivity|].
  destruct (simulator_rewards_other_seat fruitless_logic idle_search 2 _ _ closing_game
              _ _ _ _ 0 ltac:(cbn; lia) Hinit Hwin ltac:(vm_compute; reflexivity))
    as (Hseat & Hown & _ & _).
  split; [exact Hseat|]. by apply Hown.
Defined.

Lemma rollout_counts_one_game_eight_times_witness :
  exists total g',
    rollout fruitless_logic idle_search 2 [[red 4; red 5; red 6]] [red 1] 0 closing_game
    = Some (Ok (total, g'))
    /\ exists simulator g1 w,
         Simulator_init [[red 4; red 5; red 6]] [red 1] closing_game = Ok (simulator, g1)
         /\ get_winner fruitless_logic idle_search 2 simulator g1 = Some (Ok (w, g'))
         /\ (total == 8 * w)%Q
         /\ game_over g' = true.
Proof.
  eexists _, _.
  assert (Hrun : rollout fruitless_logic idle_search 2
                   [[red 4; red 5; red 6]] [red 1] 0 closing_game
                 = Some (Ok (0%Q,
                     {| players :=
                          [{| kind := greedy; has_made_initial_meld := true |};
                           {| kind := random; has_made_initial_meld := true |}];
                        tile_pool := [];
                        players_tiles := [[red 1]; [blue 9]];
                        is_done := [true; true];
                        board_tiles := [[red 4; red 5; red 6]];
                        current_player_idx := 1;
                        game_over := true;
                        original_player_idx := Some 0%nat |})))
    by (vm_compute; reflexivity).
  split; [exact Hrun|].
  exact (rollout_counts_one_game_eight_times fruitless_logic idle_search 2 _ _ _ _ _ Hrun).
Defined.

Lemma expand_prunes_small_hands_witness :
  last (untried_moves winning_node) = Some ([[red 4; red 5; red 6; red 7]], [])
  /\ expand winning_node
     = Ok ({| tn_board_tiles := [[red 4; red 5; red 6]];
              tn_player_tiles := [red 7];
              tn_move := None; tn_children := []; tn_visits := 0; tn_value := 0%Q;
              untried_moves := [] |}, None)
  /\ match expand winning_node with
     | Ok (self', child) =>
         untried_moves self' = removelast (untried_moves winning_node)
         /\ match child with
            | None => tn_children self' = tn_children winning_node
            | Some c =>
                tn_children self' = tn_children winning_node ++ [c]
                /\ tn_move c = Some ([[red 4; red 5; red 6; red 7]], [])
                /\ tn_player_tiles c = []
                /\ tn_board_tiles c = [[red 4; red 5; red 6; red 7]]
                /\ tn_children c = [] /\ tn_visits c = 0
                /\ (3 <= length (tn_player_tiles c))%nat
            end
     | Raise _ => (3 <= length ([] : hand))%nat
     end.
Proof.
  split; [reflexivity|]. split; [vm_compute; reflexivity|].
  exact (expand_prunes_small_hands winning_node ([[red 4; red 5; red 6; red 7]], [])
           eq_refl).
Defined.


End Instances.

(** ** The turn loop comes to an end *)

Section Termination.
Import RummikubPlayer RummikubGameManager.
Variable random_logic : AI_logic_t.
Variable mcts_logic : MCTS_logic_t.
Hypothesis random_shrinks : hand_shrinking random_logic.

Lemma greedy_shrinks : hand_shrinking RummikubGreedyAI.AI_logic.
Proof.
  intros board_tiles player_tiles.
  destruct (greedy_AI_logic_cases board_tiles player_tiles) as [Hhand Hcases].
  rewrite Hhand. split; [done|]. intros new_board new_hand Hr. rewrite Hr in Hcases.
  destruct Hcases as [Hlt _]. lia.
Qed.

Lemma AI_logic_of_shrinks g k :
  k <> mcts -> hand_shrinking (AI_logic_of random_logic mcts_logic g k).
Proof. destruct k; [done|intros _; apply greedy_shrinks|done]. Qed.

Lemma list_remove_length t l l' :
  list_remove t l = Some l' -> length l = S (length l').
Proof.
  revert l'. induction l as [|y l IH]; intros l'; simpl; [done|].
  destruct (decide (t = y)); [by intros [= ->]|].
  destruct (list_remove t l) as [l1|]; [|done]. simpl. intros [= <-].
  simpl. by rewrite (IH l1).
Qed.

Lemma remove_each_length m : forall l, (length (remove_each m l).1 <= length l)%nat.
Proof.
  induction m as [|t m IH]; intros l; simpl; [done|].
  destruct (list_remove t l) as [l1|] eqn:Hrem; [|done].
  apply list_remove_length in Hrem. specialize (IH l1). lia.
Qed.

(** [play_turn] never leaves the hand list longer than it was, and the hand
    of the move it returns is no longer than the hand list it leaves. *)
Lemma play_turn_shrinks AI_logic self board_tiles player_tiles :
  hand_shrinking AI_logic ->
  (length (hand_after (play_turn AI_logic self board_tiles player_tiles).2)
   <= length player_tiles)%nat
  /\ forall m,
       returned (play_turn AI_logic self board_tiles player_tiles).2 = Ok (Some m) ->
       (length m.2
        <= length (hand_after (play_turn AI_logic self board_tiles player_tiles).2))%nat.
Proof.
  intros Hlogic. unfold play_turn.
  case_bool_decide; [done|].
  destruct (negb (has_made_initial_meld self)).
  - destruct (RummikubAIHelper.find_tiles_for_30_points player_tiles)
      as [[[|first_meld rest]|]|]; try done.
    pose proof (remove_each_length first_meld player_tiles) as Hlen.
    destruct (remove_each first_meld player_tiles) as [hand' r]. cbn in *.
    split; [done|]. intros m. destruct r; cbn; [|done]. by intros [= <-].
  - unfold get_move. destruct (Hlogic board_tiles player_tiles) as [Hhand Hmove].
    destruct (AI_logic board_tiles player_tiles) as [hand' r]. cbn in Hhand, Hmove.
    destruct r as [[|t|new_board new_hand]|e]; cbn; try done.
    + set (removed := if bool_decide (t ∉ hand') then _ else _).
      destruct removed as [hand''|] eqn:Hrem; cbn; [|done].
      assert (Hlen : length hand' = S (length hand'')).
      { subst removed. repeat case_bool_decide; try done;
          by eapply list_remove_length. }
      split; [lia|]. by intros m [= <-].
    + split; [done|]. intros m [= <-]. by apply (Hmove new_board).
Qed.


Lemma turn_measure_hands (g : GameManager) (h h' : hand) hs :
  players_tiles g !! current_player_idx g = Some h ->
  hs = <[current_player_idx g := h']> (players_tiles g) ->
  (length h' <= length h)%nat ->
  (turn_measure (set_players_tiles hs g) + 4 * (length h - length h')
   = turn_measure g)%nat.
Proof.
  intros Hh -> Hle. unfold turn_measure. cbn.
  pose proof (length_concat_insert_gen (players_tiles g) (current_player_idx g) h h' Hh).
  unfold board, meld, hand in *. lia.
Qed.

Lemma end_of_turn_measure g2 :
  length (is_done g2) = 2%nat -> (current_player_idx g2 < 2)%nat ->
  game_over g2 = false ->
  let gf := next_player (_check_all_players_done g2) in
  length (is_done gf) = 2%nat /\ (current_player_idx gf < 2)%nat
  /\ (game_over gf = true
      \/ (turn_measure gf + (match is_done g2 !! current_player_idx g2 with
                             | Some true => 1
                             | _ => 0
                             end)
          <= turn_measure g2
             + (match is_done g2 !! current_player_idx g2 with
                | Some true => 0
                | _ => 1
                end))%nat).
Proof.
  intros Hlen Hidx Hover. unfold _check_all_players_done, next_player, turn_measure.
  destruct (is_done g2) as [|d0 [|d1 [|]]] eqn:Hdone; try done.
  destruct (current_player_idx g2) as [|[|]] eqn:Hi; try lia.
  all: destruct d0, d1; cbn; rewrite ?Hdone, ?Hi; cbn.
  all: split; [done|]; split; [lia|].
  all: first [by left | right; lia].
Qed.

Lemma draw_or_done_measure g1 g2 (h : hand) :
  players_tiles g1 !! current_player_idx g1 = Some h ->
  length (is_done g1) = 2%nat -> (current_player_idx g1 < 2)%nat ->
  game_over g1 = false ->
  draw_or_done g1 = Ok g2 ->
  let gf := next_player (_check_all_players_done g2) in
  length (is_done gf) = 2%nat /\ (current_player_idx gf < 2)%nat
  /\ (game_over gf = true \/ (turn_measure gf < turn_measure g1)%nat).
Proof.
  intros Hh Hlen Hidx Hover. unfold draw_or_done, is_tile_pool_empty.
  case_bool_decide as Hpool; cbn [negb].
  - unfold assign. case_bool_decide; [|done]. cbn [mbind result_bind]. intros [= <-].
    cbv zeta. unfold _check_all_players_done, next_player, turn_measure.
    destruct (is_done g1) as [|d0 [|d1 [|]]] eqn:Hdone; try done.
    destruct (current_player_idx g1) as [|[|]] eqn:Hi; try lia.
    all: destruct d0, d1; cbn; rewrite ?Hdone, ?Hi, ?Hpool; cbn.
    all: split; [done|]; split; [lia|].
    all: first [by left | right; lia].
  - destruct (tile_pool g1) as [|t0 pool0] eqn:Hp using rev_ind; [done|]. clear IHpool0.
    rewrite (draw_tile_last g1 pool0 t0 h Hp Hh). intros [= <-].
    cbv zeta.
    destruct (end_of_turn_measure
                (set_players_tiles (<[current_player_idx g1 := h ++ [t0]]> (players_tiles g1))
                                   (set_tile_pool pool0 g1)))
      as (Hl & Hi & Hm); [done|done|done|].
    split; [done|]. split; [done|].
    destruct Hm as [Hm|Hm]; [by left|right].
    cbn [is_done set_players_tiles set_tile_pool current_player_idx] in Hm.
    assert (Hstep : (turn_measure
                       (set_players_tiles
                          (<[current_player_idx g1 := h ++ [t0]]> (players_tiles g1))
                          (set_tile_pool pool0 g1)) + 4
                     = turn_measure g1)%nat).
    { unfold turn_measure. cbn. rewrite Hp, length_app. cbn.
      pose proof (length_concat_insert_gen (players_tiles g1) (current_player_idx g1)
                                           h (h ++ [t0]) Hh) as Hins.
      rewrite length_app in Hins. cbn in Hins.
      unfold board, meld, hand in *. lia. }
    destruct (is_done g1 !! current_player_idx g1) as [[]|]; lia.
Qed.

Lemma apply_move_measure g1 g2 (h : hand) (m : move) :
  players_tiles g1 !! current_player_idx g1 = Some h ->
  length (is_done g1) = 2%nat -> (current_player_idx g1 < 2)%nat ->
  game_over g1 = false ->
  (length m.2 < length h)%nat ->
  apply_move m g1 = Ok g2 ->
  let gf := next_player (_check_all_players_done g2) in
  length (is_done gf) = 2%nat /\ (current_player_idx gf < 2)%nat
  /\ (game_over gf = true \/ (turn_measure gf < turn_measure g1)%nat).
Proof.
  intros Hh Hlen Hidx Hover Hshort. unfold apply_move, assign.
  cbn [mbind result_bind]. case_bool_decide; [|done].
  cbn [mbind result_bind]. intros [= <-]. cbv zeta.
  destruct (end_of_turn_measure
              (set_players_tiles (<[current_player_idx g1 := m.2]> (players_tiles g1))
                                 (set_board_tiles m.1 g1)))
    as (Hl & Hi & Hm); [done|done|done|].
  split; [done|]. split; [done|].
  destruct Hm as [Hm|Hm]; [by left|right].
  cbn [is_done set_players_tiles set_board_tiles current_player_idx] in Hm.
  assert (Hstep : (turn_measure
                     (set_players_tiles (<[current_player_idx g1 := m.2]> (players_tiles g1))
                                        (set_board_tiles m.1 g1)) + 4
                   <= turn_measure g1)%nat).
  { unfold turn_measure. cbn.
    pose proof (length_concat_insert_gen (players_tiles g1) (current_player_idx g1)
                                         h m.2 Hh) as Hins.
    unfold board, meld, hand, move in *. lia. }
  destruct (is_done g1 !! current_player_idx g1) as [[]|]; lia.
Qed.

(** Every turn of [ai_VS_ai] ends the game or makes [turn_measure] smaller. *)
Lemma turn_decreases g g' :
  no_tree_search g ->
  length (is_done g) = 2%nat -> (current_player_idx g < 2)%nat ->
  game_over g = false ->
  turn random_logic mcts_logic g = Ok g' ->
  length (is_done g') = 2%nat /\ (current_player_idx g' < 2)%nat
  /\ (game_over g' = true \/ (turn_measure g' < turn_measure g)%nat).
Proof.
  intros Hno Hlen Hidx Hover.
  destruct (players g !! current_player_idx g) as [player|] eqn:Hp;
    [|by unfold turn, index; rewrite Hp].
  destruct (players_tiles g !! current_player_idx g) as [player_tiles|] eqn:Hh;
    [|by unfold turn, index; rewrite Hp, Hh].
  pose proof (no_tree_search_seat _ _ Hno Hp) as Hkind.
  rewrite (turn_plain_seat _ _ g player player_tiles Hp Hh Hkind). cbv zeta.
  destruct (play_turn_shrinks (AI_logic_of random_logic mcts_logic g (kind player)) player
                              (board_tiles g) player_tiles (AI_logic_of_shrinks g _ Hkind))
    as [Hhand Hmove].
  destruct (play_turn _ _ _ _) as [player' o]. cbn [fst snd] in Hhand, Hmove.
  destruct (returned o) as [m|]; [|done]. cbn [mbind result_bind].
  set (g1 := set_players_tiles _ _).
  assert (Hh1 : players_tiles g1 !! current_player_idx g1 = Some (hand_after o)).
  { cbn. apply list_lookup_insert_eq. by eapply lookup_lt_Some. }
  assert (Hm1 : (turn_measure g1 <= turn_measure g)%nat).
  { unfold turn_measure, g1. cbn.
    pose proof (length_concat_insert_gen (players_tiles g) (current_player_idx g)
                                         player_tiles (hand_after o) Hh) as Hins.
    unfold board, meld, hand in *.
    destruct (is_done g !! current_player_idx g) as [[]|]; lia. }
  assert (Hdraw : forall g', (g2 ← draw_or_done g1;
                               Ok (next_player (_check_all_players_done g2))) = Ok g' ->
             length (is_done g') = 2%nat /\ (current_player_idx g' < 2)%nat
             /\ (game_over g' = true \/ (turn_measure g' < turn_measure g)%nat)).
  { intros g''. destruct (draw_or_done g1) as [g2|] eqn:E; [|done].
    cbn [mbind result_bind]. intros [= <-].
    destruct (draw_or_done_measure g1 g2 (hand_after o) Hh1) as (H1 & H2 & H3); try done.
    split; [done|]. split; [done|]. destruct H3; [by left|right; lia]. }
  destruct m as [m|]; [|by apply Hdraw].
  case_bool_decide as Hsame; [by apply Hdraw|].
  destruct (apply_move m g1) as [g2|] eqn:E; [|done].
  cbn [mbind result_bind]. intros [= <-].
  specialize (Hmove m eq_refl).
  destruct (apply_move_measure g1 g2 (hand_after o) m Hh1) as (H1 & H2 & H3); try done.
  { unfold board, meld, hand, move in *. lia. }
  split; [done|]. split; [done|]. destruct H3; [by left|right; lia].
Qed.

Lemma ai_VS_ai_fuel n : forall g,
  no_tree_search g ->
  length (is_done g) = 2%nat -> (current_player_idx g < 2)%nat ->
  (turn_measure g < n)%nat ->
  exists r, ai_VS_ai random_logic mcts_logic n g = Some r.
Proof.
  induction n as [|n IH]; intros g Hno Hlen Hidx Hm; [lia|].
  cbn [ai_VS_ai]. destruct (game_over g) eqn:Hover; [by eexists|].
  destruct (turn random_logic mcts_logic g) as [g'|e] eqn:Hturn; [|by eexists].
  destruct (turn_decreases g g' Hno Hlen Hidx Hover Hturn)
    as (Hlen' & Hidx' & [Hend|Hless]).
  - exists (Ok g'). destruct n; cbn; by rewrite Hend.
  - apply IH; [|done|done|lia].
    eapply fixed_by_turn_no_tree_search; [|exact Hno]. by eapply turn_fixed.
Qed.

(** X24: [ai_VS_ai] always comes to an end, with a game or with an exception,
    on a game between greedy and random players when the random strategy
    never makes a hand longer: strictly more iterations than [turn_measure]
    counts at the start are never needed. *)
Theorem ai_VS_ai_terminates g :
  no_tree_search g ->
  length (is_done g) = 2%nat -> (current_player_idx g < 2)%nat ->
  exists r, ai_VS_ai random_logic mcts_logic (S (turn_measure g)) g = Some r.
Proof. intros Hno Hlen Hidx. apply ai_VS_ai_fuel; [done|done|done|lia]. Qed.

End Termination.

Lemma fruitless_logic_shrinks : hand_shrinking fruitless_logic.
Proof. intros board_tiles player_tiles. split; [done|]. intros ? ? H. discriminate H. Qed.

Lemma ai_VS_ai_terminates_witness :
  no_tree_search last_turns_game
  /\ length (RummikubGameManager.is_done last_turns_game) = 2%nat
  /\ (RummikubGameManager.current_player_idx last_turns_game < 2)%nat
  /\ exists r,
       RummikubGameManager.ai_VS_ai fruitless_logic idle_search
         (S (turn_measure last_turns_game)) last_turns_game = Some r.
Proof.
  assert (Hno : no_tree_search last_turns_game).
  { intros Hin. apply elem_of_cons in Hin as [?|Hin]; [done|].
    apply elem_of_cons in Hin as [?|Hin]; [done|]. by apply elem_of_nil in Hin. }
  split; [exact Hno|]. split; [reflexivity|]. split; [cbn; lia|].
  apply (ai_VS_ai_terminates fruitless_logic idle_search
           fruitless_logic_shrinks last_turns_game);
    [exact Hno|reflexivity|cbn; lia].
Defined.

(** ** Two greedy players *)

Section GreedyMatch.
Import RummikubAIHelper RummikubPlayer RummikubGameManager Spec.
#[local] Open Scope string_scope.
#[local] Open Scope list_scope.
#[local] Open Scope Z_scope.
#[local] Set Warnings "-clear-no-such-hyp".

Lemma purple_free_jokers tiles : purple_free tiles -> jokers tiles = 0%nat.
Proof.
  unfold jokers. induction 1 as [|t l Hc _ IH]; [done|]. cbn. unfold is_purple at 1.
  by rewrite bool_decide_eq_false_2.
Qed.

Lemma group_or_run_purple_free tiles :
  purple_free tiles -> exists b, group_or_run tiles = Ok b.
Proof.
  intros Hfree. unfold group_or_run.
  destruct (is_valid_group_total tiles) as [[] ->]; cbn [mbind result_bind]; [by eexists|].
  destruct (is_valid_run tiles) as [b|e] eqn:Hrun; [by eexists|].
  assert (Hr : raises (is_valid_run tiles)) by (by rewrite Hrun).
  apply is_valid_run_raises in Hr as (_ & _ & Hj).
  rewrite purple_free_jokers in Hj by done. lia.
Qed.

Lemma purple_free_concat_insert (l : list (list tile)) i h :
  purple_free (concat l) -> purple_free h -> purple_free (concat (<[i := h]> l)).
Proof.
  unfold purple_free. revert i. induction l as [|x l IH]; intros i Hl Hh; [done|].
  simpl in Hl. apply Forall_app in Hl as [Hx Hl].
  destruct i as [|i]; simpl; apply Forall_app; split; try done. by apply IH.
Qed.

Lemma purple_free_lookup (l : list (list tile)) i h :
  purple_free (concat l) -> l !! i = Some h -> purple_free h.
Proof.
  unfold purple_free. intros Hl Hh. apply Forall_forall. intros t Ht.
  apply (proj1 (Forall_forall _ _) Hl). apply list_elem_of_In, in_concat.
  exists h. split; apply list_elem_of_In; [by eapply list_elem_of_lookup_2|done].
Qed.

Lemma purple_free_subseteq (l k : list tile) : l ⊆ k -> purple_free k -> purple_free l.
Proof.
  unfold purple_free. intros Hsub Hk. apply Forall_forall. intros t Ht.
  by apply (proj1 (Forall_forall _ _) Hk), Hsub.
Qed.

Lemma purple_free_filter (f : tile -> bool) l : purple_free l -> purple_free (List.filter f l).
Proof. apply filter_Forall. Qed.

(** The candidate moves of a purple-free position: the generator does not
    raise, and the moves are purple-free. *)
Lemma get_all_moves_purple_free board_tiles player_tiles :
  purple_free (concat board_tiles) -> purple_free player_tiles ->
  exists moves,
    get_all_moves board_tiles player_tiles = Ok moves
    /\ forall m : move, m ∈ moves -> purple_free (concat m.1) /\ purple_free m.2.
Proof.
  intros Hboard Hhand. unfold get_all_moves.
  pose proof (get_all_moves_from_board_spec board_tiles player_tiles) as Hspec.
  assert (Hnew : forall i (g : meld) t (new_group : meld),
             board_tiles !! i = Some g -> t ∈ player_tiles ->
             new_group = [t] ++ g \/ new_group = g ++ [t] -> purple_free new_group).
  { intros i g t new_group Hg Ht Hnew.
    pose proof (purple_free_lookup _ _ _ Hboard Hg) as Hgfree.
    pose proof (proj1 (Forall_forall _ _) Hhand t Ht) as Htfree.
    destruct Hnew as [-> | ->]; [by constructor|].
    apply Forall_app. split; [done|by constructor]. }
  destruct (get_all_moves_from_board board_tiles player_tiles) as [board_moves|e].
  - cbn [mbind result_bind]. eexists. split; [done|].
    destruct Hspec as [_ Hspec].
    intros m [Hm|Hm]%elem_of_app.
    + apply Hspec in Hm as (i & g & t & new_group & Hg & Ht & Hnew'' & _ & ->). cbn.
      split; [|by apply purple_free_filter].
      apply purple_free_concat_insert; [done|by eapply Hnew].
    + apply list_elem_of_fmap in Hm as (new_group & -> & Hnew'). cbn.
      split; [|by apply purple_free_filter].
      rewrite concat_app. apply Forall_app. split; [done|]. cbn. rewrite app_nil_r.
      assert (Hsub : new_group ⊆+ player_tiles).
      { apply elem_of_app in Hnew' as [Hr|Hg];
          [by apply generate_runs_elem_of|by apply generate_groups_elem_of]. }
      eapply purple_free_subseteq; [|exact Hhand].
      intros t Ht. by eapply elem_of_submseteq.
  - exfalso. destruct Hspec as (i & g & t & new_group & Hg & Ht & Hnew' & Hraise).
    destruct (group_or_run_purple_free new_group) as [b Hb]; [by eapply Hnew|].
    congruence.
Qed.


Lemma find_tiles_for_30_points_melds player_tiles :
  exists r,
    find_tiles_for_30_points player_tiles = Ok r
    /\ forall melds, r = Some melds -> Forall (meld_of player_tiles) melds.
Proof.
  destruct (find_valid_sets_sound player_tiles) as (valid_sets & Hsets & Hmelds).
  unfold find_tiles_for_30_points.
  rewrite Hsets. cbn [mbind result_bind].
  rewrite (with_points_defined _ _ Hmelds). cbn [mbind result_bind].
  destruct (pack_sets_chosen (sort_by_points (keyed_sets valid_sets)) ∅ [] 0)
    as (chosen & Hsub & -> & _ & _).
  cbn [app]. eexists. split; [done|].
  intros melds Hsome. case_bool_decide; [|done]. injection Hsome as <-.
  apply Forall_forall. intros m (c & -> & Hc)%list_elem_of_fmap.
  apply (sublist_subseteq _ _ Hsub) in Hc. unfold sort_by_points in Hc.
  rewrite stable_sort_Permutation in Hc.
  apply list_elem_of_fmap in Hc as (m & -> & Hm).
  by apply (proj1 (Forall_forall _ _) Hmelds).
Qed.

Lemma purple_free_melds (player_tiles : hand) (melds : list meld) :
  purple_free player_tiles -> Forall (meld_of player_tiles) melds ->
  purple_free (concat melds).
Proof.
  intros Hhand Hmelds. induction Hmelds as [|m melds (_ & Hsub & _) _ IH]; [constructor|].
  simpl. apply Forall_app. split; [|done]. by eapply purple_free_subseteq.
Qed.

(** A turn of a greedy player on purple-free tiles does not raise, and
    what it leaves and returns is purple-free. *)
Lemma play_turn_greedy_sound self board_tiles player_tiles :
  purple_free (concat board_tiles) -> purple_free player_tiles ->
  purple_free
    (concat (board_after (play_turn RummikubGreedyAI.AI_logic self board_tiles player_tiles).2))
  /\ purple_free
       (hand_after (play_turn RummikubGreedyAI.AI_logic self board_tiles player_tiles).2)
  /\ exists m,
       returned (play_turn RummikubGreedyAI.AI_logic self board_tiles player_tiles).2 = Ok m
       /\ forall mv : move, m = Some mv -> purple_free (concat mv.1) /\ purple_free mv.2.
Proof.
  intros Hboard Hhand. unfold play_turn.
  case_bool_decide; [cbn; split; [done|]; split; [done|]; by eexists|].
  destruct (negb (has_made_initial_meld self)).
  - destruct (find_tiles_for_30_points_melds player_tiles) as (r & -> & Hmelds).
    destruct r as [[|first_meld rest]|];
      [cbn; split; [done|]; split; [done|]; by eexists| |
       cbn; split; [done|]; split; [done|]; by eexists].
    specialize (Hmelds _ eq_refl).
    pose proof Hmelds as [(Hnd & Hsub & _ & _) _]%Forall_cons.
    destruct (remove_each_submseteq first_meld player_tiles) as (hand' & Hrem & Hperm).
    { by apply NoDup_submseteq. }
    rewrite Hrem. cbn.
    assert (Hhand' : purple_free hand').
    { eapply purple_free_subseteq; [|exact Hhand]. intros t Ht.
      rewrite <- Hperm. apply elem_of_app. by right. }
    assert (Hboard' : purple_free (concat (board_tiles ++ first_meld :: rest))).
    { rewrite concat_app. apply Forall_app. split; [done|].
      by apply (purple_free_melds player_tiles). }
    split; [done|]. split; [done|]. eexists. split; [done|].
    by intros mv [= <-].
  - unfold get_move.
    destruct (get_all_moves_purple_free board_tiles player_tiles Hboard Hhand)
      as (moves & Hmoves & Hfree).
    destruct (greedy_AI_logic_cases board_tiles player_tiles) as [Hsame Hcases].
    destruct (RummikubGreedyAI.AI_logic board_tiles player_tiles) as [hand' r].
    cbn [fst snd] in Hsame, Hcases. subst hand'.
    destruct r as [[|t|new_board new_hand]|e]; [| done | |congruence].
    + cbn. split; [done|]. split; [done|]. by eexists.
    + cbn. split; [done|]. split; [done|]. eexists. split; [done|].
      intros mv [= <-]. cbn.
      destruct Hcases as (_ & moves' & m & group & Hmoves' & Hm & Hgroup & -> & ->).
      rewrite Hmoves in Hmoves'. injection Hmoves' as <-.
      destruct (Hfree m Hm) as [Hb Hh]. split; [|done].
      cbn. rewrite app_nil_r.
      eapply purple_free_subseteq; [|exact Hb].
      intros t Ht. apply list_elem_of_In, in_concat. exists group.
      split; by apply list_elem_of_In.
Qed.

Lemma greedy_match_no_tree_search g : greedy_match g -> no_tree_search g.
Proof.
  intros (_ & Hkinds & _) (p & Hk & Hp)%list_elem_of_fmap.
  apply (proj1 (Forall_forall _ _) Hkinds) in Hp. congruence.
Qed.

Section AnyStrategies.
Variable random_logic : AI_logic_t.
Variable mcts_logic : MCTS_logic_t.

Lemma turn_greedy_match g :
  greedy_match g ->
  exists g', turn random_logic mcts_logic g = Ok g' /\ greedy_match g'.
Proof.
  intros (Hplayers & Hkinds & Hhands & Hdone & Hidx & Hpool & Hfree & Hboard).
  destruct (lookup_lt_is_Some_2 (players g) (current_player_idx g)) as [player Hp]; [lia|].
  destruct (lookup_lt_is_Some_2 (players_tiles g) (current_player_idx g))
    as [player_tiles Hh]; [lia|].
  assert (Hkind : kind player = greedy).
  { apply (proj1 (Forall_forall _ _) Hkinds). by eapply list_elem_of_lookup_2. }
  rewrite (turn_plain_seat _ _ g player player_tiles Hp Hh) by (by rewrite Hkind).
  cbv zeta. rewrite Hkind. cbn [AI_logic_of].
  pose proof (play_turn_kind RummikubGreedyAI.AI_logic player (board_tiles g) player_tiles)
    as Hkind'.
  destruct (play_turn_greedy_sound player (board_tiles g) player_tiles)
    as (Hb & Hh' & m & Hret & Hm); [done|exact (purple_free_lookup _ _ _ Hfree Hh)|].
  destruct (play_turn RummikubGreedyAI.AI_logic player (board_tiles g) player_tiles)
    as [player' o].
  cbn [fst snd] in Hkind', Hb, Hh', Hret. rewrite Hret. cbn [mbind result_bind].
  set (g1 := set_players_tiles _ _).
  assert (Hg1 : greedy_match g1).
  { unfold g1. split; [cbn; by rewrite length_insert|].
    split; [cbn; apply Forall_insert; [done|congruence]|].
    split; [cbn; by rewrite length_insert|].
    split; [done|]. split; [done|]. split; [done|].
    split; [cbn; by apply purple_free_concat_insert|done]. }
  assert (Hend : forall g2, greedy_match g2 ->
                            greedy_match (next_player (_check_all_players_done g2))).
  { intros g2 (H1 & H2 & H3 & H4 & H5 & H6 & H7 & H8).
    unfold _check_all_players_done, next_player.
    assert (Hmod : ((current_player_idx g2 + 1) mod 2 < 2)%nat)
      by (apply Nat.mod_upper_bound; lia).
    destruct (forallb _ _);
      (split; [exact H1|]; split; [exact H2|]; split; [exact H3|]; split; [exact H4|];
       split; [exact Hmod|]; split; [exact H6|]; split; [exact H7|exact H8]). }
  assert (Hdraw : exists g2, draw_or_done g1 = Ok g2 /\ greedy_match g2).
  { destruct Hg1 as (H1 & H2 & H3 & H4 & H5 & H6 & H7 & H8).
    unfold draw_or_done, is_tile_pool_empty.
    case_bool_decide as Hempty; cbn [negb].
    - unfold assign. rewrite bool_decide_eq_true_2 by lia. cbn [mbind result_bind].
      eexists. split; [done|].
      split; [exact H1|]; split; [exact H2|]; split; [exact H3|];
        split; [cbn; by rewrite length_insert|];
        split; [exact H5|]; split; [exact H6|]; split; [exact H7|exact H8].
    - destruct (tile_pool g1) as [|t0 pool0] eqn:Hp0 using rev_ind; [done|]. clear IHpool0.
      destruct (lookup_lt_is_Some_2 (players_tiles g1) (current_player_idx g1))
        as [h1 Hh1]; [lia|].
      rewrite (draw_tile_last g1 pool0 t0 h1 Hp0 Hh1).
      eexists. split; [done|].
      apply Forall_app in H6 as [Hpool0 Ht0].
      split; [exact H1|]; split; [exact H2|];
        split; [cbn; by rewrite length_insert|];
        split; [exact H4|]; split; [exact H5|]; split; [exact Hpool0|];
        split; [|exact H8].
      cbn. apply purple_free_concat_insert; [done|].
      apply Forall_app. split; [exact (purple_free_lookup _ _ _ H7 Hh1)|done]. }
  assert (Hno : exists g', (g2 ← draw_or_done g1;
                            Ok (next_player (_check_all_players_done g2))) = Ok g'
                           /\ greedy_match g').
  { destruct Hdraw as (g2 & -> & Hg2). cbn [mbind result_bind].
    eexists. split; [done|]. by apply Hend. }
  destruct m as [mv|]; [|exact Hno].
  case_bool_decide; [exact Hno|].
  destruct (Hm mv eq_refl) as [Hmb Hmh].
  destruct Hg1 as (H1 & H2 & H3 & H4 & H5 & H6 & H7 & H8).
  unfold apply_move, assign. cbn [mbind result_bind].
  rewrite bool_decide_eq_true_2 by (cbn; cbn in H3; lia).
  cbn [mbind result_bind]. eexists. split; [done|]. apply Hend.
  split; [exact H1|]; split; [exact H2|];
    split; [cbn; cbn in H3; by rewrite length_insert|];
    split; [exact H4|]; split; [exact H5|]; split; [exact H6|];
    split; [|exact Hmb].
  cbn. by apply purple_free_concat_insert.
Qed.

Lemma turn_greedy_only g :
  greedy_match g ->
  turn random_logic mcts_logic g = turn fruitless_logic idle_search g.
Proof.
  intros (_ & Hkinds & _). unfold turn, index.
  destruct (players g !! current_player_idx g) as [player|] eqn:Hp; [|done].
  cbn [mbind result_bind].
  assert (Hkind : kind player = greedy).
  { apply (proj1 (Forall_forall _ _) Hkinds). by eapply list_elem_of_lookup_2. }
  by rewrite Hkind.
Qed.

Lemma ai_VS_ai_greedy_match n : forall g,
  greedy_match g -> (turn_measure g < n)%nat ->
  exists g', ai_VS_ai random_logic mcts_logic n g = Some (Ok g')
             /\ game_over g' = true /\ greedy_match g'.
Proof.
  induction n as [|n IH]; intros g Hmatch Hm; [lia|].
  cbn [ai_VS_ai]. destruct (game_over g) eqn:Hover; [by eexists|].
  destruct (turn_greedy_match g Hmatch) as (g1 & Hturn & Hmatch1). rewrite Hturn.
  rewrite (turn_greedy_only g Hmatch) in Hturn.
  pose proof Hmatch as (_ & _ & _ & Hdone & Hidx & _).
  destruct (turn_decreases fruitless_logic idle_search fruitless_logic_shrinks g g1
                           (greedy_match_no_tree_search g Hmatch) Hdone Hidx Hover Hturn)
    as (_ & _ & [Hend|Hless]).
  - exists g1. split; [|done]. destruct n; cbn; by rewrite Hend.
  - apply IH; [done|lia].
Qed.

End AnyStrategies.

Lemma tiles_in_order_purple_free : purple_free tiles_in_order.
Proof.
  apply Forall_forall. intros t [->|[Hc _]]%tiles_in_order_elem_of; [done|].
  intros Hp. rewrite Hp in Hc. unfold game_colors in Hc. set_solver.
Qed.

(** X25: Whatever the shuffle, a game between two greedy players runs to its
    end without an exception, in at most 741 iterations of [ai_VS_ai]: the
    game is then over, the pool is empty, and both players are marked as
    done. *)
Theorem greedy_match_runs_to_the_end (random_logic : AI_logic_t) (mcts_logic : MCTS_logic_t) shuffle :
  shuffle tiles_in_order ≡ₚ tiles_in_order ->
  exists g0 g',
    new_game shuffle [greedy; greedy] = Ok g0
    /\ ai_VS_ai random_logic mcts_logic 741 g0 = Some (Ok g')
    /\ game_over g' = true /\ tile_pool g' = [] /\ is_done g' = [true; true].
Proof.
  intros Hperm.
  destruct (new_game_dealt shuffle [greedy; greedy] Hperm)
    as (pool & h0 & h1 & Hshuffle & Hh0 & Hh1 & Hpool & Hnew).
  eexists.
  assert (Hfree : purple_free (pool ++ rev h1 ++ rev h0)).
  { rewrite <- Hshuffle. unfold purple_free. rewrite Hperm. apply tiles_in_order_purple_free. }
  apply Forall_app in Hfree as [Hfp Hfree]. apply Forall_app in Hfree as [Hf1 Hf0].
  unfold purple_free in Hf0, Hf1. apply List.Forall_rev in Hf0, Hf1. rewrite rev_involutive in Hf0, Hf1.
  set (g0 := {| players := _ |}) in Hnew.
  assert (Hmatch : greedy_match g0).
  { split; [done|]. split; [by repeat constructor|]. split; [done|]. split; [done|].
    split; [cbn; lia|]. split; [done|]. split; [|constructor].
    cbn. rewrite app_nil_r. by apply Forall_app. }
  assert (Hmeasure : (turn_measure g0 < 741)%nat).
  { unfold turn_measure. cbn. rewrite app_nil_r, length_app.
    unfold board, meld, hand in *. lia. }
  destruct (ai_VS_ai_greedy_match random_logic mcts_logic 741 g0 Hmatch Hmeasure)
    as (g' & Hrun & Hover & Hmatch').
  exists g'. split; [exact Hnew|]. split; [exact Hrun|]. split; [exact Hover|].
  destruct (ai_VS_ai_pool random_logic mcts_logic 741 g0 g') as ((Hne & Hdone & Hall) & _).
  { by apply greedy_match_no_tree_search. }
  { split; [done|]. split; [|done]. cbn. intros Hin.
    apply elem_of_cons in Hin as [?|Hin]; [done|].
    apply elem_of_cons in Hin as [?|Hin]; [done|]. by apply elem_of_nil in Hin. }
  { exact Hrun. }
  specialize (Hall Hover).
  assert (Hlen : length (is_done g') = 2%nat).
  { apply Hmatch'. }
  destruct (is_done g') as [|d0 [|d1 [|]]] eqn:Hd; try done.
  apply Forall_cons in Hall as [<- Hall]. apply Forall_cons in Hall as [<- _].
  split; [|done]. apply Hdone. by left.
Qed.

Lemma greedy_match_runs_to_the_end_witness :
  dealing_shuffle tiles_in_order ≡ₚ tiles_in_order
  /\ exists g0 g',
       new_game dealing_shuffle [greedy; greedy] = Ok g0
       /\ ai_VS_ai fruitless_logic idle_search 741 g0 = Some (Ok g')
       /\ game_over g' = true /\ tile_pool g' = [] /\ is_done g' = [true; true].
Proof.
  split; [exact dealing_shuffle_Permutation|].
  exact (greedy_match_runs_to_the_end fruitless_logic idle_search dealing_shuffle
           dealing_shuffle_Permutation).
Defined.

End GreedyMatch.

(** ** The initial-meld check against the worth of a hand *)

Section HandWorth.
Import RummikubAIHelper RummikubPlayer RummikubGameManager Spec.

Lemma game_tile_of_pool t : t ∈ tiles_in_order -> number t <> None -> game_tile t.
Proof.
  unfold tiles_in_order. intros [Ht|Ht]%elem_of_app Hn.
  - apply list_elem_of_bind in Ht as (c & Ht & Hc).
    apply list_elem_of_bind in Ht as (n & Ht & Hn').
    apply elem_of_seq in Hn'.
    exists c, (Z.of_nat n). split; [|split; [done|lia]].
    apply elem_of_cons in Ht as [->|Ht]; [done|].
    by apply list_elem_of_singleton in Ht as ->.
  - apply elem_of_cons in Ht as [->|Ht]; [done|].
    by apply list_elem_of_singleton in Ht as ->.
Qed.















(** ** Game tiles under the validators of the specification *)









(** ** What [find_valid_sets] finds are melds of the specification *)




Lemma pool_hand_game_tiles player_tiles :
  player_tiles ⊆+ tiles_in_order -> Forall game_tile (numbered_tiles player_tiles).
Proof.
  intros Hsub. apply Forall_forall.
  intros t [Ht Hn]%list_elem_of_In%List.filter_In.
  apply bool_decide_eq_true in Hn. apply game_tile_of_pool; [|done].
  eapply elem_of_submseteq; [|exact Hsub]. by apply list_elem_of_In.
Qed.

(** ** A hand worth less than 30 points does not pass *)




(** ** Every meld of a hand without repeated tiles is found *)

















(** ** The packing of the check is a packing by descending points *)

Section Packing30.
Variable player_tiles : hand.
Variable valid_sets : list meld.
Hypothesis hand_NoDup : NoDup player_tiles.
Hypothesis hand_game : Forall game_tile player_tiles.
Hypothesis hand_sets : find_valid_sets player_tiles = Ok valid_sets.




End Packing30.


(** ** The worth of a hand is at most the sum of its numbers *)





End HandWorth.

Section InitialMeldGate.
Import RummikubAIHelper RummikubPlayer RummikubGameManager Spec.


Lemma game_tiles_in_order : Forall game_tile (numbered_tiles tiles_in_order).
Proof. by apply pool_hand_game_tiles. Qed.



End InitialMeldGate.
